(** * Structure MCMC over DAGs: the proposal mechanism of [mcmc/graphs/proposal.py]

    A shallow embedding of the parent-set distributions, of their
    enumeration, of the two graph moves ([basic_move], [rev_move]) and of
    [DAGProposal.sample], with the properties the specification states
    about them. *)

From Stdlib Require Import QArith Qround Qpower.
From stdpp Require Import base list list_numbers gmap sets relations.

Close Scope Q_scope.

(** ** Exceptions and fallible computations *)

(** The Python exceptions the module can raise. *)
Inductive exn : Type :=
  | IndexError
  | ValueError
  | KeyError
  | TypeError
  | ZeroDivisionError.

(** A call either raises ([inl e]) or returns ([inr x]). *)
Definition result (A : Type) : Type := (exn + A)%type.

Definition raise {A : Type} (e : exn) : result A := inl e.
Definition ret {A : Type} (x : A) : result A := inr x.

Definition bind {A B : Type} (m : result A) (k : A → result B) : result B :=
  match m with
  | inl e => inl e
  | inr x => k x
  end.

Notation "'do' x <- m ; k" := (bind m (fun x => k))
  (at level 10, x pattern, m at level 100, k at level 200).

Definition raises {A : Type} (m : result A) : Prop := ∃ e, m = inl e.

(** ** Floating-point numbers

    Scores are NumPy floats.  The embedding keeps the operations of the
    source abstract: a theorem below holds for whatever [exp], [log], [+],
    [-], [/], [max] and [sum] compute, up to the laws it names
    ([SaneWeights], [FloatOrder]).  [fpos x] is the test [x > 0]
    (false on NaN); the one law says that an entry multiplied by a [False]
    flag and then rescaled is never positive, which holds for IEEE floats
    (the product is a zero or a NaN) as well as for real numbers. *)
Class Floating (F : Type) : Type := {
  fadd : F → F → F;
  fsub : F → F → F;
  fmul : F → F → F;
  fdiv : F → F → F;
  fexp : F → F;
  flog : F → F;
  fmax : F → F → F;
  fsum : list F → F;
  of_nat : nat → F;
  fpos : F → bool;
  fpos_masked : ∀ p t, fpos (fdiv (fmul p (of_nat 0)) t) = false
}.

(** A frozenset of variable indices. *)
Abbreviation pset := (gset nat).

Section distribution.
Context {F : Type} `{!Floating F}.

(** [max(prob)] / [selected.max()] of a non-empty sequence. *)
Definition maximum (x : F) (xs : list F) : F := foldl fmax x xs.

(** [rng.choice(a, p=w)]: an index of positive weight, picked by the draw
    [r] of the generator; NumPy raises [ValueError] when the weights are
    not a probability vector (here: no positive entry, as when they are
    all NaN). *)
Definition support (w : list F) : list nat :=
  filter (λ i, default false (fpos <$> w !! i) = true) (seq 0 (length w)).

Definition choice_p (w : list F) (r : nat) : result nat :=
  match support w with
  | [] => raise ValueError
  | i :: s => ret (nth (r mod length (i :: s)) (i :: s) i)
  end.

(** [rng.choice(n)]: uniform over [range(n)]; [ValueError] for [n = 0]. *)
Definition choice (n : nat) (r : nat) : result nat :=
  if decide (n = 0) then raise ValueError else ret (r mod n).

(** *** [OrderedDict] keyed by frozensets *)

Definition odict : Type := list (pset * F).

(** [d[k] = v]: an existing key keeps its position. *)
Fixpoint od_set (k : pset) (v : F) (d : odict) : odict :=
  match d with
  | [] => [(k, v)]
  | (k', v') :: d' =>
      if decide (k' = k) then (k, v) :: d' else (k', v') :: od_set k v d'
  end.

(** [OrderedDict(pairs)]. *)
Definition od_of_pairs (kvs : list (pset * F)) : odict :=
  foldl (λ d kv, od_set kv.1 kv.2 d) [] kvs.

(** [d[k]], raising [KeyError] on a missing key. *)
Fixpoint od_get (d : odict) (k : pset) : result F :=
  match d with
  | [] => raise KeyError
  | (k', v) :: d' => if decide (k' = k) then ret v else od_get d' k
  end.

(** *** [class ParentSetDistribution] *)

Record ParentSetDistribution : Type := mkPSD {
  var_name : nat;
  table : odict
}.

(** [ParentSetDistribution.__init__]: [parent_sets[0]] is inspected first
    ([IndexError] on the empty list); array-like sets become frozensets.
    The variable index stands for the name ['X' + str(var)]. *)
Definition ParentSetDistribution_init
    (var : nat) (parent_sets : list (list nat)) (probabilities : list F)
    : result ParentSetDistribution :=
  match parent_sets with
  | [] => raise IndexError
  | _ :: _ =>
      let parent_sets := (list_to_set <$> parent_sets : list pset) in
      ret (mkPSD var (od_of_pairs (zip parent_sets probabilities)))
  end.

(** [ParentSetDistribution.__getitem__]. *)
Definition getitem (d : ParentSetDistribution) (item : pset) : result F :=
  od_get (table d) item.

(** The items of the table whose key satisfies the condition. *)
Definition conditioned (d : ParentSetDistribution) (condition : pset → bool)
    : list (pset * F) :=
  filter (λ kv, condition kv.1 = true) (table d).

(** [ParentSetDistribution.sample(condition)], called with a condition, as
    every call of the module is; the branch [condition is None] is
    [sample_unconditioned] below, which returns values of another type.
    Unpacking the zipped items into [p_sets, prob] raises [ValueError] when
    no item is left; [r] is the draw of the generator.  The scores are
    NumPy scalars: [prob - c], on the tuple [prob], is then NumPy's
    subtraction (on built-in Python floats it would raise [TypeError]). *)
Definition sample (d : ParentSetDistribution) (condition : pset → bool)
    (r : nat) : result (pset * F) :=
  match conditioned d condition with
  | [] => raise ValueError
  | [(k, v)] => ret (k, v)
  | (k, v) :: tbl =>
      let p_sets := k :: tbl.*1 in
      let prob := v :: tbl.*2 in
      let c := maximum v tbl.*2 in
      let prob := (λ x, fexp (fsub x c)) <$> prob in
      let z := fsum prob in
      do i <- choice_p ((λ x, fdiv x z) <$> prob) r;
      ret (nth i p_sets k, fadd (flog z) c)
  end.

(** [ParentSetDistribution.log_z(condition)], called with a condition, as
    every call of the module is; the branch [condition is None] is
    [log_z_unconditioned] below.  [selected.max()] raises [ValueError] on an
    empty array. *)
Definition log_z (d : ParentSetDistribution) (condition : pset → bool)
    : result F :=
  match (conditioned d condition).*2 with
  | [] => raise ValueError
  | [v] => ret v
  | v :: selected =>
      let c := maximum v selected in
      ret (fadd (flog (fsum ((λ x, fexp (fsub x c)) <$> (v :: selected)))) c)
  end.

(** The weights [prob / z] that [sample] hands to the generator. *)
Definition exp_weights (v : F) (vs : list F) : list F :=
  let c := maximum v vs in
  let prob := (λ x, fexp (fsub x c)) <$> (v :: vs) in
  (λ x, fdiv x (fsum prob)) <$> prob.

(** The value [log_z] and [sample] compute for two or more selected
    scores. *)
Definition stable_log_sum_exp (v : F) (vs : list F) : F :=
  let c := maximum v vs in
  fadd (flog (fsum ((λ x, fexp (fsub x c)) <$> (v :: vs)))) c.

End distribution.

Arguments odict F : clear implicits.
Arguments ParentSetDistribution F : clear implicits.

(** Scores and counts on which the arithmetic behaves (no NaN, no
    overflow): a ratio of counts is positive exactly when its numerator is,
    and the exponential weights of a non-empty list of scores have a
    positive entry.  Under this assumption the weighted draws go through. *)
Class SaneWeights (F : Type) `{!Floating F} : Prop := {
  ratio_pos : ∀ a n : nat,
    0 < n → fpos (fdiv (of_nat a) (of_nat n)) = bool_decide (0 < a);
  exp_weights_pos : ∀ (v : F) (vs : list F),
    ∃ x, x ∈ exp_weights v vs ∧ fpos x = true
}.

(** The order of the scores: [fle x y] is the comparison [x <= y] and
    [fisnan x] the test [np.isnan(x)].  The comparison is transitive, and
    reflexive on a score that is no NaN; [max] (Python's on a tuple, NumPy's
    on an array) returns one of its arguments, and on two scores that are no
    NaN one that is not below the other.  IEEE floats satisfy these laws. *)
Class FloatOrder (F : Type) `{!Floating F} : Type := {
  fle : F → F → bool;
  fisnan : F → bool;
  fle_refl : ∀ x, fisnan x = false → fle x x = true;
  fle_trans : ∀ x y z, fle x y = true → fle y z = true → fle x z = true;
  fmax_either : ∀ x y, fmax x y = x ∨ fmax x y = y;
  fmax_fle_l : ∀ x y,
    fisnan x = false → fisnan y = false → fle x (fmax x y) = true;
  fmax_fle_r : ∀ x y,
    fisnan x = false → fisnan y = false → fle y (fmax x y) = true
}.

(** ** The DAG state *)

(** Modelled from the spec: [class DAGState] ([mcmc/graphs/state_space.py])
    is not part of the sources.  Per the specification it is an adjacency
    relation over [n] labelled nodes with a derived ancestor relation, and
    it offers the parents of a node, the edge list, the descendants of a
    node, an ancestor test, edge addition and removal, [orphan] (remove all
    incoming edges of a set of nodes), a fan-in bound attached to the state
    and a deep copy.  [adj[u, v] = 1] is the edge [u → v] (the module sums
    the columns of [adj] to count parents). *)
Record DAGState : Type := mkDAG {
  shape : nat;
  adj : gset (nat * nat);
  fan_in_ : nat
}.

(** The assignment [state.fan_in_ = f]. *)
Definition set_fan_in (S : DAGState) (f : nat) : DAGState :=
  mkDAG (shape S) (adj S) f.

(** The edge relation of a state and its boolean test. *)
Definition edge (S : DAGState) (u v : nat) : Prop := (u, v) ∈ adj S.
Definition edgeb (S : DAGState) (u v : nat) : bool := bool_decide ((u, v) ∈ adj S).

(** Modelled from the spec: the derived ancestor relation of [DAGState], as
    the transitive closure of the edges, by Warshall's iteration over the
    nodes. *)
Definition wstep (k : nat) (M : nat → nat → bool) : nat → nat → bool :=
  λ i j, M i j || (M i k && M k j).

Definition warshall (ks : list nat) (M : nat → nat → bool) : nat → nat → bool :=
  foldr wstep M ks.

(** Modelled from the spec: the ancestor test of [DAGState].  [reach S u v]
    says that there is a path of at least one edge from [u] to [v]. *)
Definition reach (S : DAGState) : nat → nat → bool :=
  warshall (seq 0 (shape S)) (edgeb S).

(** What the iteration computes: the paths whose inner nodes are in [K]. *)
Inductive path_via (R : nat → nat → bool) (K : list nat) : nat → nat → Prop :=
  | path_edge i j : R i j = true → path_via R K i j
  | path_join i k j :
      k ∈ K → path_via R K i k → path_via R K k j → path_via R K i j.

(** Modelled from the spec: [state.adj.nodes_iter()] of [DAGState], the
    nodes [0 .. n-1]. *)
Definition nodes_iter (S : DAGState) : list nat := seq 0 (shape S).

(** Modelled from the spec: [state.adj.parents(v)] of [DAGState], the
    current parents of a node. *)
Definition parents (S : DAGState) (v : nat) : list nat :=
  filter (λ u, edgeb S u v = true) (nodes_iter S).

(** Modelled from the spec: [state.descendants(i)] of [DAGState], the
    nodes that [i] reaches. *)
Definition descendants (S : DAGState) (i : nat) : list nat :=
  filter (λ x, reach S i x = true) (nodes_iter S).

(** Matrix views, with integer entries. *)
Definition matrix : Type := nat → nat → Z.

(** [np.identity(n)]. *)
Definition identity : matrix := λ u v, if decide (u = v) then 1%Z else 0%Z.

(** [state.adj] as a matrix of zeros and ones. *)
Definition adj_matrix (S : DAGState) : matrix :=
  λ u v, if edgeb S u v then 1%Z else 0%Z.

(** Modelled from the spec: [state.ancestor_matrix] of [DAGState].  The
    entry [[u, v]] is 1 when [v] is an ancestor of [u]: the entry that
    forbids adding [u → v], as the specification describes the addable
    edges. *)
Definition ancestor_matrix (S : DAGState) : matrix :=
  λ u v, if reach S v u then 1%Z else 0%Z.

(** [M.nonzero()] zipped into index pairs, in row-major order. *)
Definition indices (n : nat) : list (nat * nat) :=
  u ← seq 0 n; v ← seq 0 n; [(u, v)].

Definition nonzero (n : nat) (M : matrix) : list (nat * nat) :=
  filter (λ uv, M uv.1 uv.2 ≠ 0%Z) (indices n).

(** [state.adj.A.sum(axis=0)[v]]: the number of parents of [v]. *)
Definition colsum (S : DAGState) (v : nat) : Z :=
  foldr Z.add 0%Z ((λ u, adj_matrix S u v) <$> nodes_iter S).

(** Modelled from the spec: [state.copy()] of [DAGState], the value of the
    deep copy (the store below makes it a new object). *)
Definition copy (S : DAGState) : DAGState := S.

(** Modelled from the spec: [add_edge], [remove_edge], [add_edges] and
    [orphan] of [DAGState], as what they do to the value of the state. *)
Definition add_edge (S : DAGState) (u v : nat) : DAGState :=
  mkDAG (shape S) ({[ (u, v) ]} ∪ adj S) (fan_in_ S).

Definition remove_edge (S : DAGState) (u v : nat) : DAGState :=
  mkDAG (shape S) (adj S ∖ {[ (u, v) ]}) (fan_in_ S).

Definition add_edges (S : DAGState) (es : list (nat * nat)) : DAGState :=
  foldl (λ S e, add_edge S e.1 e.2) S es.

Definition orphan (S : DAGState) (nodes : list nat) : DAGState :=
  mkDAG (shape S) (filter (λ e, e.2 ∉ nodes) (adj S)) (fan_in_ S).

(** The invariants of a DAG state: edges join nodes of the graph, and no
    node reaches itself. *)
Definition in_range (S : DAGState) : Prop :=
  ∀ u v, edge S u v → u < shape S ∧ v < shape S.

Definition acyclic (S : DAGState) : Prop := ∀ x, ¬ tc (edge S) x x.

Definition is_dag (S : DAGState) : bool :=
  forallb (λ e, bool_decide (e.1 < shape S) && bool_decide (e.2 < shape S))
          (elements (adj S))
  && forallb (λ x, negb (reach S x x)) (nodes_iter S).

(** ** Parent-set enumeration *)

(** Modelled from the spec: the subsets of a given size that [power_set]
    ([core/misc.py], not part of the sources) puts together, as tuples. *)
Fixpoint combinations (l : list nat) (r : nat) : list (list nat) :=
  match r, l with
  | 0, _ => [[]]
  | S _, [] => []
  | S r', x :: l' => ((x ::.) <$> combinations l' r') ++ combinations l' r
  end.

(** Modelled from the spec: [power_set] ([core/misc.py]) is not part of the
    sources.  Per the specification it yields every subset of the given
    variables of size at most [fan_in] (the power set truncated at
    [fan_in]); here as tuples, by increasing size. *)
Definition power_set (l : list nat) (fan_in : nat) : list (list nat) :=
  r ← seq 0 (S fan_in); combinations l r.

Section enumeration.
Context {F : Type} `{!Floating F}.

(** The body of the loop of [get_parent_set_distributions] for one
    variable. *)
Definition parent_set_distribution
    (sets : list (list nat)) (score_fn : nat * list nat → F)
    (condition : option (nat → list nat → bool)) (var : nat)
    : result (ParentSetDistribution F) :=
  let var_psets :=
    match condition with
    | None => filter (λ s, var ∉ s) sets
    | Some condition => filter (λ s, (var ∉ s) ∧ (condition var s = true)) sets
    end in
  let scores := (λ ps, score_fn (var, ps)) <$> var_psets in
  ParentSetDistribution_init var var_psets scores.

(** [pset_dists.append(psd)] for each variable in turn; the first
    constructor that raises ends the call. *)
Fixpoint collect {A B : Type} (f : A → result B) (l : list A) : result (list B) :=
  match l with
  | [] => ret []
  | x :: l' => do y <- f x; do ys <- collect f l'; ret (y :: ys)
  end.

(** [get_parent_set_distributions(variables, fan_in, score_fn, condition)]
    for a number of variables. *)
Definition get_parent_set_distributions
    (n_variables fan_in : nat) (score_fn : nat * list nat → F)
    (condition : option (nat → list nat → bool))
    : result (list (ParentSetDistribution F)) :=
  let sets := power_set (seq 0 n_variables) fan_in in
  collect (parent_set_distribution sets score_fn condition) (seq 0 n_variables).

End enumeration.

(** The candidates of a variable, in the words of the specification: the
    subsets of the other variables of size at most the fan-in that the
    feasibility predicate (when there is one) accepts.  [sorted_tuple n X]
    is the set [X] as the tuple [power_set] yields for it. *)
Definition feasible (condition : option (nat → list nat → bool))
    (v : nat) (s : list nat) : bool :=
  match condition with
  | None => true
  | Some condition => condition v s
  end.

Definition sorted_tuple (n : nat) (X : pset) : list nat :=
  filter (λ a, a ∈ X) (seq 0 n).

Definition is_candidate (n fan_in : nat)
    (condition : option (nat → list nat → bool)) (v : nat) (X : pset) : Prop :=
  (∀ x, x ∈ X → x < n ∧ x ≠ v) ∧ size X ≤ fan_in ∧
  feasible condition v (sorted_tuple n X) = true.

(** A state respects a fan-in bound when no node has more parents. *)
Definition fan_in_respected (S : DAGState) (fan_in : nat) : Prop :=
  ∀ v, v < shape S → length (parents S v) ≤ fan_in.

(** The tuples [get_parent_set_distributions] keeps for a variable. *)
Definition var_psets (n fan_in : nat)
    (condition : option (nat → list nat → bool)) (var : nat) : list (list nat) :=
  filter (λ s, (var ∉ s) ∧ (feasible condition var s = true))
         (power_set (seq 0 n) fan_in).

(** ** Objects and the store

    A DAG state is a mutable Python object.  The store holds the current
    value of every state object; an object is its position in the store.
    A computation takes the store, may update it, and raises or returns;
    the updates made before an exception are kept. *)
Abbreviation obj := nat (only parsing).
Abbreviation store := (list DAGState).

Global Instance DAGState_inhabited : Inhabited DAGState := populate (mkDAG 0 ∅ 0).

Definition M (A : Type) : Type := store → store * result A.

Definition mret {A : Type} (x : A) : M A := λ h, (h, inr x).

Definition mbind {A B : Type} (m : M A) (k : A → M B) : M B :=
  λ h, match m h with
       | (h1, inl e) => (h1, inl e)
       | (h1, inr x) => k x h1
       end.

Notation "'exec' x <- m ; k" := (mbind m (fun x => k))
  (at level 10, x pattern, m at level 100, k at level 200).

(** A computation that does not touch the store. *)
Definition lift {A : Type} (r : result A) : M A := λ h, (h, r).

(** Reading an attribute or calling a read-only method of an object. *)
Definition query {A : Type} (s : obj) (f : DAGState → A) : M A :=
  λ h, (h, inr (f (h !!! s))).

(** Calling a mutating method of an object, or assigning an attribute. *)
Definition mutate (s : obj) (f : DAGState → DAGState) : M unit :=
  λ h, (<[s := f (h !!! s)]> h, inr tt).

(** [state.copy()]: a new object with the value of [state]. *)
Definition new_copy (s : obj) : M obj :=
  λ h, (h ++ [copy (h !!! s)], inr (length h)).

(** [keeps n m R]: run on a store with at least [n] objects, [m] leaves the
    first [n] objects as they are, and what it returns satisfies [R]. *)
Definition keeps {A : Type} (n : nat) (m : M A) (R : A → Prop) : Prop :=
  ∀ h, n ≤ length h →
    take n (m h).1 = take n h ∧ ∀ x, (m h).2 = inr x → R x.

(** ** The moves *)

(** [scores[v]] on the list of distributions. *)
Definition index {A : Type} (l : list A) (i : nat) : result A :=
  match l !! i with
  | Some x => ret x
  | None => raise IndexError
  end.

(** [frozenset(xs)]. *)
Definition frozenset (xs : list nat) : pset := list_to_set xs.

Module basic_move.
Section defs.
Context {F : Type} `{!Floating F}.

(** The matrix [add] of [moves] and [_n_adds]: [1 - identity] minus
    [adj + ancestor_matrix], with the columns of the nodes whose parent
    count reaches the fan-in set to zero. *)
Definition add_matrix (state : DAGState) (fan_in : nat) : matrix :=
  λ u v,
    if decide (Z.of_nat fan_in ≤ colsum state v)%Z then 0%Z
    else ((1 - identity u v) - (adj_matrix state u v + ancestor_matrix state u v))%Z.

(** [basic_move.moves(state)], on the current value of the state. *)
Definition moves (state : DAGState) : list (nat * nat) * list (nat * nat) :=
  let add_edges := nonzero (shape state) (add_matrix state (fan_in_ state)) in
  let delete_arcs := nonzero (shape state) (adj_matrix state) in
  (add_edges, delete_arcs).

Definition _n_adds (state : DAGState) (fan_in : nat) : nat :=
  length (nonzero (shape state) (add_matrix state fan_in)).

Definition _n_deletes (state : DAGState) : nat :=
  length (nonzero (shape state) (adj_matrix state)).

(** [q_move / q_inv] on Python integers. *)
Definition int_div (a b : nat) : result F :=
  if decide (b = 0) then raise ZeroDivisionError
  else ret (fdiv (of_nat a) (of_nat b)).

(** [basic_move.propose(state, arcs, scores, rng)]; [r0] and [r1] are the
    two draws of the generator. *)
Definition propose (state : obj)
    (arcs : list (nat * nat) * list (nat * nat))
    (scores : list (ParentSetDistribution F)) (r0 r1 : nat)
    : M (obj * F * F) :=
  exec new_state <- new_copy state;
  let can_add := length arcs.1 in
  let can_delete := length arcs.2 in
  let p := (λ c, fdiv (of_nat c) (of_nat (can_add + can_delete)))
             <$> [can_add; can_delete] in
  exec move <- lift (choice_p p r0);
  exec uv <-
    (if decide (move = 0) then
       exec k <- lift (choice can_add r1);
       exec uv <- lift (index arcs.1 k);
       exec _ <- mutate new_state (λ S, add_edge S uv.1 uv.2);
       mret uv
     else
       exec k <- lift (choice can_delete r1);
       exec uv <- lift (index arcs.2 k);
       exec _ <- mutate new_state (λ S, remove_edge S uv.1 uv.2);
       mret uv);
  let v := uv.2 in
  exec sv <- lift (index scores v);
  exec ps_old <- query state (λ S, frozenset (parents S v));
  exec z_old <- lift (getitem sv ps_old);
  exec ps_new <- query new_state (λ S, frozenset (parents S v));
  exec z_new <- lift (getitem sv ps_new);
  let z_ratio := fsub z_new z_old in
  let q_move := can_add + can_delete in
  exec fan_in <- query state fan_in_;
  exec q_inv <- query new_state (λ S, _n_adds S fan_in + _n_deletes S);
  exec q <- lift (int_div q_move q_inv);
  mret (new_state, fadd z_ratio (flog q), z_ratio).

End defs.
End basic_move.

Module rev_move.
Section defs.
Context {F : Type} `{!Floating F}.

(** [rev_move.moves(state)], on the current value of the state. *)
Definition moves (state : DAGState) : list (nat * nat) :=
  nonzero (shape state) (adj_matrix state).

(** [ps.isdisjoint(dsc)] and [i in ps]. *)
Definition isdisjoint (ps dsc : pset) : bool := bool_decide (ps ## dsc).
Definition member (i : nat) (ps : pset) : bool := bool_decide (i ∈ ps).

(** [list(product(ps, [i]))]. *)
Definition product (ps : pset) (i : nat) : list (nat * nat) :=
  (λ p, (p, i)) <$> elements ps.

(** [rev_move.propose(state, arcs, scores, rng)]; [r0], [r1] and [r2] are
    the three draws of the generator. *)
Definition propose (state : obj) (arcs : list (nat * nat))
    (scores : list (ParentSetDistribution F)) (r0 r1 r2 : nat)
    : M (obj * F * F) :=
  let n := length arcs in
  exec k <- lift (choice n r0);
  exec ij <- lift (index arcs k);
  let i := ij.1 in
  let j := ij.2 in
  exec dsc_i <- query state (λ S, frozenset (descendants S i));
  exec dsc_j <- query state (λ S, frozenset (descendants S j));
  exec si <- lift (index scores i);
  exec ps_old_i <- query state (λ S, frozenset (parents S i));
  exec old_i <- lift (getitem si ps_old_i);
  exec sj <- lift (index scores j);
  exec ps_old_j <- query state (λ S, frozenset (parents S j));
  exec old_j <- lift (getitem sj ps_old_j);
  let score_old := fadd old_i old_j in
  exec z_i <- lift (log_z si (λ ps, isdisjoint ps dsc_i));
  exec z_star_j <- lift (log_z sj (λ ps, member i ps && isdisjoint ps dsc_j));
  exec new_state <- new_copy state;
  exec _ <- mutate new_state (λ S, orphan S [i; j]);
  exec dsc_i <- query new_state (λ S, frozenset (descendants S i));
  exec si_draw <- lift (sample si (λ ps, member j ps && isdisjoint ps dsc_i) r1);
  let ps_i := si_draw.1 in
  let z_star_i := si_draw.2 in
  exec _ <- mutate new_state (λ S, add_edges S (product ps_i i));
  exec dsc_j <- query new_state (λ S, frozenset (descendants S j));
  exec sj_draw <- lift (sample sj (λ ps, isdisjoint ps dsc_j) r2);
  let ps_j := sj_draw.1 in
  let z_j := sj_draw.2 in
  exec _ <- mutate new_state (λ S, add_edges S (product ps_j j));
  exec ps_new_i <- query new_state (λ S, frozenset (parents S i));
  exec new_i <- lift (getitem si ps_new_i);
  exec ps_new_j <- query new_state (λ S, frozenset (parents S j));
  exec new_j <- lift (getitem sj ps_new_j);
  let score_new := fadd new_i new_j in
  let log_z_ratios := fsub (fsub (fadd z_star_i z_j) z_star_j) z_i in
  let score_diff := fsub score_new score_old in
  exec n_new <- query new_state (λ S, length (nonzero (shape S) (adj_matrix S)));
  exec q <- lift (basic_move.int_div n n_new);
  mret (new_state, fadd log_z_ratios (flog q), score_diff).

End defs.
End rev_move.

(** ** [class DAGProposal] *)

(** The two graph moves of the module that propose a state.  [__init__]
    accepts every subclass of [GraphMove]; the two others are not embedded,
    as [sample] stops at their [moves]: that of the base class raises
    [NotImplementedError], and that of [ReattachMove] returns [None], whose
    [len] is a [TypeError]. *)
Inductive GraphMove : Type := basic_move | rev_move.

(** What [m.moves(state)] returns: a pair of lists for [basic_move], a list
    for [rev_move]. *)
Inductive move_arcs : Type :=
  | BasicArcs (arcs : list (nat * nat) * list (nat * nat))
  | RevArcs (arcs : list (nat * nat)).

(** [len(moves)]: a pair has length two. *)
Definition len (a : move_arcs) : nat :=
  match a with
  | BasicArcs _ => 2
  | RevArcs arcs => length arcs
  end.

(** The neighbourhood of a move, as the specification defines it: the
    elementary transformations the move can apply to the state. *)
Definition neighborhood (a : move_arcs) : list (nat * nat) :=
  match a with
  | BasicArcs arcs => arcs.1 ++ arcs.2
  | RevArcs arcs => arcs
  end.

Module DAGProposal.
Section defs.
Context {F : Type} `{!Floating F}.

Record t : Type := mk {
  moves : list GraphMove;
  move_prob : list F;
  fan_in : nat;
  ps_scores_ : list (ParentSetDistribution F)
}.

Definition moves_of (m : GraphMove) (state : DAGState) : move_arcs :=
  match m with
  | basic_move => BasicArcs (basic_move.moves state)
  | rev_move => RevArcs (rev_move.moves state)
  end.

Definition propose_of (m : GraphMove) (state : obj) (a : move_arcs)
    (scores : list (ParentSetDistribution F)) (r0 r1 r2 : nat)
    : M (obj * F * F) :=
  match m, a with
  | basic_move, BasicArcs arcs => basic_move.propose state arcs scores r0 r1
  | rev_move, RevArcs arcs => rev_move.propose state arcs scores r0 r1 r2
  | _, _ => lift (raise TypeError)
  end.

(** [any(len(state.adj.parents(v)) > self.fan_in for v in nodes_iter())]. *)
Definition fan_in_violated (self : t) (state : DAGState) : bool :=
  existsb (λ v, bool_decide (fan_in self < length (parents state v)))
          (nodes_iter state).

(** [bool(len(moves))]. *)
Definition has_move (a : move_arcs) : bool := bool_decide (len a ≠ 0).

(** [move_prob = self.move_prob * has_move; move_prob /= move_prob.sum()]. *)
Definition renormalize (move_prob : list F) (has_move : list bool) : list F :=
  let move_prob :=
    zip_with (λ p (h : bool), fmul p (of_nat (if h then 1 else 0)))
             move_prob has_move in
  (λ p, fdiv p (fsum move_prob)) <$> move_prob.

(** [DAGProposal.sample(state)]; [r] is the draw that selects the move,
    [r0], [r1], [r2] those of [propose]. *)
Definition sample (self : t) (state : obj) (r r0 r1 r2 : nat)
    : M (obj * F * F) :=
  exec violated <- query state (fan_in_violated self);
  if (violated : bool) then lift (raise ValueError)
  else
    exec _ <- mutate state (λ S, set_fan_in S (fan_in self));
    exec move_arcs <- query state (λ S, (λ m, moves_of m S) <$> moves self);
    let has_move := has_move <$> move_arcs in
    let move_prob := renormalize (move_prob self) has_move in
    exec m <- lift (choice_p move_prob r);
    exec mv <- lift (index (moves self) m);
    exec arcs <- lift (index move_arcs m);
    exec res <- propose_of mv state arcs (ps_scores_ self) r0 r1 r2;
    let new_state := res.1.1 in
    exec _ <- mutate new_state (λ S, set_fan_in S (fan_in self));
    mret (new_state, res.1.2, res.2).

End defs.
End DAGProposal.

(** ** A computable arithmetic for the examples

    Rational numbers, with [2 ^ ⌊x⌋] for the exponential and the binary
    logarithm of [⌊x⌋] for the logarithm: enough to run the definitions on
    concrete inputs. *)
Program Instance rat_arith : Floating Q := {|
  fadd := Qplus;
  fsub := Qminus;
  fmul := Qmult;
  fdiv := Qdiv;
  fexp := λ x, Qpower 2 (Qfloor x);
  flog := λ x, inject_Z (Z.log2 (Qfloor x));
  fmax := λ x y, if Qle_bool x y then y else x;
  fsum := foldr Qplus 0%Q;
  of_nat := λ n, inject_Z (Z.of_nat n);
  fpos := λ x, bool_decide (0 < Qnum x)%Z
|}.
Next Obligation.
  intros p t. destruct p as [pn pd], t as [tn td]. simpl.
  rewrite Z.mul_0_r. simpl. done.
Qed.

(** The order of the rational numbers, none of which is a NaN. *)
Program Instance rat_order : FloatOrder Q :=
  {| fle := Qle_bool; fisnan := λ _, false |}.
Next Obligation. intros x _. apply Qle_bool_iff, Qle_refl. Qed.
Next Obligation.
  intros x y z Hxy%Qle_bool_iff Hyz%Qle_bool_iff.
  apply Qle_bool_iff. by eapply Qle_trans.
Qed.
Next Obligation. intros x y. simpl. destruct (Qle_bool x y); auto. Qed.
Next Obligation.
  intros x y _ _. simpl. destruct (Qle_bool x y) eqn:Hxy; [done|].
  apply Qle_bool_iff, Qle_refl.
Qed.
Next Obligation.
  intros x y _ _. simpl. destruct (Qle_bool x y) eqn:Hxy.
  - apply Qle_bool_iff, Qle_refl.
  - apply Qle_bool_iff. destruct (Qlt_le_dec y x) as [Hlt|Hle].
    + by apply Qlt_le_weak.
    + apply Qle_bool_iff in Hle. congruence.
Qed.

(** The keys of every table are sets of nodes of the graph that leave out
    the variable of the table: what the enumeration guarantees. *)
Definition keys_in_range {F : Type} (n : nat)
    (scores : list (ParentSetDistribution F)) : Prop :=
  ∀ v d ps, scores !! v = Some d → ps ∈ (table d).*1 →
    (v ∉ ps) ∧ ∀ x, x ∈ ps → x < n.

(** ** Example inputs *)

(** A distribution for variable 0 with the candidates [{}], [{1}], [{2}]. *)
Definition psd_example : ParentSetDistribution Q :=
  mkPSD 0 [(∅, 1%Q); ({[1]}, 2%Q); ({[2]}, 4%Q)].

(** The chain [0 → 1 → 2] with fan-in 2, and the tables of three variables
    scored by [v + |parents|]. *)
Definition dag_example : DAGState := mkDAG 3 {[ (0, 1); (1, 2) ]} 2.

Definition score_example (vs : nat * list nat) : Q :=
  inject_Z (Z.of_nat (vs.1 + length vs.2)).

Definition scores_example : list (ParentSetDistribution Q) :=
  match get_parent_set_distributions 3 2 score_example None with
  | inr dists => dists
  | inl _ => []
  end.

(** A single node without edges, stamped with fan-in 5, and two proposals
    of fan-in 2. *)
Definition single_node : DAGState := mkDAG 1 ∅ 5.

Definition basic_only : DAGProposal.t (F:=Q) :=
  DAGProposal.mk [basic_move] [1%Q] 2 scores_example.

Definition proposal_example : DAGProposal.t (F:=Q) :=
  DAGProposal.mk [basic_move; rev_move] [1%Q; 1%Q] 2 scores_example.

(** ** Further parts of the module *)

Section views.
Context {F : Type} `{!Floating F}.

(** The properties [parent_sets] and [log_proba] of
    [ParentSetDistribution]: the keys and the values of the table, in the
    order of the table. *)
Definition parent_sets (d : ParentSetDistribution F) : list pset := (table d).*1.
Definition log_proba (d : ParentSetDistribution F) : list F := (table d).*2.

End views.

(** *** [sample] and [log_z] without a condition *)

(** [zip] of the unpacked sequences: the tuples of their first, second, ...
    items, as many as the shortest sequence has, and none when there is no
    sequence. *)
Definition zip_star (ls : list (list nat)) : list (list nat) :=
  match ls with
  | [] => []
  | l :: ls' =>
      (λ i, (λ l', l' !!! i) <$> ls)
        <$> seq 0 (foldr Nat.min (length l) (length <$> ls'))
  end.

Section unconditioned.
Context {F : Type} `{!Floating F}.

(** [ParentSetDistribution.sample()], the branch [condition is None].
    [table] is then the dict itself, so [zip] runs over its keys, the
    frozensets, and yields tuples of their members: [p_sets] the first
    member of every key and [prob] the second.  The unpacking raises
    [ValueError] unless [zip] yields exactly two tuples.  With a single key
    the two members are returned as they are.  With more keys [prob - c]
    subtracts an integer from a tuple: [TypeError] for Python integers; for
    NumPy integers ([numpy_keys]) the subtraction goes through and a member
    of [p_sets] is drawn.  [iter] is the order in which a frozenset yields
    its members and [r] the draw of the generator. *)
Definition sample_unconditioned (iter : pset → list nat) (numpy_keys : bool)
    (d : ParentSetDistribution F) (r : nat) : result (nat * (nat + F)) :=
  match zip_star ((λ kv, iter kv.1) <$> table d) with
  | [p_sets; prob] =>
      if decide (length p_sets = 1) then ret (p_sets !!! 0, inl (prob !!! 0))
      else if numpy_keys then
        let c := max_list prob in
        let prob := (λ x, fexp (fsub (of_nat x) (of_nat c))) <$> prob in
        let z := fsum prob in
        do i <- choice_p ((λ x, fdiv x z) <$> prob) r;
        ret (p_sets !!! i, inr (fadd (flog z) (of_nat c)))
      else raise TypeError
  | _ => raise ValueError
  end.

(** [ParentSetDistribution.log_z()], the branch [condition is None].
    [np.asarray] of the view [self.table.values()] is an array of no
    dimension that holds the view as one object, and [len] of such an array
    raises [TypeError], whatever the table holds. *)
Definition log_z_unconditioned (d : ParentSetDistribution F) : result F :=
  raise TypeError.

End unconditioned.

(** The number of subsets of size [k] of a set of size [n], to count the
    entries of a table. *)
Fixpoint binomial (n k : nat) : nat :=
  match k, n with
  | 0, _ => 1
  | S _, 0 => 0
  | S k', S n' => binomial n' k' + binomial n' k
  end.

(** ** Construction of a proposal *)

Section construction.
Context {F : Type} `{!Floating F}.

(** The attributes [DAGProposal.__init__] sets that the module reads
    later: the moves, their probabilities and the fan-in (the score class is
    handed to [initialize] below, the prior is not used).  The tables
    [ps_scores_] are set by [initialize]; until then the object has no such
    attribute. *)
Record DAGProposal_config : Type := mk_config {
  cfg_moves : list GraphMove;
  cfg_move_prob : list F;
  cfg_fan_in : nat
}.

(** [DAGProposal.__init__(moves, move_prob, score, fan_in)].  Every move
    of the embedding is a subclass of [GraphMove], so the first test
    passes; the second wants one probability for each move. *)
Definition DAGProposal_init (moves : list GraphMove) (move_prob : list F)
    (fan_in : nat) : result DAGProposal_config :=
  if decide (length move_prob ≠ length moves) then raise ValueError
  else ret (mk_config moves move_prob fan_in).

(** [DAGProposal.initialize(data)]: [variables] is [data.shape[1]] and
    [score] the function [self.score(data)]; the tables are enumerated
    without a feasibility predicate.  The attributes [score_fn_] and
    [n_variables_], which only [random_state] reads, are left out. *)
Definition initialize (self : DAGProposal_config) (variables : nat)
    (score : nat * list nat → F) : result DAGProposal.t :=
  do ps_scores <- get_parent_set_distributions variables (cfg_fan_in self) score None;
  ret (DAGProposal.mk (cfg_moves self) (cfg_move_prob self) (cfg_fan_in self)
         ps_scores).

End construction.

Arguments DAGProposal_config F : clear implicits.

(** ** Further example inputs *)

(** Three nodes without edges, the attributes [proposal_example] is built
    from, and a proposal that only reverses edges. *)
Definition no_edges : DAGState := mkDAG 3 ∅ 0.

Definition config_example : DAGProposal_config Q :=
  mk_config [basic_move; rev_move] [1%Q; 1%Q] 2.

Definition rev_only : DAGProposal.t (F:=Q) :=
  DAGProposal.mk [rev_move] [1%Q] 2 scores_example.

(** * Properties *)

(** ** Fallible computations *)

Lemma bind_inr {A B : Type} (m : result A) (k : A → result B) (y : B) :
  bind m k = inr y ↔ ∃ x, m = inr x ∧ k x = inr y.
Proof.
  destruct m as [e|x]; simpl; split.
  - discriminate.
  - intros (x & Hx & _); discriminate.
  - eauto.
  - by intros (x' & [= ->] & Hk).
Qed.

Lemma index_inr {A : Type} (l : list A) (i : nat) (x : A) :
  index l i = inr x ↔ l !! i = Some x.
Proof. unfold index. destruct (l !! i); split; intros [=]; by subst. Qed.

(** ** Parent-set distributions *)

Section distribution_facts.
Context {F : Type} `{!Floating F}.
Implicit Types (d : ParentSetDistribution F) (condition : pset → bool).

Lemma od_get_elem (t : odict F) k v : od_get t k = inr v → (k, v) ∈ t.
Proof.
  induction t as [|[k' v'] t IH]; simpl; [discriminate|].
  case_decide as Hk.
  - intros [= ->]. subst. left.
  - intros. right. auto.
Qed.

Lemma od_get_is_inr (t : odict F) k : k ∈ t.*1 → ∃ v, od_get t k = inr v.
Proof.
  induction t as [|[k' v'] t IH]; simpl.
  - by intros ?%elem_of_nil.
  - intros [->|Hin]%elem_of_cons; case_decide; eauto; simpl in *; done.
Qed.

Lemma choice_p_lt (w : list F) r i : choice_p w r = inr i → i < length w.
Proof.
  unfold choice_p.
  destruct (support w) as [|j s] eqn:Hs; [discriminate|].
  intros [= <-].
  assert (Hin : nth (r mod length (j :: s)) (j :: s) j ∈ support w).
  { rewrite Hs. apply list_elem_of_In, nth_In, Nat.mod_upper_bound. done. }
  unfold support in Hin. apply list_elem_of_filter in Hin as [_ Hin].
  apply elem_of_seq in Hin as [_ Hin]. exact Hin.
Qed.

Lemma conditioned_elem d condition k v :
  (k, v) ∈ conditioned d condition ↔ (k, v) ∈ table d ∧ condition k = true.
Proof. unfold conditioned. rewrite list_elem_of_filter. simpl. tauto. Qed.

Lemma sample_elem d condition r ps z :
  sample d condition r = inr (ps, z) → ps ∈ (conditioned d condition).*1.
Proof.
  unfold sample.
  destruct (conditioned d condition) as [|[k v] [|kv tbl]]; [discriminate| |].
  - intros [= <- <-]. simpl. left.
  - lazy beta iota. generalize (kv :: tbl). intros l.
    intros (i & Hi & Hr)%bind_inr. injection Hr as <- <-.
    apply choice_p_lt in Hi. rewrite length_fmap in Hi.
    change (((k, v) :: l).*1) with (k :: l.*1).
    rewrite length_fmap in Hi.
    assert (Hn : i < length (k :: l.*1)).
    { simpl in *. rewrite length_fmap in Hi. rewrite length_fmap. done. }
    apply (nth_In _ k) in Hn. by apply list_elem_of_In.
Qed.

End distribution_facts.

Section distribution_claims.
Context {F : Type} `{!Floating F}.
Implicit Types (d : ParentSetDistribution F) (condition : pset → bool).

Lemma log_z_conditioned d condition k v kvs :
  conditioned d condition = (k, v) :: kvs →
  log_z d condition =
    match kvs with [] => inr v | _ => inr (stable_log_sum_exp v kvs.*2) end.
Proof.
  intros H. unfold log_z. rewrite H.
  change (((k, v) :: kvs).*2) with (v :: kvs.*2).
  by destruct kvs as [|[k' v'] kvs].
Qed.

Lemma sample_log_z d condition r ps z :
  sample d condition r = inr (ps, z) → log_z d condition = inr z.
Proof.
  unfold sample.
  destruct (conditioned d condition) as [|[k v] kvs] eqn:H; [discriminate|].
  rewrite (log_z_conditioned _ _ _ _ _ H).
  destruct kvs as [|kv kvs].
  - by intros [= <- <-].
  - intros (i & _ & Hr)%bind_inr. by injection Hr as <- <-.
Qed.

(** The maximum is one of the scores, and none is above it when none is a
    NaN. *)
Lemma fmax_not_nan `{!FloatOrder F} (x y : F) :
  fisnan x = false → fisnan y = false → fisnan (fmax x y) = false.
Proof. intros Hx Hy. by destruct (fmax_either x y) as [-> | ->]. Qed.

Lemma maximum_fle `{!FloatOrder F} (v : F) (vs : list F) :
  fisnan v = false → (∀ x, x ∈ vs → fisnan x = false) →
  fle v (maximum v vs) = true.
Proof.
  unfold maximum. revert v. induction vs as [|y vs IH]; intros v Hv Hvs; simpl.
  - by apply fle_refl.
  - assert (Hy : fisnan y = false) by (apply Hvs; left).
    eapply fle_trans; [by apply (fmax_fle_l v y)|].
    apply IH; [by apply fmax_not_nan|]. intros x Hx. apply Hvs. by right.
Qed.

Lemma maximum_upper_bound `{!FloatOrder F} (v : F) (vs : list F) (x : F) :
  (∀ y, y ∈ v :: vs → fisnan y = false) →
  x ∈ v :: vs → fle x (maximum v vs) = true.
Proof.
  revert v. induction vs as [|y vs IH]; intros v Hnan Hx.
  - apply list_elem_of_singleton in Hx as ->. apply maximum_fle.
    + apply Hnan. left.
    + by intros y ?%elem_of_nil.
  - assert (Hv : fisnan v = false) by (apply Hnan; left).
    assert (Hy : fisnan y = false) by (apply Hnan; right; left).
    assert (Hvs : ∀ z, z ∈ vs → fisnan z = false).
    { intros z Hz. apply Hnan. right. by right. }
    assert (Hm : fle (fmax v y) (maximum v (y :: vs)) = true).
    { apply (maximum_fle (fmax v y) vs); [by apply fmax_not_nan|done]. }
    apply elem_of_cons in Hx as [->|[->|Hx]%elem_of_cons].
    + eapply fle_trans; [by apply (fmax_fle_l v y)|done].
    + eapply fle_trans; [by apply (fmax_fle_r v y)|done].
    + apply (IH (fmax v y)); [|by right].
      intros z [->|Hz]%elem_of_cons; [by apply fmax_not_nan|by apply Hvs].
Qed.

Lemma maximum_elem `{!FloatOrder F} (v : F) (vs : list F) :
  maximum v vs ∈ v :: vs.
Proof.
  unfold maximum. revert v. induction vs as [|y vs IH]; intros v; simpl.
  - left.
  - specialize (IH (fmax v y)). apply elem_of_cons in IH as [Heq|Hin].
    + rewrite Heq. destruct (fmax_either v y) as [-> | ->]; [left|right; left].
    + right. by right.
Qed.

(** The tuples [zip] yields over the keys are as many as the smallest key
    has members. *)
Lemma length_zip_star_le (ls : list (list nat)) (l : list nat) :
  l ∈ ls → length (zip_star ls) ≤ length l.
Proof.
  destruct ls as [|l0 ls]; [by intros ?%elem_of_nil|].
  unfold zip_star. rewrite length_fmap, length_seq.
  intros [->|Hl]%elem_of_cons.
  - generalize (length <$> ls). intros ns.
    induction ns as [|n ns IH]; simpl; lia.
  - apply (list_elem_of_fmap_2 length) in Hl. revert Hl.
    generalize (length <$> ls) (length l) (length l0). intros ns n m Hn.
    induction ns as [|n' ns IH]; [by apply elem_of_nil in Hn|].
    simpl. apply elem_of_cons in Hn as [->|Hn]; [lia|].
    specialize (IH Hn). lia.
Qed.

Lemma sample_unconditioned_raises (iter : pset → list nat) (numpy_keys : bool)
    d (r : nat) :
  (∀ k, length (iter k) = size k) →
  table d = [] ∨ (∃ k, k ∈ (table d).*1 ∧ size k < 2) →
  sample_unconditioned iter numpy_keys d r = inl ValueError.
Proof.
  intros Hiter Hsmall. unfold sample_unconditioned.
  assert (length (zip_star ((λ kv, iter kv.1) <$> table d)) < 2) as Hrows.
  { destruct Hsmall as [->|(k & Hk & Hsz)]; [simpl; lia|].
    apply list_elem_of_fmap in Hk as ([k' v] & -> & Hkv).
    eapply Nat.le_lt_trans; [apply (length_zip_star_le _ (iter k'))|].
    - apply list_elem_of_fmap. by exists (k', v).
    - by rewrite Hiter. }
  destruct (zip_star _) as [|p_sets [|prob [|row rows]]]; simpl in Hrows;
    [done|done|lia|lia].
Qed.

(** C6.  The claim holds for the calls that pass a condition and fails for
    the calls that pass none, which the code means to serve (the default of
    both methods) and does not.

    Without a condition, [log_z] raises [TypeError] on every distribution,
    and [sample] raises [ValueError] on every distribution that is empty or
    has a key of fewer than two members (such as the empty parent set of
    the enumerated tables), whatever order the keys are read in.

    With a condition, let the items of the table whose key satisfies it be
    [(k, v) :: kvs].  With exactly one, [log_z] returns its raw score
    [table[k]] itself and [sample] returns [(k, table[k])] for every draw.
    With two or more, [log_z] returns [log (sum (exp (x - c))) + c] over
    their scores [x], where [c] is one of these scores, and none of them is
    above it when none is a NaN; and whatever key [sample] draws among them
    it reports that same value. *)
Theorem log_partition_fails_without_condition `{!FloatOrder F} d :
  log_z_unconditioned d = inl TypeError ∧
  (∀ iter numpy_keys r,
     (∀ k, length (iter k) = size k) →
     table d = [] ∨ (∃ k, k ∈ (table d).*1 ∧ size k < 2) →
     sample_unconditioned iter numpy_keys d r = inl ValueError) ∧
  (∀ condition k v kvs,
     conditioned d condition = (k, v) :: kvs →
     (kvs = [] →
        getitem d k = inr v ∧
        log_z d condition = inr v ∧
        ∀ r, sample d condition r = inr (k, v)) ∧
     (kvs ≠ [] →
        ∃ c, c ∈ v :: kvs.*2 ∧
             ((∀ x, x ∈ v :: kvs.*2 → fisnan x = false) →
              ∀ x, x ∈ v :: kvs.*2 → fle x c = true) ∧
             log_z d condition
             = inr (fadd (flog (fsum ((λ x, fexp (fsub x c)) <$> v :: kvs.*2))) c) ∧
             ∀ r ps z, sample d condition r = inr (ps, z) →
               z = fadd (flog (fsum ((λ x, fexp (fsub x c)) <$> v :: kvs.*2))) c ∧
               ps ∈ k :: kvs.*1)).
Proof.
  split; [done|]. split; [intros; by apply sample_unconditioned_raises|].
  intros condition k v kvs Hsel.
  pose proof (log_z_conditioned _ _ _ _ _ Hsel) as Hz.
  split.
  - intros ->. split; [|split; [done|]].
    + assert (Hin : (k, v) ∈ conditioned d condition) by (rewrite Hsel; left).
      apply conditioned_elem in Hin as [Hin Hc].
      destruct (od_get_is_inr (table d) k) as [v' Hv'].
      { apply list_elem_of_fmap. by exists (k, v). }
      assert (Hin' : (k, v') ∈ conditioned d condition).
      { apply conditioned_elem. split; [by apply od_get_elem|done]. }
      rewrite Hsel in Hin'. apply list_elem_of_singleton in Hin'.
      unfold getitem. congruence.
    + intros r. unfold sample. by rewrite Hsel.
  - intros Hne. destruct kvs as [|kv kvs]; [done|].
    exists (maximum v (kv :: kvs).*2).
    split; [apply maximum_elem|].
    split; [intros Hnan x; by apply maximum_upper_bound|].
    split; [exact Hz|].
    intros r ps z Hs. split.
    + apply sample_log_z in Hs. unfold stable_log_sum_exp in Hz. congruence.
    + apply sample_elem in Hs. by rewrite Hsel in Hs.
Qed.

(** C7.  When no key of the table satisfies the condition, [sample] and
    [log_z] both raise (a [ValueError], which plays the part of the
    specification's [EmptyDistributionError]). *)
Theorem empty_condition_raises d condition r
    (Hnone : ∀ k, k ∈ (table d).*1 → condition k = false) :
  sample d condition r = inl ValueError ∧ log_z d condition = inl ValueError.
Proof.
  assert (H : conditioned d condition = []).
  { destruct (conditioned d condition) as [|[k v] l] eqn:Hc; [done|].
    assert (Hin : (k, v) ∈ conditioned d condition) by (rewrite Hc; left).
    apply conditioned_elem in Hin as [Hin Hk].
    rewrite (Hnone k) in Hk; [done|]. apply list_elem_of_fmap. by exists (k, v). }
  unfold sample, log_z. by rewrite H.
Qed.

End distribution_claims.


(** C6 on [psd_example]: the calls without a condition raise (the table
    has the empty set among its keys); with the condition that the key
    contains 1 a single item is selected; with the condition that holds of
    every key the three scores are selected, and the score subtracted is one
    that none of them is above. *)
Lemma log_partition_fails_without_condition_witness :
  log_z_unconditioned psd_example = inl TypeError ∧
  sample_unconditioned elements false psd_example 0 = inl ValueError ∧
  conditioned psd_example (λ ps, bool_decide (1 ∈ ps)) = [({[1]}, 2%Q)] ∧
  log_z psd_example (λ ps, bool_decide (1 ∈ ps)) = inr 2%Q ∧
  ∃ c : Q,
    c ∈ [1%Q; 2%Q; 4%Q] ∧ (∀ x, x ∈ [1%Q; 2%Q; 4%Q] → fle x c = true) ∧
    log_z psd_example (λ _, true)
    = inr (fadd (flog (fsum ((λ x, fexp (fsub x c)) <$> [1%Q; 2%Q; 4%Q]))) c).
Proof.
  destruct (log_partition_fails_without_condition psd_example)
    as (Hlog & Hsample & Hcond).
  split; [exact Hlog|]. split.
  { apply Hsample; [done|]. right. exists ∅. split; [left|].
    rewrite size_empty. lia. }
  assert (Hsel : conditioned psd_example (λ ps, bool_decide (1 ∈ ps))
                 = [({[1]}, 2%Q)]) by reflexivity.
  split; [exact Hsel|]. split.
  { destruct (Hcond (λ ps, bool_decide (1 ∈ ps)) {[1]} 2%Q [] Hsel) as [Hone _].
    by destruct (Hone eq_refl) as (_ & Hz & _). }
  assert (Hall : conditioned psd_example (λ _, true)
                 = [(∅, 1%Q); ({[1]}, 2%Q); ({[2]}, 4%Q)]) by reflexivity.
  destruct (Hcond (λ _, true) ∅ 1%Q [({[1]}, 2%Q); ({[2]}, 4%Q)] Hall)
    as [_ Hmany].
  destruct (Hmany ltac:(discriminate)) as (c & Hc & Hub & Hz & _).
  exists c. split; [exact Hc|]. split; [|exact Hz].
  apply Hub. by intros x _.
Defined.

(** C7 on [psd_example]: no key contains 5. *)
Lemma empty_condition_raises_witness :
  (∀ k, k ∈ (table psd_example).*1 → bool_decide (5 ∈ k) = false) ∧
  sample psd_example (λ ps, bool_decide (5 ∈ ps)) 0 = inl ValueError ∧
  log_z psd_example (λ ps, bool_decide (5 ∈ ps)) = inl ValueError.
Proof.
  assert (H : ∀ k, k ∈ (table psd_example).*1 → bool_decide (5 ∈ k) = false).
  { intros k Hk. simpl in Hk.
    repeat (apply elem_of_cons in Hk as [->|Hk]; [reflexivity|]).
    by apply elem_of_nil in Hk. }
  split; [exact H|].
  exact (empty_condition_raises psd_example (λ ps, bool_decide (5 ∈ ps)) 0 H).
Defined.

(** ** Parent-set enumeration *)

Lemma elem_of_combinations (x l : list nat) (r : nat) :
  x ∈ combinations l r ↔ x `sublist_of` l ∧ length x = r.
Proof.
  revert x r. induction l as [|a l IH]; intros x r; destruct r as [|r]; simpl.
  - rewrite list_elem_of_singleton, sublist_nil_r.
    split; [by intros ->|by intros [-> _]].
  - rewrite elem_of_nil, sublist_nil_r. split; [done|by intros [-> ?]].
  - rewrite list_elem_of_singleton. split.
    + intros ->. split; [apply sublist_nil_l|done].
    + intros [_ Hx]. by destruct x.
  - rewrite elem_of_app, list_elem_of_fmap, sublist_cons_r. split.
    + intros [(y & -> & [Hy Hl]%IH)|[Hx Hl]%IH]; simpl.
      * split; [right; eauto|congruence].
      * split; [by left|done].
    + intros [[Hx|(y & -> & Hy)] Hl].
      * right. by apply IH.
      * left. exists y. split; [done|]. apply IH. simpl in Hl. split; [done|lia].
Qed.

Lemma elem_of_power_set (x l : list nat) (fan_in : nat) :
  x ∈ power_set l fan_in ↔ x `sublist_of` l ∧ length x ≤ fan_in.
Proof.
  unfold power_set. rewrite list_elem_of_bind. split.
  - intros (r & [Hx Hl]%elem_of_combinations & Hr%elem_of_seq). split; [done|lia].
  - intros [Hx Hl]. exists (length x). split.
    + by apply elem_of_combinations.
    + apply elem_of_seq. lia.
Qed.

Lemma NoDup_combinations (l : list nat) (r : nat) :
  NoDup l → NoDup (combinations l r).
Proof.
  intros Hl. revert r. induction Hl as [|a l Ha Hl IH]; intros [|r]; simpl.
  - apply NoDup_singleton.
  - apply NoDup_nil_2.
  - apply NoDup_singleton.
  - apply NoDup_app. split; [|split].
    + apply NoDup_fmap_2; [|apply IH]. by intros ?? [=].
    + intros x (y & -> & _)%list_elem_of_fmap [Hx _]%elem_of_combinations.
      apply Ha. eapply elem_of_sublist; [|done]. left.
    + apply IH.
Qed.

Lemma NoDup_power_set (l : list nat) (fan_in : nat) :
  NoDup l → NoDup (power_set l fan_in).
Proof.
  intros Hl. unfold power_set. apply NoDup_bind.
  - intros r1 r2 x _ _ [_ H1]%elem_of_combinations [_ H2]%elem_of_combinations.
    congruence.
  - intros r _. by apply NoDup_combinations.
  - apply NoDup_seq.
Qed.

Lemma filter_ext_elem {A : Type} (P1 P2 : A → Prop)
    `{!∀ x, Decision (P1 x), !∀ x, Decision (P2 x)} (l : list A) :
  (∀ x, x ∈ l → P1 x ↔ P2 x) → filter P1 l = filter P2 l.
Proof.
  induction l as [|a l IH]; intros HP; [done|].
  assert (Ha : P1 a ↔ P2 a) by (apply HP; left).
  assert (Hl : filter P1 l = filter P2 l).
  { apply IH. intros x Hx. apply HP. by right. }
  destruct (decide (P1 a)).
  - rewrite !filter_cons_True by tauto. by rewrite Hl.
  - rewrite !filter_cons_False by tauto. done.
Qed.

(** A sublist of a duplicate-free list is determined by its elements. *)
Lemma sublist_filter_elem (x l : list nat) :
  x `sublist_of` l → NoDup l → x = filter (λ a, a ∈ x) l.
Proof.
  induction 1 as [|a x l Hx IH|a x l Hx IH]; intros Hl.
  - done.
  - apply NoDup_cons in Hl as [Ha Hl].
    rewrite filter_cons_True by left. f_equal.
    rewrite (IH Hl) at 1. apply filter_ext_elem.
    intros b Hb. rewrite elem_of_cons. split; [tauto|].
    intros [->|?]; done.
  - apply NoDup_cons in Hl as [Ha Hl].
    rewrite filter_cons_False.
    + by apply IH.
    + intros Hin. apply Ha. by eapply elem_of_sublist.
Qed.

Lemma sublist_list_to_set_inj (x y l : list nat) :
  NoDup l → x `sublist_of` l → y `sublist_of` l →
  list_to_set x =@{pset} list_to_set y → x = y.
Proof.
  intros Hl Hx Hy Heq.
  rewrite (sublist_filter_elem x l Hx Hl), (sublist_filter_elem y l Hy Hl).
  apply filter_ext_elem. intros a _.
  by rewrite <-(elem_of_list_to_set (C:=pset) a x), Heq, elem_of_list_to_set.
Qed.

Section enumeration_facts.
Context {F : Type} `{!Floating F}.

Lemma od_set_fresh (k : pset) (v : F) (d : odict F) :
  k ∉ d.*1 → od_set k v d = d ++ [(k, v)].
Proof.
  induction d as [|[k' v'] d IH]; simpl; [done|].
  rewrite not_elem_of_cons. intros [Hk Hd].
  case_decide; [congruence|]. by rewrite IH.
Qed.

Lemma od_of_pairs_NoDup (kvs : list (pset * F)) :
  NoDup kvs.*1 → od_of_pairs kvs = kvs.
Proof.
  unfold od_of_pairs. change kvs with ([] ++ kvs) at 1 3.
  generalize (@nil (pset * F)) as d. induction kvs as [|[k v] kvs IH]; intros d.
  - by rewrite app_nil_r.
  - rewrite fmap_app, fmap_cons. intros Hd. simpl.
    rewrite od_set_fresh.
    + rewrite (IH (d ++ [(k, v)])).
      * by rewrite <-(assoc_L (++)).
      * by rewrite <-(assoc_L (++)), fmap_app.
    + apply NoDup_app in Hd as (_ & Hd & _). intros Hk. apply (Hd k Hk). left.
Qed.

Lemma od_get_NoDup (t : odict F) (k : pset) (v : F) :
  NoDup t.*1 → (k, v) ∈ t → od_get t k = inr v.
Proof.
  induction t as [|[k' v'] t IH]; simpl; [by intros _ ?%elem_of_nil|].
  rewrite NoDup_cons. intros [Hk Ht] [[= -> ->]|Hin]%elem_of_cons.
  - by rewrite decide_True.
  - rewrite decide_False; [by apply IH|].
    intros ->. apply Hk, list_elem_of_fmap. by exists (k, v).
Qed.

Lemma zip_fmap_diag {A B C : Type} (f : A → B) (g : A → C) (l : list A) :
  zip (f <$> l) (g <$> l) = (λ x, (f x, g x)) <$> l.
Proof. induction l; simpl; [done|]. by f_equal. Qed.

Lemma collect_inr {A B : Type} (f : A → result B) (g : A → B) (l : list A) :
  (∀ x, x ∈ l → f x = inr (g x)) → collect f l = inr (g <$> l).
Proof.
  induction l as [|x l IH]; intros Hf; simpl; [done|].
  rewrite (Hf x) by left. simpl. rewrite IH; [done|].
  intros y Hy. apply Hf. by right.
Qed.

Lemma collect_inl {A B : Type} (f : A → result B) (e : exn) (l : list A) (x : A) :
  (∀ y e', f y = inl e' → e' = e) → x ∈ l → f x = inl e → collect f l = inl e.
Proof.
  intros He. induction l as [|y l IH]; [by intros ?%elem_of_nil|].
  intros [->|Hin]%elem_of_cons Hx; simpl.
  - by rewrite Hx.
  - destruct (f y) as [e'|b] eqn:Hy; simpl.
    + by rewrite (He _ _ Hy).
    + by rewrite IH.
Qed.

Lemma parent_set_distribution_unfold (n fan_in : nat)
    (score_fn : nat * list nat → F) condition (v : nat) :
  parent_set_distribution (power_set (seq 0 n) fan_in) score_fn condition v =
  ParentSetDistribution_init v (var_psets n fan_in condition v)
    ((λ ps, score_fn (v, ps)) <$> var_psets n fan_in condition v).
Proof.
  unfold parent_set_distribution, var_psets.
  destruct condition as [c|]; simpl; [done|].
  by rewrite (list_filter_iff (λ s, (v ∉ s)) (λ s, (v ∉ s) ∧ (true = true)))
    by (intros; tauto).
Qed.

Lemma elem_of_var_psets (n fan_in : nat) condition (v : nat) (s : list nat) :
  s ∈ var_psets n fan_in condition v ↔
  s `sublist_of` seq 0 n ∧ length s ≤ fan_in ∧ (v ∉ s) ∧ feasible condition v s = true.
Proof.
  unfold var_psets. rewrite list_elem_of_filter, elem_of_power_set. tauto.
Qed.

Lemma sorted_tuple_list_to_set (n : nat) (s : list nat) :
  s `sublist_of` seq 0 n → sorted_tuple n (list_to_set s) = s.
Proof.
  intros Hs. unfold sorted_tuple.
  etrans; [|symmetry; apply (sublist_filter_elem s (seq 0 n) Hs (NoDup_seq 0 n))].
  apply filter_ext_elem. intros a _. apply elem_of_list_to_set.
Qed.

Lemma list_to_set_sorted_tuple (n : nat) (X : pset) :
  (∀ x, x ∈ X → x < n) → list_to_set (sorted_tuple n X) = X.
Proof.
  intros HX. apply set_eq. intros a.
  rewrite elem_of_list_to_set. unfold sorted_tuple.
  rewrite list_elem_of_filter, elem_of_seq. split; [tauto|].
  intros Ha. split; [done|]. specialize (HX a Ha). lia.
Qed.

Lemma var_psets_keys_NoDup (n fan_in : nat) condition (v : nat) :
  NoDup (list_to_set <$> var_psets n fan_in condition v : list pset).
Proof.
  apply NoDup_fmap_2_strong.
  - intros x y (Hx & _)%elem_of_var_psets (Hy & _)%elem_of_var_psets.
    by apply (sublist_list_to_set_inj x y (seq 0 n) (NoDup_seq 0 n)).
  - apply NoDup_filter, NoDup_power_set, NoDup_seq.
Qed.

Lemma var_psets_keys (n fan_in : nat) condition (v : nat) (X : pset) :
  X ∈ (list_to_set <$> var_psets n fan_in condition v : list pset) ↔
  is_candidate n fan_in condition v X.
Proof.
  rewrite list_elem_of_fmap. unfold is_candidate. split.
  - intros (s & -> & (Hs & Hl & Hv & Hf)%elem_of_var_psets).
    rewrite sorted_tuple_list_to_set by done.
    rewrite size_list_to_set by (apply (sublist_NoDup s (seq 0 n)); [apply NoDup_seq|exact Hs]).
    split; [|done].
    intros x Hx%elem_of_list_to_set. split.
    + eapply elem_of_sublist in Hx; [|done]. apply elem_of_seq in Hx. lia.
    + by intros ->.
  - intros (HX & Hsz & Hf). exists (sorted_tuple n X).
    assert (HX' : ∀ x, x ∈ X → x < n) by (intros x Hx; by apply HX).
    pose proof (list_to_set_sorted_tuple n X HX') as Heq.
    assert (Hsub : sorted_tuple n X `sublist_of` seq 0 n) by apply sublist_filter.
    split; [done|]. apply elem_of_var_psets. split; [done|]. split; [|split; [|done]].
    + rewrite <-Heq in Hsz.
      rewrite size_list_to_set in Hsz; [done|].
      apply (sublist_NoDup _ (seq 0 n)); [apply NoDup_seq|exact Hsub].
    + intros Hv. apply (elem_of_list_to_set (C:=pset)) in Hv.
      rewrite Heq in Hv. by destruct (HX v Hv).
Qed.

Lemma parent_set_distribution_inr (n fan_in : nat)
    (score_fn : nat * list nat → F) condition (v : nat) :
  var_psets n fan_in condition v ≠ [] →
  parent_set_distribution (power_set (seq 0 n) fan_in) score_fn condition v =
  inr (mkPSD v ((λ s, (list_to_set s, score_fn (v, s)))
                  <$> var_psets n fan_in condition v)).
Proof.
  intros Hne. rewrite parent_set_distribution_unfold.
  unfold ParentSetDistribution_init.
  destruct (var_psets n fan_in condition v) as [|s l] eqn:Hl; [done|].
  rewrite <-Hl. unfold ret. do 2 f_equal.
  rewrite zip_fmap_diag. apply od_of_pairs_NoDup.
  rewrite <-list_fmap_compose. apply var_psets_keys_NoDup.
Qed.

Lemma parent_set_distribution_inl (n fan_in : nat)
    (score_fn : nat * list nat → F) condition (v : nat) e :
  parent_set_distribution (power_set (seq 0 n) fan_in) score_fn condition v = inl e →
  e = IndexError ∧ var_psets n fan_in condition v = [].
Proof.
  rewrite parent_set_distribution_unfold. unfold ParentSetDistribution_init.
  destruct (var_psets n fan_in condition v); [|done]. by intros [= <-].
Qed.

End enumeration_facts.

Section enumeration_claims.
Context {F : Type} `{!Floating F}.

Lemma var_psets_nonempty (n fan_in : nat) condition (v : nat) (X : pset) :
  is_candidate n fan_in condition v X → var_psets n fan_in condition v ≠ [].
Proof.
  intros HX%var_psets_keys Hnil. rewrite Hnil in HX. by apply elem_of_nil in HX.
Qed.

Lemma empty_set_is_candidate (n fan_in v : nat) : is_candidate n fan_in None v ∅.
Proof.
  split; [|split].
  - by intros x ?%not_elem_of_empty.
  - rewrite size_empty. lia.
  - done.
Qed.

(** C8, as amended.  Provided every variable keeps at least one candidate
    (which is always so when no feasibility predicate is given), the
    enumeration returns one distribution per variable [v] of [0..n], in
    order; its keys are pairwise distinct and are exactly the sets of other
    variables of cardinality at most the fan-in that the predicate accepts,
    so that no key contains [v] and every key has at most [fan_in]
    elements; and the entry of a key is [score_fn] of [v] and that set. *)
Theorem enumeration_builds_candidate_tables (n fan_in : nat)
    (score_fn : nat * list nat → F) (condition : option (nat → list nat → bool))
    (Hfeasible : condition = None ∨
                 ∀ v, v < n → ∃ X, is_candidate n fan_in condition v X) :
  ∃ dists,
    get_parent_set_distributions n fan_in score_fn condition = inr dists ∧
    length dists = n ∧
    ∀ v, v < n → ∃ d,
      dists !! v = Some d ∧ var_name d = v ∧ NoDup (table d).*1 ∧
      ∀ X : pset,
        (X ∈ (table d).*1 ↔ is_candidate n fan_in condition v X) ∧
        (X ∈ (table d).*1 →
           (v ∉ X) ∧ size X ≤ fan_in ∧
           getitem d X = inr (score_fn (v, sorted_tuple n X))).
Proof.
  assert (Hne : ∀ v, v < n → var_psets n fan_in condition v ≠ []).
  { intros v Hv. destruct Hfeasible as [->|Hf].
    - eapply var_psets_nonempty, empty_set_is_candidate.
    - destruct (Hf v Hv) as [X HX]. by eapply var_psets_nonempty. }
  set (g := λ v, mkPSD v ((λ s, (list_to_set s, score_fn (v, s)))
                            <$> var_psets n fan_in condition v)).
  exists (g <$> seq 0 n). split; [|split].
  - unfold get_parent_set_distributions. apply collect_inr.
    intros v Hv%elem_of_seq. apply parent_set_distribution_inr, Hne. lia.
  - by rewrite length_fmap, length_seq.
  - intros v Hv. exists (g v).
    assert (Hkeys : (table (g v)).*1 =
                    (list_to_set <$> var_psets n fan_in condition v : list pset)).
    { unfold g. simpl. by rewrite <-list_fmap_compose. }
    split; [|split; [done|split]].
    + rewrite list_lookup_fmap, lookup_seq_lt by done. done.
    + rewrite Hkeys. apply var_psets_keys_NoDup.
    + intros X. rewrite Hkeys, var_psets_keys. split; [done|].
      intros HX. pose proof HX as (Hel & Hsz & _). split; [|split; [done|]].
      * intros Hin. by destruct (Hel v Hin).
      * apply od_get_NoDup; [rewrite Hkeys; apply var_psets_keys_NoDup|].
        apply var_psets_keys, list_elem_of_fmap in HX as (s & -> & Hs).
        pose proof Hs as (Hsub & _)%elem_of_var_psets.
        rewrite sorted_tuple_list_to_set by done.
        unfold g; simpl. apply list_elem_of_fmap. by exists s.
Qed.

(** C10.  The constructor raises on an empty list of parent sets, and so
    does the enumeration as soon as the feasibility condition rejects every
    candidate subset of some variable. *)
Theorem empty_parent_sets_raise (n fan_in : nat)
    (score_fn : nat * list nat → F) (condition : nat → list nat → bool) (v : nat)
    (Hv : v < n)
    (Hnone : ∀ s, s ∈ power_set (seq 0 n) fan_in → v ∉ s → condition v s = false) :
  (∀ var probabilities,
     ParentSetDistribution_init (F:=F) var [] probabilities = inl IndexError) ∧
  get_parent_set_distributions n fan_in score_fn (Some condition) = inl IndexError.
Proof.
  split; [done|].
  unfold get_parent_set_distributions.
  apply (collect_inl _ _ _ v).
  - by intros y e' (-> & _)%parent_set_distribution_inl.
  - apply elem_of_seq. lia.
  - rewrite parent_set_distribution_unfold.
    assert (Hnil : var_psets n fan_in (Some condition) v = []).
    { destruct (var_psets n fan_in (Some condition) v) as [|s l] eqn:Hl; [done|].
      assert (Hs : s ∈ var_psets n fan_in (Some condition) v) by (rewrite Hl; left).
      unfold var_psets in Hs. apply list_elem_of_filter in Hs as [[Hvs Hc] Hs].
      simpl in Hc. by rewrite (Hnone s Hs Hvs) in Hc. }
    by rewrite Hnil.
Qed.

End enumeration_claims.

(** C8 fails as it is stated: with one variable, fan-in 0 and a feasibility
    predicate that rejects everything, no list of distributions is built. *)
Lemma enumeration_fails_without_candidates :
  ¬ ∃ dists : list (ParentSetDistribution Q),
      get_parent_set_distributions 1 0 (λ _, 0%Q) (Some (λ _ _, false)) = inr dists.
Proof. intros [dists Hd]. vm_compute in Hd. discriminate. Qed.

Lemma enumeration_builds_candidate_tables_witness :
  ∃ dists : list (ParentSetDistribution Q),
    get_parent_set_distributions 3 2
      (λ vs, inject_Z (Z.of_nat (vs.1 + length vs.2)))
      (Some (λ v s, bool_decide (length s ≤ 1))) = inr dists ∧
    length dists = 3.
Proof.
  destruct (enumeration_builds_candidate_tables (F:=Q) 3 2
              (λ vs, inject_Z (Z.of_nat (vs.1 + length vs.2)))
              (Some (λ v s, bool_decide (length s ≤ 1)))) as (dists & H1 & H2 & _).
  - right. intros v Hv. exists ∅. split; [|split].
    + by intros x ?%not_elem_of_empty.
    + rewrite size_empty. lia.
    + reflexivity.
  - by exists dists.
Defined.

Lemma empty_parent_sets_raise_witness :
  get_parent_set_distributions 2 1 (λ _, 0%Q) (Some (λ v s, bool_decide (v = 0)))
  = inl IndexError.
Proof.
  refine (proj2 (empty_parent_sets_raise (F:=Q) 2 1 (λ _, 0%Q)
                   (λ v s, bool_decide (v = 0)) 1 _ _)).
  - lia.
  - intros s _ _. reflexivity.
Defined.

(** ** Reachability in a DAG state *)

Lemma tc_mono {A : Type} (R1 R2 : relation A) x y :
  (∀ a b, R1 a b → R2 a b) → tc R1 x y → tc R2 x y.
Proof. intros HR. induction 1; [apply tc_once|eapply tc_l]; eauto. Qed.

Lemma tc_first {A : Type} (R : relation A) x y : tc R x y → ∃ z, R x z.
Proof. destruct 1; eauto. Qed.

Lemma tc_last {A : Type} (R : relation A) x y : tc R x y → ∃ z, R z y.
Proof. induction 1; eauto. Qed.

Lemma path_via_mono (R : nat → nat → bool) (K K' : list nat) i j :
  (∀ k, k ∈ K → k ∈ K') → path_via R K i j → path_via R K' i j.
Proof.
  intros HK. induction 1 as [i j Hij|i k j Hk _ IH1 _ IH2].
  - by apply path_edge.
  - apply (path_join _ _ i k j); auto.
Qed.

Lemma path_via_split (R : nat → nat → bool) (K : list nat) k i j :
  path_via R (k :: K) i j →
  path_via R K i j ∨ (path_via R K i k ∧ path_via R K k j).
Proof.
  induction 1 as [i j Hij|i m j Hm _ IH1 _ IH2].
  - left. by apply path_edge.
  - apply elem_of_cons in Hm as [->|Hm].
    + right. split.
      * destruct IH1 as [?|[? _]]; done.
      * destruct IH2 as [?|[_ ?]]; done.
    + destruct IH1 as [H1|[H1 H1']], IH2 as [H2|[H2 H2']].
      * left. by apply (path_join _ _ i m j).
      * right. split; [by apply (path_join _ _ i m k)|done].
      * right. split; [done|by apply (path_join _ _ k m j)].
      * right. done.
Qed.

Lemma warshall_spec (R : nat → nat → bool) (ks : list nat) i j :
  warshall ks R i j = true ↔ path_via R ks i j.
Proof.
  revert i j. induction ks as [|k ks IH]; intros i j; simpl.
  - split; [by apply path_edge|].
    induction 1 as [|? ? ? Hk]; [done|by apply elem_of_nil in Hk].
  - unfold wstep. rewrite orb_true_iff, andb_true_iff, !IH. split.
    + intros [H|[H1 H2]].
      * eapply path_via_mono; [|done]. intros; by right.
      * apply (path_join _ _ i k j); [left| |];
          (eapply path_via_mono; [|done]; intros; by right).
    + apply path_via_split.
Qed.

Lemma path_via_tc (R : nat → nat → bool) (K : list nat) i j :
  path_via R K i j → tc (λ a b, R a b = true) i j.
Proof.
  induction 1; [by apply tc_once|by eapply tc_trans].
Qed.

Lemma tc_path_via (R : nat → nat → bool) (K : list nat) i j :
  (∀ a b, R a b = true → b ∈ K) →
  tc (λ a b, R a b = true) i j → path_via R K i j.
Proof.
  intros HK. induction 1 as [i j Hij|i k j Hik _ IH].
  - by apply path_edge.
  - apply (path_join _ _ i k j); [by eapply HK|by apply path_edge|done].
Qed.

Lemma edgeb_true (S : DAGState) u v : edgeb S u v = true ↔ edge S u v.
Proof. unfold edgeb, edge. by rewrite bool_decide_eq_true. Qed.

Lemma tc_edgeb (S : DAGState) u v :
  tc (λ a b, edgeb S a b = true) u v ↔ tc (edge S) u v.
Proof.
  split; apply tc_mono; intros a b; by rewrite edgeb_true.
Qed.

Lemma reach_sound (S : DAGState) u v : reach S u v = true → tc (edge S) u v.
Proof. intros H%warshall_spec%path_via_tc. by apply tc_edgeb. Qed.

Lemma reach_complete (S : DAGState) u v :
  in_range S → tc (edge S) u v → reach S u v = true.
Proof.
  intros HS H%tc_edgeb. apply warshall_spec, tc_path_via; [|done].
  intros a b Hab%edgeb_true. apply elem_of_seq. destruct (HS a b Hab). lia.
Qed.

Lemma reach_tc (S : DAGState) u v :
  in_range S → reach S u v = true ↔ tc (edge S) u v.
Proof. intros HS. split; [apply reach_sound|by apply reach_complete]. Qed.

Lemma is_dag_spec (S : DAGState) : is_dag S = true ↔ in_range S ∧ acyclic S.
Proof.
  unfold is_dag. rewrite andb_true_iff, !forallb_forall.
  assert (Hr : (∀ e, In e (elements (adj S)) →
                  bool_decide (e.1 < shape S) && bool_decide (e.2 < shape S) = true)
               ↔ in_range S).
  { split.
    - intros H u v Huv. specialize (H (u, v)).
      rewrite andb_true_iff, !bool_decide_eq_true in H. apply H.
      by apply list_elem_of_In, elem_of_elements.
    - intros H [u v] Huv%list_elem_of_In%elem_of_elements.
      rewrite andb_true_iff, !bool_decide_eq_true. by apply H. }
  rewrite Hr. split.
  - intros [HS Hc]. split; [done|]. intros x Hx.
    assert (Hlt : x < shape S).
    { destruct (tc_first _ _ _ Hx) as (y & Hxy). by destruct (HS x y Hxy). }
    specialize (Hc x). rewrite (reach_complete S x x HS Hx) in Hc.
    assert (Hin : In x (nodes_iter S)).
    { apply list_elem_of_In, elem_of_seq. lia. }
    by specialize (Hc Hin).
  - intros [HS Hc]. split; [done|]. intros x _.
    destruct (reach S x x) eqn:Hx; [|done]. by apply reach_sound, Hc in Hx.
Qed.

(** ** The add/delete move *)

Lemma elem_of_indices (n u v : nat) : (u, v) ∈ indices n ↔ u < n ∧ v < n.
Proof.
  unfold indices. rewrite list_elem_of_bind. split.
  - intros (a & (b & Hab & Hb%elem_of_seq)%list_elem_of_bind & Ha%elem_of_seq).
    apply list_elem_of_singleton in Hab as [= -> ->]. lia.
  - intros [Hu Hv]. exists u. split; [|apply elem_of_seq; lia].
    apply list_elem_of_bind. exists v. split; [left|apply elem_of_seq; lia].
Qed.

Lemma NoDup_indices (n : nat) : NoDup (indices n).
Proof.
  unfold indices. apply NoDup_bind; [| |apply NoDup_seq].
  - intros a1 a2 [u v] _ _ (b1 & H1 & _)%list_elem_of_bind (b2 & H2 & _)%list_elem_of_bind.
    apply list_elem_of_singleton in H1, H2. congruence.
  - intros a _. apply NoDup_bind; [| |apply NoDup_seq].
    + intros b1 b2 [u v] _ _ H1%list_elem_of_singleton H2%list_elem_of_singleton.
      congruence.
    + intros b _. apply NoDup_singleton.
Qed.

Lemma elem_of_nonzero (n : nat) (M : matrix) (u v : nat) :
  (u, v) ∈ nonzero n M ↔ u < n ∧ v < n ∧ M u v ≠ 0%Z.
Proof.
  unfold nonzero. rewrite list_elem_of_filter, elem_of_indices. simpl. tauto.
Qed.

Lemma NoDup_nonzero (n : nat) (M : matrix) : NoDup (nonzero n M).
Proof. apply NoDup_filter, NoDup_indices. Qed.

Lemma colsum_parents (S : DAGState) (v : nat) :
  colsum S v = Z.of_nat (length (parents S v)).
Proof.
  unfold colsum, parents, adj_matrix. induction (nodes_iter S) as [|u l IH]; [done|].
  rewrite fmap_cons. simpl foldr. rewrite IH.
  destruct (edgeb S u v) eqn:Huv.
  - rewrite filter_cons_True by done. simpl length. lia.
  - rewrite filter_cons_False by congruence. lia.
Qed.

Lemma elem_of_parents (S : DAGState) (u v : nat) :
  in_range S → u ∈ parents S v ↔ edge S u v.
Proof.
  intros HS. unfold parents. rewrite list_elem_of_filter, edgeb_true.
  unfold nodes_iter. rewrite elem_of_seq. split; [tauto|].
  intros Huv. split; [done|]. destruct (HS u v Huv). lia.
Qed.

Lemma elem_of_descendants (S : DAGState) (i x : nat) :
  in_range S → x ∈ descendants S i ↔ tc (edge S) i x.
Proof.
  intros HS. unfold descendants. rewrite list_elem_of_filter, (reach_tc S i x HS).
  unfold nodes_iter. rewrite elem_of_seq. split; [tauto|].
  intros Hx. split; [done|].
  destruct (tc_last _ _ _ Hx) as (z & Hz). destruct (HS z x Hz). lia.
Qed.

Lemma adj_matrix_nonzero (S : DAGState) (u v : nat) :
  adj_matrix S u v ≠ 0%Z ↔ edge S u v.
Proof.
  unfold adj_matrix. rewrite <-edgeb_true. by destruct (edgeb S u v).
Qed.

Lemma elem_of_delete_arcs (S : DAGState) (u v : nat) :
  in_range S → (u, v) ∈ nonzero (shape S) (adj_matrix S) ↔ edge S u v.
Proof.
  intros HS. rewrite elem_of_nonzero, adj_matrix_nonzero. split; [tauto|].
  intros Huv. destruct (HS u v Huv). tauto.
Qed.

Section basic_move_facts.
Context {F : Type} `{!Floating F}.

Lemma add_matrix_nonzero (S : DAGState) (fan_in u v : nat) :
  in_range S → acyclic S →
  basic_move.add_matrix S fan_in u v ≠ 0%Z ↔
  u ≠ v ∧ ¬ edge S u v ∧ ¬ tc (edge S) v u ∧ length (parents S v) < fan_in.
Proof.
  intros HS Hcyc. unfold basic_move.add_matrix.
  rewrite colsum_parents, <-(reach_tc S v u HS), <-edgeb_true.
  unfold identity, adj_matrix, ancestor_matrix.
  assert (Hself : u = v → edgeb S u v = false).
  { intros ->. destruct (edgeb S v v) eqn:E; [|done].
    apply edgeb_true in E. destruct (Hcyc v). by apply tc_once. }
  assert (Hloop : u = v → reach S v u = false).
  { intros ->. destruct (reach S v v) eqn:E; [|done].
    apply reach_sound in E. by destruct (Hcyc v). }
  assert (Hback : edgeb S u v = true → reach S v u = false).
  { intros E%edgeb_true. destruct (reach S v u) eqn:E'; [|done].
    apply reach_sound in E'. destruct (Hcyc u). by eapply tc_l. }
  case_decide as Hf.
  - split; [done|]. intros (_ & _ & _ & Hlt). lia.
  - destruct (decide (u = v)) as [Huv|Huv].
    + rewrite (Hself Huv), (Hloop Huv). split; [done|tauto].
    + destruct (edgeb S u v) eqn:E.
      * rewrite (Hback eq_refl). split; [done|]. intros (_ & Hn & _). by destruct Hn.
      * destruct (reach S v u) eqn:E'.
        -- split; [done|]. intros (_ & _ & Hn & _). by destruct Hn.
        -- split; [|done]. intros _. split; [done|]. split; [done|].
           split; [done|lia].
Qed.

(** C3.  In a DAG state, [moves] returns as addable exactly the ordered
    pairs [(u, v)] of distinct nodes such that [u → v] is not an edge, [v]
    is not an ancestor of [u] and [v] has fewer than [fan_in_] parents, and
    as deletable exactly the edges of the state; no pair is listed twice. *)
Theorem moves_addable_deletable (S : DAGState) (Hdag : is_dag S = true) :
  (∀ u v, (u, v) ∈ (basic_move.moves S).1 ↔
     u < shape S ∧ v < shape S ∧ u ≠ v ∧ ¬ edge S u v ∧
     ¬ tc (edge S) v u ∧ length (parents S v) < fan_in_ S) ∧
  (∀ u v, (u, v) ∈ (basic_move.moves S).2 ↔ edge S u v) ∧
  NoDup (basic_move.moves S).1 ∧ NoDup (basic_move.moves S).2.
Proof.
  apply is_dag_spec in Hdag as [HS Hcyc]. unfold basic_move.moves; simpl.
  split; [|split; [|split]].
  - intros u v. rewrite elem_of_nonzero, (add_matrix_nonzero S _ u v HS Hcyc). tauto.
  - intros u v. by apply elem_of_delete_arcs.
  - apply NoDup_nonzero.
  - apply NoDup_nonzero.
Qed.

End basic_move_facts.

(** ** Computations on the store *)

Lemma mbind_inr {A B : Type} (m : M A) (k : A → M B) (h h' : store) (y : B) :
  mbind m k h = (h', inr y) → ∃ x h1, m h = (h1, inr x) ∧ k x h1 = (h', inr y).
Proof. unfold mbind. destruct (m h) as [h1 [e|x]]; [done|eauto]. Qed.

Lemma lift_inr {A : Type} (r : result A) (h h' : store) (x : A) :
  lift r h = (h', inr x) → r = inr x ∧ h' = h.
Proof. by intros [= <- <-]. Qed.

Lemma mret_inr {A : Type} (x y : A) (h h' : store) :
  mret x h = (h', inr y) → y = x ∧ h' = h.
Proof. by intros [= <- <-]. Qed.

Lemma query_inr {A : Type} (s : obj) (f : DAGState → A) (h h' : store) (x : A) :
  query s f h = (h', inr x) → x = f (h !!! s) ∧ h' = h.
Proof. by intros [= <- <-]. Qed.

Lemma mutate_inr (s : obj) (f : DAGState → DAGState) (h h' : store) (x : unit) :
  mutate s f h = (h', inr x) → h' = <[s := f (h !!! s)]> h.
Proof. by intros [= <- _]. Qed.

Lemma new_copy_inr (s : obj) (h h' : store) (x : obj) :
  new_copy s h = (h', inr x) → x = length h ∧ h' = h ++ [h !!! s].
Proof. by intros [= <- <-]. Qed.

Lemma store_read_old (h : store) (s : obj) (S S' : DAGState) :
  h !! s = Some S → (h ++ [S']) !!! s = S.
Proof.
  intros Hs. apply list_lookup_total_correct. by apply lookup_app_l_Some.
Qed.

Lemma store_read_new (h : store) (S : DAGState) : (h ++ [S]) !!! length h = S.
Proof. apply list_lookup_total_correct, list_lookup_middle. done. Qed.

Lemma store_write_new (h : store) (S S' : DAGState) :
  <[length h := S']> (h ++ [S]) = h ++ [S'].
Proof. by rewrite insert_app_r_alt, Nat.sub_diag by done. Qed.

Lemma store_lookup_old (h : store) (s : obj) (S S' : DAGState) :
  h !! s = Some S → (h ++ [S']) !! s = Some S ∧ s ≠ length h.
Proof.
  intros Hs. split; [by apply lookup_app_l_Some|].
  apply lookup_lt_Some in Hs. lia.
Qed.

(** Decomposing a run that returns, one statement at a time. *)
Tactic Notation "run_step" hyp(H) "as" simple_intropattern(x) ident(E) :=
  let h1 := fresh "h" in
  apply mbind_inr in H as (x & h1 & E & H);
  lazymatch type of E with
  | lift _ _ = _ => apply lift_inr in E as [E ->]
  | query _ _ _ = _ => apply query_inr in E as [E ->]
  | mutate _ _ _ = _ => apply mutate_inr in E as ->
  | new_copy _ _ = _ => apply new_copy_inr in E as [E ->]
  | _ => idtac
  end.

Section basic_propose_facts.
Context {F : Type} `{!Floating F}.

(** What a run of [basic_move.propose] that returns has computed. *)
Lemma basic_propose_run (h h' : store) (state new_state : obj)
    (S : DAGState) (scores : list (ParentSetDistribution F)) (r0 r1 : nat)
    (acceptance z_ratio : F)
    (Hstate : h !! state = Some S)
    (Hdag : is_dag S = true)
    (Hrun : basic_move.propose state (basic_move.moves S) scores r0 r1 h
            = (h', inr (new_state, acceptance, z_ratio))) :
  ∃ (S' : DAGState) (u v : nat) (sv : ParentSetDistribution F) (z_old z_new : F),
    h' = h ++ [S'] ∧ new_state = length h ∧ h' !! state = Some S ∧
    shape S' = shape S ∧
    ((u, v) ∈ (basic_move.moves S).1 ∧ ((u, v) ∉ adj S) ∧ adj S' = {[(u, v)]} ∪ adj S
     ∨ (u, v) ∈ (basic_move.moves S).2 ∧ (u, v) ∈ adj S ∧ adj S' = adj S ∖ {[(u, v)]}) ∧
    scores !! v = Some sv ∧
    getitem sv (frozenset (parents S v)) = inr z_old ∧
    getitem sv (frozenset (parents S' v)) = inr z_new ∧
    z_ratio = fsub z_new z_old ∧
    acceptance =
      fadd z_ratio
        (flog (fdiv (of_nat (length (basic_move.moves S).1 + length (basic_move.moves S).2))
                    (of_nat (basic_move._n_adds S' (fan_in_ S)
                             + basic_move._n_deletes S')))).
Proof.
  unfold basic_move.propose in Hrun.
  run_step Hrun as new Hnew. subst new.
  run_step Hrun as move Hmove.
  rewrite (list_lookup_total_correct _ _ _ Hstate) in Hrun. unfold copy in Hrun.
  apply is_dag_spec in Hdag as [HS Hcyc].
  apply mbind_inr in Hrun as (uv & h1 & Hbr & Hrun).
  assert (Hedge : ∃ S', h1 = h ++ [S'] ∧ shape S' = shape S ∧ fan_in_ S' = fan_in_ S ∧
     ((uv.1, uv.2) ∈ (basic_move.moves S).1 ∧ ((uv.1, uv.2) ∉ adj S) ∧
        adj S' = {[(uv.1, uv.2)]} ∪ adj S
      ∨ (uv.1, uv.2) ∈ (basic_move.moves S).2 ∧ (uv.1, uv.2) ∈ adj S ∧
        adj S' = adj S ∖ {[(uv.1, uv.2)]})).
  { destruct (decide (move = 0)).
    - run_step Hbr as k Hk. run_step Hbr as uv' Huv. run_step Hbr as u Hu.
      apply mret_inr in Hbr as [-> ->].
      rewrite store_read_new, store_write_new.
      eexists. split; [done|]. split; [done|]. split; [done|]. left.
      apply index_inr, list_elem_of_lookup_2 in Huv. destruct uv' as [u' v']; simpl.
      split; [done|]. split; [|done].
      apply elem_of_nonzero in Huv as (_ & _ & Huv).
      apply (add_matrix_nonzero S _ u' v' HS Hcyc) in Huv. tauto.
    - run_step Hbr as k Hk. run_step Hbr as uv' Huv. run_step Hbr as u Hu.
      apply mret_inr in Hbr as [-> ->].
      rewrite store_read_new, store_write_new.
      eexists. split; [done|]. split; [done|]. split; [done|]. right.
      apply index_inr, list_elem_of_lookup_2 in Huv. destruct uv' as [u' v']; simpl.
      split; [done|]. split; [|done].
      by apply (elem_of_delete_arcs S u' v' HS) in Huv. }
  destruct Hedge as (S' & -> & Hshape & Hfan & Hedge). clear Hbr.
  run_step Hrun as sv Hsv. run_step Hrun as ps_old Hold. run_step Hrun as z_old Hzold.
  run_step Hrun as ps_new Hnew. run_step Hrun as z_new Hznew.
  run_step Hrun as fan_in Hfi. run_step Hrun as q_inv Hq. run_step Hrun as q Hdiv.
  apply mret_inr in Hrun as [[= -> -> ->] ->].
  rewrite store_read_new in Hnew, Hq. rewrite (store_read_old h state S S' Hstate) in Hold.
  rewrite (store_read_old h state S S' Hstate) in Hfi.
  subst ps_old ps_new fan_in q_inv.
  exists S', uv.1, uv.2, sv, z_old, z_new.
  split; [done|]. split; [done|]. split; [by apply lookup_app_l_Some|].
  split; [done|]. split; [done|].
  split; [by apply index_inr|]. split; [done|]. split; [done|]. split; [done|].
  unfold basic_move.int_div in Hdiv. case_decide; [done|].
  by injection Hdiv as <-.
Qed.

End basic_propose_facts.

Lemma moves_addable_deletable_witness :
  is_dag dag_example = true ∧
  (∀ u v, (u, v) ∈ (basic_move.moves dag_example).2 ↔ edge dag_example u v).
Proof.
  split; [reflexivity|].
  exact (proj1 (proj2 (moves_addable_deletable dag_example eq_refl))).
Defined.


(** ** The reversal move *)


(** ** Edge mutation and acyclicity *)

Lemma edge_orphan (S : DAGState) (nodes : list nat) u v :
  edge (orphan S nodes) u v ↔ edge S u v ∧ v ∉ nodes.
Proof. unfold edge, orphan; simpl. rewrite elem_of_filter. simpl. tauto. Qed.

Lemma edge_add_edge (S : DAGState) a b u v :
  edge (add_edge S a b) u v ↔ edge S u v ∨ (u, v) = (a, b).
Proof.
  unfold edge, add_edge; simpl. rewrite elem_of_union, elem_of_singleton. tauto.
Qed.

Lemma edge_add_edges (S : DAGState) (es : list (nat * nat)) u v :
  edge (add_edges S es) u v ↔ edge S u v ∨ (u, v) ∈ es.
Proof.
  unfold add_edges. revert S. induction es as [|[a b] es IH]; intros S; simpl.
  - rewrite elem_of_nil. tauto.
  - rewrite IH, edge_add_edge, elem_of_cons. tauto.
Qed.

Lemma shape_add_edges (S : DAGState) (es : list (nat * nat)) :
  shape (add_edges S es) = shape S.
Proof.
  unfold add_edges. revert S. induction es as [|e es IH]; intros S; simpl; [done|].
  by rewrite IH.
Qed.

Lemma elem_of_product (ps : pset) (i u v : nat) :
  (u, v) ∈ rev_move.product ps i ↔ v = i ∧ u ∈ ps.
Proof.
  unfold rev_move.product. rewrite list_elem_of_fmap. split.
  - intros (p & [= -> ->] & Hp%elem_of_elements). done.
  - intros [-> Hu]. exists u. split; [done|]. by apply elem_of_elements.
Qed.

Lemma edge_add_parents (S : DAGState) (ps : pset) (i u v : nat) :
  edge (add_edges S (rev_move.product ps i)) u v ↔ edge S u v ∨ (v = i ∧ u ∈ ps).
Proof. by rewrite edge_add_edges, elem_of_product. Qed.

Lemma acyclic_subgraph (S S' : DAGState) :
  (∀ u v, edge S' u v → edge S u v) → acyclic S → acyclic S'.
Proof. intros Hsub Hcyc x Hx. apply (Hcyc x). by eapply tc_mono. Qed.

(** Giving a node new parents that it does not reach creates no cycle. *)
Lemma acyclic_add_parents (S S' : DAGState) (ps : pset) (i : nat) :
  (∀ u v, edge S' u v ↔ edge S u v ∨ (v = i ∧ u ∈ ps)) →
  acyclic S →
  (∀ p, p ∈ ps → p ≠ i ∧ ¬ tc (edge S) i p) →
  acyclic S'.
Proof.
  intros Hedge Hcyc Hps.
  assert (Hpath : ∀ a b, tc (edge S') a b →
            tc (edge S) a b ∨
            ∃ p, p ∈ ps ∧ rtc (edge S) a p ∧ (b = i ∨ tc (edge S) i b)).
  { intros a. apply tc_ind_r.
    - intros b [Hab|[-> Ha]]%Hedge.
      + left. by apply tc_once.
      + right. exists a. split; [done|]. split; [apply rtc_refl|by left].
    - intros y z _ [Hyz|[-> Hy]]%Hedge [Hay|(p & Hp & Hap & Hiy)].
      + left. by eapply tc_r.
      + right. exists p. split; [done|]. split; [done|]. right.
        destruct Hiy as [->|Hiy]; [by apply tc_once|by eapply tc_r].
      + right. exists y. split; [done|]. split; [by apply tc_rtc|by left].
      + right. exists p. split; [done|]. split; [done|by left]. }
  intros x [Hx|(p & Hp & Hxp & Hix)]%Hpath.
  - by apply (Hcyc x).
  - destruct (Hps p Hp) as [Hne Hnr].
    assert (Hip : rtc (edge S) i p).
    { destruct Hix as [->|Hix]; [done|]. eapply rtc_trans; [by apply tc_rtc|done]. }
    apply rtc_tc in Hip as [->|Hip]; done.
Qed.

Lemma in_range_orphan (S : DAGState) (nodes : list nat) :
  in_range S → in_range (orphan S nodes).
Proof. intros HS u v [Huv _]%edge_orphan. by apply HS. Qed.

Lemma in_range_add_parents (S : DAGState) (ps : pset) (i : nat) :
  in_range S → i < shape S → (∀ p, p ∈ ps → p < shape S) →
  in_range (add_edges S (rev_move.product ps i)).
Proof.
  intros HS Hi Hps u v [Huv|[-> Hu]]%edge_add_parents; rewrite shape_add_edges.
  - by apply HS.
  - split; [by apply Hps|done].
Qed.

Lemma isdisjoint_descendants (S : DAGState) (i : nat) (ps : pset) :
  in_range S →
  rev_move.isdisjoint ps (frozenset (descendants S i)) = true ↔
  ∀ p, p ∈ ps → ¬ tc (edge S) i p.
Proof.
  intros HS. unfold rev_move.isdisjoint, frozenset.
  rewrite bool_decide_eq_true, elem_of_disjoint.
  split; intros H p Hp.
  - intros Hr. apply (H p Hp). by apply elem_of_list_to_set, elem_of_descendants.
  - intros Hr%elem_of_list_to_set%elem_of_descendants; [|done]. by apply (H p).
Qed.

(** The number of pairs [nonzero] lists is the number of edges. *)
Lemma length_rev_moves (S : DAGState) :
  in_range S → length (rev_move.moves S) = size (adj S).
Proof.
  intros HS. unfold size, set_size; simpl. apply Permutation_length.
  apply NoDup_Permutation; [apply NoDup_nonzero|apply NoDup_elements|].
  intros [u v]. unfold rev_move.moves.
  rewrite (elem_of_delete_arcs S u v HS), elem_of_elements. done.
Qed.

Section rev_propose_facts.
Context {F : Type} `{!Floating F}.

(** What a run of [rev_move.propose] that returns has computed. *)
Lemma rev_propose_run (h h' : store) (state new_state : obj) (S : DAGState)
    (arcs : list (nat * nat)) (scores : list (ParentSetDistribution F))
    (r0 r1 r2 : nat) (acceptance score_diff : F) :
  h !! state = Some S →
  rev_move.propose state arcs scores r0 r1 r2 h
    = (h', inr (new_state, acceptance, score_diff)) →
  ∃ i j si sj old_i old_j z_i z_star_j ps_i z_star_i ps_j z_j new_i new_j,
    let S1 := orphan S [i; j] in
    let S2 := add_edges S1 (rev_move.product ps_i i) in
    let S3 := add_edges S2 (rev_move.product ps_j j) in
    arcs !! (r0 mod length arcs) = Some (i, j) ∧
    scores !! i = Some si ∧ scores !! j = Some sj ∧
    getitem si (frozenset (parents S i)) = inr old_i ∧
    getitem sj (frozenset (parents S j)) = inr old_j ∧
    log_z si (λ ps, rev_move.isdisjoint ps (frozenset (descendants S i))) = inr z_i ∧
    log_z sj (λ ps, rev_move.member i ps
                    && rev_move.isdisjoint ps (frozenset (descendants S j)))
      = inr z_star_j ∧
    sample si (λ ps, rev_move.member j ps
                     && rev_move.isdisjoint ps (frozenset (descendants S1 i))) r1
      = inr (ps_i, z_star_i) ∧
    sample sj (λ ps, rev_move.isdisjoint ps (frozenset (descendants S2 j))) r2
      = inr (ps_j, z_j) ∧
    getitem si (frozenset (parents S3 i)) = inr new_i ∧
    getitem sj (frozenset (parents S3 j)) = inr new_j ∧
    h' = h ++ [S3] ∧ new_state = length h ∧
    length (rev_move.moves S3) ≠ 0 ∧
    acceptance =
      fadd (fsub (fsub (fadd z_star_i z_j) z_star_j) z_i)
           (flog (fdiv (of_nat (length arcs)) (of_nat (length (rev_move.moves S3))))) ∧
    score_diff = fsub (fadd new_i new_j) (fadd old_i old_j).
Proof.
  intros Hstate Hrun. unfold rev_move.propose in Hrun.
  run_step Hrun as k Hk. run_step Hrun as ij Hij.
  run_step Hrun as dsc_i Hdi. run_step Hrun as dsc_j Hdj.
  run_step Hrun as si Hsi. run_step Hrun as ps_old_i Hpoi. run_step Hrun as old_i Hoi.
  run_step Hrun as sj Hsj. run_step Hrun as ps_old_j Hpoj. run_step Hrun as old_j Hoj.
  run_step Hrun as z_i Hzi. run_step Hrun as z_star_j Hzsj.
  run_step Hrun as new Hnew. run_step Hrun as u1 Hu1.
  rewrite (list_lookup_total_correct _ _ _ Hstate) in *. unfold copy in Hrun.
  subst new. rewrite store_read_new, store_write_new in Hrun.
  run_step Hrun as dsc_i' Hdi'. run_step Hrun as si_draw Hdraw_i.
  run_step Hrun as u2 Hu2. rewrite store_read_new, store_write_new in Hrun.
  run_step Hrun as dsc_j' Hdj'. run_step Hrun as sj_draw Hdraw_j.
  run_step Hrun as u3 Hu3. rewrite store_read_new, store_write_new in Hrun.
  run_step Hrun as ps_new_i Hpni. run_step Hrun as new_i Hni.
  run_step Hrun as ps_new_j Hpnj. run_step Hrun as new_j Hnj.
  run_step Hrun as n_new Hn. run_step Hrun as q Hq.
  apply mret_inr in Hrun as [[= -> -> ->] ->].
  rewrite store_read_new in *. subst.
  destruct ij as [i j], si_draw as [ps_i z_star_i], sj_draw as [ps_j z_j]; simpl in *.
  exists i, j, si, sj, old_i, old_j, z_i, z_star_j, ps_i, z_star_i, ps_j, z_j, new_i, new_j.
  unfold choice in Hk. case_decide as Hn0; [done|]. injection Hk as <-.
  apply index_inr in Hij, Hsi, Hsj.
  unfold basic_move.int_div in Hq. case_decide as Hq0; [done|]. injection Hq as <-.
  repeat (split; [done|]). done.
Qed.

Lemma sample_condition (d : ParentSetDistribution F) (condition : pset → bool)
    (r : nat) (ps : pset) (z : F) :
  sample d condition r = inr (ps, z) → ps ∈ (table d).*1 ∧ condition ps = true.
Proof.
  intros (kv & -> & [Hin Hc]%list_elem_of_filter)%sample_elem%list_elem_of_fmap.
  split; [|done]. apply list_elem_of_fmap. by exists kv.
Qed.

(** The graph a run of [rev_move.propose] builds. *)
Lemma rev_propose_graph (S : DAGState) (scores : list (ParentSetDistribution F))
    (i j : nat) (si sj : ParentSetDistribution F) (ps_i ps_j : pset)
    (z_star_i z_j : F) (r1 r2 : nat) :
  let S1 := orphan S [i; j] in
  let S2 := add_edges S1 (rev_move.product ps_i i) in
  let S3 := add_edges S2 (rev_move.product ps_j j) in
  in_range S → acyclic S → keys_in_range (shape S) scores → edge S i j →
  scores !! i = Some si → scores !! j = Some sj →
  sample si (λ ps, rev_move.member j ps
                   && rev_move.isdisjoint ps (frozenset (descendants S1 i))) r1
    = inr (ps_i, z_star_i) →
  sample sj (λ ps, rev_move.isdisjoint ps (frozenset (descendants S2 j))) r2
    = inr (ps_j, z_j) →
  in_range S3 ∧ acyclic S3 ∧ ¬ edge S3 i j ∧ edge S3 j i.
Proof.
  intros S1 S2 S3 HS Hcyc Hkeys Hij Hsi Hsj Hdraw_i Hdraw_j.
  destruct (HS i j Hij) as [Hi Hj].
  apply sample_condition in Hdraw_i as [Hki Hci], Hdraw_j as [Hkj Hcj].
  destruct (Hkeys i si ps_i Hsi Hki) as [Hni Hri].
  destruct (Hkeys j sj ps_j Hsj Hkj) as [Hnj Hrj].
  apply andb_true_iff in Hci as [Hmem Hdis_i].
  unfold rev_move.member in Hmem. apply bool_decide_eq_true in Hmem.
  assert (HS1 : in_range S1) by by apply in_range_orphan.
  assert (Hc1 : acyclic S1).
  { apply (acyclic_subgraph S); [|done]. by intros u v [? _]%edge_orphan. }
  pose proof (proj1 (isdisjoint_descendants S1 i ps_i HS1) Hdis_i) as Hd_i.
  assert (HS2 : in_range S2) by by apply in_range_add_parents.
  assert (Hc2 : acyclic S2).
  { apply (acyclic_add_parents S1 S2 ps_i i); [apply edge_add_parents|done|].
    intros p Hp. split; [by intros ->|by apply Hd_i]. }
  pose proof (proj1 (isdisjoint_descendants S2 j ps_j HS2) Hcj) as Hd_j.
  assert (Hji : edge S2 j i) by (apply edge_add_parents; by right).
  split; [|split; [|split]].
  - apply in_range_add_parents; [done| |]; unfold S2; by rewrite shape_add_edges.
  - apply (acyclic_add_parents S2 S3 ps_j j); [apply edge_add_parents|done|].
    intros p Hp. split; [by intros ->|by apply Hd_j].
  - intros Hedge3. apply edge_add_parents in Hedge3 as [Hedge2|[_ Hin]].
    + apply edge_add_parents in Hedge2 as [Hedge1|[Heq _]].
      * apply edge_orphan in Hedge1 as [_ Hnot]. apply Hnot. right. left.
      * subst j. by apply (Hcyc i), tc_once.
    + apply (Hd_j i Hin). by apply tc_once.
  - apply edge_add_parents. by left.
Qed.

Lemma collect_inr_lookup {A B : Type} (f : A → result B) (l : list A)
    (ys : list B) (k : nat) (y : B) :
  collect f l = inr ys → ys !! k = Some y → ∃ x, l !! k = Some x ∧ f x = inr y.
Proof.
  revert ys k. induction l as [|x l IH]; intros ys k; simpl.
  - by intros [= <-].
  - intros (y' & Hy' & (ys' & Hys' & [= <-])%bind_inr)%bind_inr.
    destruct k as [|k]; simpl.
    + intros [= <-]. eauto.
    + by apply IH.
Qed.

(** The tables [get_parent_set_distributions] builds have their keys in
    range. *)
Lemma keys_in_range_enumeration (n fan_in : nat) (score_fn : nat * list nat → F)
    condition (scores : list (ParentSetDistribution F)) :
  get_parent_set_distributions n fan_in score_fn condition = inr scores →
  keys_in_range n scores.
Proof.
  intros Hget v d ps Hd Hps.
  destruct (collect_inr_lookup _ _ _ _ _ Hget Hd) as (v' & Hv' & Hbuild).
  apply lookup_seq in Hv' as [-> Hv]. simpl in Hbuild.
  assert (Hne : var_psets n fan_in condition v ≠ []).
  { intros Hnil. rewrite parent_set_distribution_unfold, Hnil in Hbuild. done. }
  rewrite (parent_set_distribution_inr n fan_in score_fn condition v Hne) in Hbuild.
  injection Hbuild as <-. simpl in Hps. rewrite <-list_fmap_compose in Hps.
  apply (var_psets_keys n fan_in condition v ps) in Hps as (Hel & _).
  split.
  - intros Hin. by destruct (Hel v Hin).
  - intros x Hx. by destruct (Hel x Hx).
Qed.

(** The state a run of [rev_move.propose] that returns has built. *)
Lemma rev_propose_acyclic_run (h h' : store) (state new_state : obj) (S : DAGState)
    (scores : list (ParentSetDistribution F)) (r0 r1 r2 : nat)
    (acceptance score_diff : F)
    (Hstate : h !! state = Some S)
    (Hdag : is_dag S = true)
    (Hkeys : keys_in_range (shape S) scores)
    (Hrun : rev_move.propose state (rev_move.moves S) scores r0 r1 r2 h
            = (h', inr (new_state, acceptance, score_diff))) :
  ∃ (S' : DAGState) (i j : nat),
    rev_move.moves S !! (r0 mod length (rev_move.moves S)) = Some (i, j) ∧
    edge S i j ∧
    h' = h ++ [S'] ∧ new_state = length h ∧
    is_dag S' = true ∧ ¬ edge S' i j ∧ j ∈ parents S' i.
Proof.
  apply is_dag_spec in Hdag as [HS Hcyc].
  destruct (rev_propose_run _ _ _ _ _ _ _ _ _ _ _ _ Hstate Hrun)
    as (i & j & si & sj & old_i & old_j & z_i & z_star_j & ps_i & z_star_i &
        ps_j & z_j & new_i & new_j & Harc & Hsi & Hsj & _ & _ & _ & _ &
        Hdraw_i & Hdraw_j & _ & _ & -> & -> & _).
  assert (Hij : edge S i j).
  { apply list_elem_of_lookup_2 in Harc. by apply (elem_of_delete_arcs S i j HS). }
  destruct (rev_propose_graph S scores i j si sj ps_i ps_j z_star_i z_j r1 r2
              HS Hcyc Hkeys Hij Hsi Hsj Hdraw_i Hdraw_j) as (HS3 & Hc3 & Hno & Hji).
  eexists _, i, j. split; [done|]. split; [done|]. split; [done|]. split; [done|].
  split; [by apply is_dag_spec|]. split; [done|]. by apply elem_of_parents.
Qed.

(** The acceptance ratio a run of [rev_move.propose] that returns has
    computed. *)
Lemma rev_propose_ratio_run (h h' : store) (state new_state : obj)
    (S : DAGState) (scores : list (ParentSetDistribution F)) (r0 r1 r2 : nat)
    (acceptance score_diff : F)
    (Hstate : h !! state = Some S)
    (Hdag : is_dag S = true)
    (Hkeys : keys_in_range (shape S) scores)
    (Hrun : rev_move.propose state (rev_move.moves S) scores r0 r1 r2 h
            = (h', inr (new_state, acceptance, score_diff))) :
  ∃ (i j : nat) (si sj : ParentSetDistribution F)
    (z_i z_star_j z_star_i z_j : F) (ps_i ps_j : pset) (S' : DAGState),
    let S1 := orphan S [i; j] in
    let S2 := add_edges S1 (rev_move.product ps_i i) in
    rev_move.moves S !! (r0 mod size (adj S)) = Some (i, j) ∧
    scores !! i = Some si ∧ scores !! j = Some sj ∧
    log_z si (λ ps, rev_move.isdisjoint ps (frozenset (descendants S i))) = inr z_i ∧
    log_z sj (λ ps, rev_move.member i ps
                    && rev_move.isdisjoint ps (frozenset (descendants S j)))
      = inr z_star_j ∧
    sample si (λ ps, rev_move.member j ps
                     && rev_move.isdisjoint ps (frozenset (descendants S1 i))) r1
      = inr (ps_i, z_star_i) ∧
    sample sj (λ ps, rev_move.isdisjoint ps (frozenset (descendants S2 j))) r2
      = inr (ps_j, z_j) ∧
    h' !! new_state = Some S' ∧
    S' = add_edges S2 (rev_move.product ps_j j) ∧
    0 < size (adj S) ∧ 0 < size (adj S') ∧
    acceptance =
      fadd (fsub (fsub (fadd z_star_i z_j) z_star_j) z_i)
           (flog (fdiv (of_nat (size (adj S))) (of_nat (size (adj S'))))).
Proof.
  apply is_dag_spec in Hdag as [HS Hcyc].
  destruct (rev_propose_run _ _ _ _ _ _ _ _ _ _ _ _ Hstate Hrun)
    as (i & j & si & sj & old_i & old_j & z_i & z_star_j & ps_i & z_star_i &
        ps_j & z_j & new_i & new_j & Harc & Hsi & Hsj & _ & _ & Hzi & Hzsj &
        Hdraw_i & Hdraw_j & _ & _ & -> & -> & Hne & -> & _).
  assert (Hij : edge S i j).
  { apply list_elem_of_lookup_2 in Harc. by apply (elem_of_delete_arcs S i j HS). }
  destruct (rev_propose_graph S scores i j si sj ps_i ps_j z_star_i z_j r1 r2
              HS Hcyc Hkeys Hij Hsi Hsj Hdraw_i Hdraw_j) as (HS3 & _).
  assert (Hpos : 0 < length (rev_move.moves S)).
  { apply lookup_lt_Some in Harc. revert Harc.
    generalize (r0 mod length (rev_move.moves S)). lia. }
  rewrite (length_rev_moves S HS) in *. rewrite (length_rev_moves _ HS3) in *.
  exists i, j, si, sj, z_i, z_star_j, z_star_i, z_j, ps_i, ps_j. eexists.
  repeat (split; [done|]).
  split; [apply list_lookup_middle; done|]. split; [done|].
  split; [done|]. split; [lia|done].
Qed.

End rev_propose_facts.

Lemma scores_example_keys : keys_in_range 3 scores_example.
Proof.
  apply (keys_in_range_enumeration 3 2 score_example None). reflexivity.
Qed.

(** Reversing the edge [0 → 1] of [dag_example]. *)
Lemma rev_propose_example :
  rev_move.propose 0 (rev_move.moves dag_example) scores_example 0 0 0 [dag_example]
  = ([dag_example; mkDAG 3 {[ (1, 0); (1, 2) ]} 2], inr (1, 1%Q, 0%Q)).
Proof. vm_compute. reflexivity. Qed.



(** ** What a computation leaves untouched *)

Section frame_rules.
Context {A : Type}.
Implicit Types (m : M A) (n : nat).

Lemma keeps_mret n (x : A) (R : A → Prop) : R x → keeps n (mret x) R.
Proof. intros HR h Hn. split; [done|]. by intros y [= <-]. Qed.

Lemma keeps_lift n (r : result A) : keeps n (lift r) (λ _, True).
Proof. intros h Hn. done. Qed.

Lemma keeps_query n (s : obj) (f : DAGState → A) : keeps n (query s f) (λ _, True).
Proof. intros h Hn. done. Qed.

Lemma keeps_bind {B : Type} n m (k : A → M B) (Q : A → Prop) (R : B → Prop) :
  keeps n m Q → (∀ x, Q x → keeps n (k x) R) → keeps n (mbind m k) R.
Proof.
  intros Hm Hk h Hn. unfold mbind.
  destruct (Hm h Hn) as [Htake HQ]. destruct (m h) as [h1 [e|x]]; simpl in *.
  - split; [done|]. done.
  - assert (Hn1 : n ≤ length h1).
    { rewrite <-(length_take_le h n Hn), <-Htake, length_take. lia. }
    destruct (Hk x (HQ x eq_refl) h1 Hn1) as [Htake1 HR].
    split; [congruence|done].
Qed.

End frame_rules.

Lemma keeps_mutate (n : nat) (s : obj) (f : DAGState → DAGState) :
  n ≤ s → keeps n (mutate s f) (λ _, True).
Proof. intros Hs h Hn. split; [|done]. simpl. by apply take_insert_ge. Qed.

Lemma keeps_new_copy (n : nat) (s : obj) : keeps n (new_copy s) (λ x, n ≤ x).
Proof.
  intros h Hn. split; simpl.
  - by apply take_app_le.
  - by intros x [= <-].
Qed.

Ltac keeps_step :=
  first
    [ eapply keeps_bind;
      [ first [ apply keeps_lift | apply keeps_query
              | apply keeps_mutate; assumption | apply keeps_new_copy ]
      | intros ? ? ]
    | apply keeps_mret; assumption ].

Section propose_frame.
Context {F : Type} `{!Floating F}.

Lemma basic_propose_keeps (n : nat) (state : obj) arcs
    (scores : list (ParentSetDistribution F)) (r0 r1 : nat) :
  keeps n (basic_move.propose state arcs scores r0 r1) (λ res, n ≤ res.1.1).
Proof.
  unfold basic_move.propose. keeps_step. keeps_step.
  eapply (keeps_bind _ _ _ (λ _, True)).
  { case_decide; repeat keeps_step; by apply keeps_mret. }
  intros uv _. repeat keeps_step.
Qed.

Lemma rev_propose_keeps (n : nat) (state : obj) arcs
    (scores : list (ParentSetDistribution F)) (r0 r1 r2 : nat) :
  keeps n (rev_move.propose state arcs scores r0 r1 r2) (λ res, n ≤ res.1.1).
Proof. unfold rev_move.propose. repeat keeps_step. Qed.

Lemma propose_of_keeps (n : nat) (mv : GraphMove) (state : obj) (a : move_arcs)
    (scores : list (ParentSetDistribution F)) (r0 r1 r2 : nat) :
  keeps n (DAGProposal.propose_of mv state a scores r0 r1 r2) (λ res, n ≤ res.1.1).
Proof.
  destruct mv, a; simpl;
    try apply basic_propose_keeps; try apply rev_propose_keeps;
    intros h Hn; done.
Qed.

End propose_frame.

(** ** [DAGProposal.sample] *)

Section sample_facts.
Context {F : Type} `{!Floating F}.

(** C9, as amended.  Whatever [sample] does, raising or returning, the
    object [state] keeps its nodes and its edges, and so does every object
    that was in the store; the one field of [state] the call assigns is
    [fan_in_], which becomes the fan-in of the proposal as soon as the
    fan-in check has passed, also when [propose] then raises.  A state that
    is returned is an object that was not in the store before. *)
Theorem sample_changes_only_fan_in (self : DAGProposal.t) (h : store)
    (state : obj) (S : DAGState) (r r0 r1 r2 : nat)
    (Hstate : h !! state = Some S) :
  let run := DAGProposal.sample self state r r0 r1 r2 h in
  ∃ S_after : DAGState,
    run.1 !! state = Some S_after ∧
    shape S_after = shape S ∧ adj S_after = adj S ∧
    fan_in_ S_after =
      (if DAGProposal.fan_in_violated self S then fan_in_ S
       else DAGProposal.fan_in self) ∧
    (∀ s, s ≠ state → s < length h → run.1 !! s = h !! s) ∧
    (∀ res, run.2 = inr res → length h ≤ res.1.1).
Proof.
  intros run. remember run as out eqn:Hrun. subst run.
  unfold DAGProposal.sample in Hrun. unfold mbind at 1 in Hrun.
  unfold query at 1 in Hrun.
  rewrite (list_lookup_total_correct _ _ _ Hstate) in Hrun.
  destruct (DAGProposal.fan_in_violated self S) eqn:Hviol.
  - subst out. exists S. simpl. done.
  - unfold mbind at 1 in Hrun. unfold mutate at 1 in Hrun.
    rewrite (list_lookup_total_correct _ _ _ Hstate) in Hrun.
    set (h1 := <[state := set_fan_in S (DAGProposal.fan_in self)]> h) in *.
    match type of Hrun with context [mbind ?m ?k h1] => set (rest := mbind m k) in * end.
    subst out.
    assert (Hrest : keeps (length h1) rest (λ res, length h1 ≤ res.1.1)).
    { unfold rest. do 4 keeps_step.
      eapply keeps_bind; [apply propose_of_keeps|]. intros res Hres. simpl in Hres.
      keeps_step. by apply keeps_mret. }
    destruct (Hrest h1 (le_n _)) as [Htake Hres].
    rewrite (take_ge h1) in Htake by done.
    assert (Hlen : length h1 = length h) by apply length_insert.
    assert (Hlook : ∀ s, s < length h → (rest h1).1 !! s = h1 !! s).
    { intros s Hs. rewrite <-Htake at 2. rewrite lookup_take_lt; [done|lia]. }
    exists (set_fan_in S (DAGProposal.fan_in self)).
    pose proof (lookup_lt_Some _ _ _ Hstate) as Hlt.
    split; [|split; [done|split; [done|split; [done|split]]]].
    + rewrite Hlook by done. by apply list_lookup_insert_eq.
    + intros s Hne Hs. rewrite Hlook by done. by apply list_lookup_insert_ne.
    + intros res Hr. rewrite <-Hlen. by apply Hres.
Qed.

Lemma support_nil (w : list F) : (∀ x, x ∈ w → fpos x = false) → support w = [].
Proof.
  intros Hw. unfold support.
  destruct (filter _ _) as [|i s] eqn:Hf; [done|].
  assert (Hi : i ∈ i :: s) by left. rewrite <-Hf in Hi.
  apply list_elem_of_filter in Hi as [Hi _].
  destruct (w !! i) as [x|] eqn:Hx; simpl in Hi; [|done].
  rewrite (Hw x) in Hi; [done|]. by eapply list_elem_of_lookup_2.
Qed.

Lemma renormalize_masked (move_prob : list F) (flags : list bool) (x : F) :
  (∀ b, b ∈ flags → b = false) →
  x ∈ DAGProposal.renormalize move_prob flags → fpos x = false.
Proof.
  intros Hflags. unfold DAGProposal.renormalize.
  intros (y & -> & Hy)%list_elem_of_fmap.
  apply elem_of_zip_with in Hy as (p & b & -> & _ & Hb).
  rewrite (Hflags b Hb). apply fpos_masked.
Qed.

(** When the flag of every configured move is [False] (for [rev_move]: when
    the state has no edge), the renormalised vector has no positive entry
    and the draw of the move raises. *)
Lemma sample_raises_without_flagged_move (self : DAGProposal.t) (h : store)
    (state : obj) (S : DAGState) (r r0 r1 r2 : nat) :
  h !! state = Some S →
  DAGProposal.fan_in_violated self S = false →
  (∀ m, m ∈ DAGProposal.moves self →
     DAGProposal.has_move
       (DAGProposal.moves_of m (set_fan_in S (DAGProposal.fan_in self))) = false) →
  (DAGProposal.sample self state r r0 r1 r2 h).2 = inl ValueError.
Proof.
  intros Hstate Hviol Hnone. unfold DAGProposal.sample, mbind at 1. simpl.
  rewrite (list_lookup_total_correct _ _ _ Hstate), Hviol.
  unfold mbind; simpl.
  pose proof (lookup_lt_Some _ _ _ Hstate) as Hlt.
  rewrite list_lookup_total_insert_eq by done.
  rewrite ?(list_lookup_total_correct _ _ _ Hstate).
  unfold choice_p. rewrite support_nil; [done|].
  intros x Hx. eapply renormalize_masked; [|done].
  intros b (a & -> & (m & -> & Hm)%list_elem_of_fmap)%list_elem_of_fmap.
  by apply Hnone.
Qed.

Lemma basic_move_has_move (S : DAGState) :
  DAGProposal.has_move (DAGProposal.moves_of basic_move S) = true.
Proof. done. Qed.

Lemma rev_move_has_move (S : DAGState) :
  DAGProposal.has_move (DAGProposal.moves_of rev_move S) = true ↔
  neighborhood (DAGProposal.moves_of rev_move S) ≠ [].
Proof.
  unfold DAGProposal.has_move. rewrite bool_decide_eq_true. simpl.
  by destruct (rev_move.moves S).
Qed.

End sample_facts.

(** C9 fails as it is stated: on [single_node] the call raises, having
    selected a move that cannot propose, and the input object has its
    [fan_in_] changed from 5 to 2. *)
Lemma sample_stamps_fan_in_on_input :
  (DAGProposal.sample basic_only 0 0 0 0 0 [single_node]).2 = inl ValueError ∧
  (DAGProposal.sample basic_only 0 0 0 0 0 [single_node]).1 !! 0
    = Some (mkDAG 1 ∅ 2) ∧
  (DAGProposal.sample basic_only 0 0 0 0 0 [single_node]).1 !! 0
    ≠ [single_node] !! 0.
Proof. split; [|split]; [vm_compute; reflexivity..|]. vm_compute. intros [=]. Qed.

Lemma sample_changes_only_fan_in_witness :
  ∃ S_after : DAGState,
    (DAGProposal.sample proposal_example 0 0 0 0 0 [dag_example]).1 !! 0
      = Some S_after ∧
    shape S_after = shape dag_example ∧ adj S_after = adj dag_example.
Proof.
  destruct (sample_changes_only_fan_in proposal_example [dag_example] 0
              dag_example 0 0 0 0 eq_refl) as (S_after & H1 & H2 & H3 & _).
  by exists S_after.
Defined.

(** C5 on [single_node], where the add/delete move has nothing to add and
    nothing to delete: its flag is [True] all the same, its entry of the
    renormalised vector stays positive, the move is drawn, and the call
    raises from within [propose]. *)
Theorem empty_basic_neighborhood_is_not_masked :
  let state := set_fan_in single_node 2 in
  let flags := DAGProposal.has_move <$> [DAGProposal.moves_of basic_move state] in
  neighborhood (DAGProposal.moves_of basic_move state) = [] ∧
  flags = [true] ∧
  fpos <$> DAGProposal.renormalize [1%Q] flags = [true] ∧
  choice_p (DAGProposal.renormalize [1%Q] flags) 0 = inr 0 ∧
  (DAGProposal.sample basic_only 0 0 0 0 0 [single_node]).2 = inl ValueError.
Proof. repeat split; vm_compute; reflexivity. Qed.

(** ** When the proposals return *)

Section returns.
Context {F : Type} `{!Floating F}.

Lemma support_nonempty (w : list F) (x : F) :
  x ∈ w → fpos x = true → support w ≠ [].
Proof.
  intros (i & Hi)%list_elem_of_lookup Hx Hnil.
  assert (Hin : i ∈ support w).
  { unfold support. apply list_elem_of_filter. rewrite Hi. simpl. split; [done|].
    apply elem_of_seq. apply lookup_lt_Some in Hi. lia. }
  rewrite Hnil in Hin. by apply elem_of_nil in Hin.
Qed.

Lemma choice_p_returns (w : list F) (x : F) (r : nat) :
  x ∈ w → fpos x = true → ∃ i, choice_p w r = inr i.
Proof.
  intros Hx Hpos. unfold choice_p.
  destruct (support w) eqn:Hs; [by destruct (support_nonempty w x Hx Hpos)|].
  eauto.
Qed.

Lemma choice_p_positive (w : list F) (r i : nat) :
  choice_p w r = inr i → ∃ x, w !! i = Some x ∧ fpos x = true.
Proof.
  unfold choice_p. destruct (support w) as [|j s] eqn:Hs; [done|].
  intros [= <-].
  assert (Hin : nth (r mod length (j :: s)) (j :: s) j ∈ support w).
  { rewrite Hs. apply list_elem_of_In, nth_In, Nat.mod_upper_bound. done. }
  unfold support in Hin. apply list_elem_of_filter in Hin as [Hin _].
  destruct (w !! _) as [x|]; simpl in Hin; [eauto|done].
Qed.

Lemma log_z_returns (d : ParentSetDistribution F) (condition : pset → bool)
    (k : pset) :
  k ∈ (table d).*1 → condition k = true → ∃ z, log_z d condition = inr z.
Proof.
  intros ([k' v] & -> & Hin)%list_elem_of_fmap Hc.
  assert (Hsel : (k', v) ∈ conditioned d condition) by by apply conditioned_elem.
  unfold log_z. destruct (conditioned d condition) as [|[k1 v1] [|kv l]]; simpl.
  - by apply elem_of_nil in Hsel.
  - eauto.
  - eauto.
Qed.

Lemma sample_returns `{!SaneWeights F} (d : ParentSetDistribution F)
    (condition : pset → bool) (r : nat) (k : pset) :
  k ∈ (table d).*1 → condition k = true →
  ∃ ps z, sample d condition r = inr (ps, z).
Proof.
  intros ([k' v] & -> & Hin)%list_elem_of_fmap Hc.
  assert (Hsel : (k', v) ∈ conditioned d condition) by by apply conditioned_elem.
  unfold sample. destruct (conditioned d condition) as [|[k1 v1] [|kv l]].
  - by apply elem_of_nil in Hsel.
  - eauto.
  - lazy beta iota zeta.
    destruct (exp_weights_pos v1 (kv :: l).*2) as (x & Hx & Hpos).
    destruct (choice_p_returns _ x r Hx Hpos) as [i Hi].
    unfold exp_weights in Hi. rewrite Hi. simpl. eauto.
Qed.

(** What the enumeration returns when no feasibility predicate is given. *)
Lemma enumeration_lookup (n fan_in : nat) (score_fn : nat * list nat → F)
    (scores : list (ParentSetDistribution F)) (v : nat) :
  get_parent_set_distributions n fan_in score_fn None = inr scores →
  v < n →
  ∃ d, scores !! v = Some d ∧
       ∀ X, X ∈ (table d).*1 ↔ is_candidate n fan_in None v X.
Proof.
  intros Hget Hv.
  set (g := λ v, mkPSD v ((λ s, (list_to_set s, score_fn (v, s)))
                            <$> var_psets n fan_in None v)).
  assert (Hall : get_parent_set_distributions n fan_in score_fn None
                 = inr (g <$> seq 0 n)).
  { apply collect_inr. intros u _. apply parent_set_distribution_inr.
    eapply var_psets_nonempty, empty_set_is_candidate. }
  rewrite Hall in Hget. injection Hget as <-.
  exists (g v). split.
  - by rewrite list_lookup_fmap, lookup_seq_lt.
  - intros X. unfold g; simpl. rewrite <-list_fmap_compose. apply var_psets_keys.
Qed.

Lemma getitem_returns (d : ParentSetDistribution F) (X : pset) :
  X ∈ (table d).*1 → ∃ z, getitem d X = inr z.
Proof. apply od_get_is_inr. Qed.

End returns.

(** The parents of a node as a candidate parent set. *)
Lemma parents_is_candidate (S : DAGState) (fan_in v : nat) :
  in_range S → acyclic S → length (parents S v) ≤ fan_in →
  is_candidate (shape S) fan_in None v (frozenset (parents S v)).
Proof.
  intros HS Hcyc Hfan. split; [|split; [|done]].
  - intros x Hx%elem_of_list_to_set%elem_of_parents; [|done].
    destruct (HS x v Hx). split; [done|]. intros ->. by apply (Hcyc v), tc_once.
  - unfold frozenset. rewrite size_list_to_set; [done|].
    apply NoDup_filter, NoDup_seq.
Qed.

Lemma singleton_is_candidate (n fan_in v p : nat) :
  p < n → p ≠ v → 0 < fan_in → is_candidate n fan_in None v {[ p ]}.
Proof.
  intros Hp Hne Hf. split; [|split; [|done]].
  - by intros x ->%elem_of_singleton.
  - rewrite size_singleton. lia.
Qed.

(** Running a computation forwards, one statement at a time. *)
Lemma mbind_lift {A B : Type} (r : result A) (x : A) (k : A → M B) (h : store) :
  r = inr x → mbind (lift r) k h = k x h.
Proof. by intros ->. Qed.

Lemma mbind_query {A B : Type} (s : obj) (f : DAGState → A) (k : A → M B)
    (h : store) :
  mbind (query s f) k h = k (f (h !!! s)) h.
Proof. done. Qed.

Lemma mbind_mutate {B : Type} (s : obj) (f : DAGState → DAGState)
    (k : unit → M B) (h : store) :
  mbind (mutate s f) k h = k tt (<[s := f (h !!! s)]> h).
Proof. done. Qed.

Lemma mbind_new_copy {B : Type} (s : obj) (k : obj → M B) (h : store) :
  mbind (new_copy s) k h = k (length h) (h ++ [h !!! s]).
Proof. done. Qed.

Lemma isdisjoint_empty (dsc : pset) : rev_move.isdisjoint ∅ dsc = true.
Proof.
  unfold rev_move.isdisjoint. rewrite bool_decide_eq_true. apply disjoint_empty_l.
Qed.

Lemma parents_after_reversal (S : DAGState) (ps : pset) (v : nat) :
  in_range S → (∀ x, edge S x v ↔ x ∈ ps) → frozenset (parents S v) = ps.
Proof.
  intros HS Hps. apply set_eq. intros x. unfold frozenset.
  by rewrite elem_of_list_to_set, (elem_of_parents S x v HS).
Qed.

Section rev_propose_returns.
Context {F : Type} `{!Floating F} `{!SaneWeights F}.

Lemma rev_propose_returns (h : store) (state : obj) (S : DAGState)
    (score_fn : nat * list nat → F) (scores : list (ParentSetDistribution F))
    (r0 r1 r2 : nat) :
  h !! state = Some S →
  in_range S → acyclic S → fan_in_respected S (fan_in_ S) →
  get_parent_set_distributions (shape S) (fan_in_ S) score_fn None = inr scores →
  adj S ≠ ∅ →
  ∃ h' res, rev_move.propose state (rev_move.moves S) scores r0 r1 r2 h
            = (h', inr res).
Proof.
  intros Hstate HS Hcyc Hfan Hscores Hne.
  pose proof (keys_in_range_enumeration _ _ _ _ _ Hscores) as Hkeys.
  assert (Hn : length (rev_move.moves S) ≠ 0).
  { rewrite (length_rev_moves S HS). intros Hsz. apply Hne.
    by apply leibniz_equiv, size_empty_iff. }
  destruct (lookup_lt_is_Some_2 (rev_move.moves S)
              (r0 mod length (rev_move.moves S))) as [[i j] Harc].
  { by apply Nat.mod_upper_bound. }
  assert (Hij : edge S i j).
  { apply list_elem_of_lookup_2 in Harc. by apply (elem_of_delete_arcs S i j HS). }
  destruct (HS i j Hij) as [Hi Hj].
  assert (Hneq : i ≠ j) by (intros ->; by apply (Hcyc j), tc_once).
  assert (Hpos : 0 < fan_in_ S).
  { pose proof (Hfan j Hj) as Hl.
    assert (Hin : i ∈ parents S j) by by apply elem_of_parents.
    destruct (parents S j); [by apply elem_of_nil in Hin|]. simpl in Hl. lia. }
  destruct (enumeration_lookup _ _ _ _ i Hscores Hi) as (si & Hsi & Hki).
  destruct (enumeration_lookup _ _ _ _ j Hscores Hj) as (sj & Hsj & Hkj).
  destruct (getitem_returns si (frozenset (parents S i))) as [old_i Hoi].
  { apply Hki, parents_is_candidate; auto. }
  destruct (getitem_returns sj (frozenset (parents S j))) as [old_j Hoj].
  { apply Hkj, parents_is_candidate; auto. }
  destruct (log_z_returns si
              (λ ps, rev_move.isdisjoint ps (frozenset (descendants S i))) ∅)
    as [z_i Hzi].
  { apply Hki, empty_set_is_candidate. }
  { apply isdisjoint_empty. }
  destruct (log_z_returns sj
              (λ ps, rev_move.member i ps
                     && rev_move.isdisjoint ps (frozenset (descendants S j))) {[i]})
    as [z_star_j Hzsj].
  { by apply Hkj, singleton_is_candidate. }
  { apply andb_true_iff. split; [unfold rev_move.member; rewrite bool_decide_eq_true; by apply elem_of_singleton|].
    apply (isdisjoint_descendants S j _ HS). intros p ->%elem_of_singleton Hji.
    apply (Hcyc i). by eapply tc_l. }
  set (S1 := orphan S [i; j]).
  assert (HS1 : in_range S1) by by apply in_range_orphan.
  destruct (sample_returns si
              (λ ps, rev_move.member j ps
                     && rev_move.isdisjoint ps (frozenset (descendants S1 i))) r1 {[j]})
    as (ps_i & z_star_i & Hdraw_i).
  { apply Hki, singleton_is_candidate; auto. }
  { apply andb_true_iff. split; [unfold rev_move.member; rewrite bool_decide_eq_true; by apply elem_of_singleton|].
    apply (isdisjoint_descendants S1 i _ HS1). intros p ->%elem_of_singleton Hr.
    destruct (tc_last _ _ _ Hr) as (z & [_ Hz]%edge_orphan). apply Hz. right. left. }
  set (S2 := add_edges S1 (rev_move.product ps_i i)).
  destruct (sample_returns sj
              (λ ps, rev_move.isdisjoint ps (frozenset (descendants S2 j))) r2 ∅)
    as (ps_j & z_j & Hdraw_j).
  { apply Hkj, empty_set_is_candidate. }
  { apply isdisjoint_empty. }
  set (S3 := add_edges S2 (rev_move.product ps_j j)).
  destruct (rev_propose_graph S scores i j si sj ps_i ps_j z_star_i z_j r1 r2
              HS Hcyc Hkeys Hij Hsi Hsj Hdraw_i Hdraw_j) as (HS3 & _ & _ & Hji).
  fold S1 S2 S3 in HS3, Hji.
  assert (Hpi : frozenset (parents S3 i) = ps_i).
  { apply (parents_after_reversal S3 ps_i i HS3). intros x.
    unfold S3, S2. rewrite !edge_add_parents. unfold S1. rewrite edge_orphan.
    split; [|tauto]. intros [[[_ Hx]|[_ Hx]]|[Hx _]]; [|done|done].
    destruct Hx. left. }
  assert (Hpj : frozenset (parents S3 j) = ps_j).
  { apply (parents_after_reversal S3 ps_j j HS3). intros x.
    unfold S3, S2. rewrite !edge_add_parents. unfold S1. rewrite edge_orphan.
    split; [|tauto]. intros [[[_ Hx]|[Hx _]]|[_ Hx]]; [|done|done].
    destruct Hx. right. left. }
  destruct (getitem_returns si ps_i) as [new_i Hni].
  { by apply sample_condition in Hdraw_i as [? _]. }
  destruct (getitem_returns sj ps_j) as [new_j Hnj].
  { by apply sample_condition in Hdraw_j as [? _]. }
  assert (Hn3 : length (rev_move.moves S3) ≠ 0).
  { assert (Hin : (j, i) ∈ rev_move.moves S3) by by apply elem_of_delete_arcs.
    destruct (rev_move.moves S3); [by apply elem_of_nil in Hin|done]. }
  unfold rev_move.propose.
  rewrite (mbind_lift _ (r0 mod length (rev_move.moves S)))
    by (unfold choice; by rewrite decide_False).
  rewrite (mbind_lift _ (i, j)) by by apply index_inr.
  rewrite !mbind_query.
  rewrite (mbind_lift _ si) by by apply index_inr.
  rewrite mbind_query, (list_lookup_total_correct _ _ _ Hstate).
  rewrite (mbind_lift _ old_i) by done.
  rewrite (mbind_lift _ sj) by by apply index_inr.
  rewrite mbind_query, (list_lookup_total_correct _ _ _ Hstate).
  rewrite (mbind_lift _ old_j) by done.
  rewrite (mbind_lift _ z_i) by done.
  rewrite (mbind_lift _ z_star_j) by done.
  rewrite mbind_new_copy, (list_lookup_total_correct _ _ _ Hstate). unfold copy.
  rewrite mbind_mutate, store_read_new, store_write_new.
  rewrite mbind_query, store_read_new. simpl fst; simpl snd. fold S1.
  rewrite (mbind_lift _ (ps_i, z_star_i)) by done.
  rewrite mbind_mutate, store_read_new, store_write_new. simpl fst. fold S2.
  rewrite mbind_query, store_read_new.
  rewrite (mbind_lift _ (ps_j, z_j)) by done.
  rewrite mbind_mutate, store_read_new, store_write_new. simpl fst. fold S3.
  rewrite mbind_query, store_read_new, Hpi.
  rewrite (mbind_lift _ new_i) by done.
  rewrite mbind_query, store_read_new, Hpj.
  rewrite (mbind_lift _ new_j) by done.
  rewrite mbind_query, store_read_new.
  unfold basic_move.int_div. rewrite decide_False by done.
  unfold lift. unfold mbind. simpl. eauto.
Qed.

End rev_propose_returns.

Lemma edge_remove_edge (S : DAGState) a b u v :
  edge (remove_edge S a b) u v ↔ edge S u v ∧ (u, v) ≠ (a, b).
Proof.
  unfold edge, remove_edge; simpl. rewrite elem_of_difference, elem_of_singleton. done.
Qed.

Lemma length_parents_size (S : DAGState) (v : nat) :
  length (parents S v) = size (frozenset (parents S v)).
Proof.
  unfold frozenset. rewrite size_list_to_set; [done|]. apply NoDup_filter, NoDup_seq.
Qed.

Lemma elem_of_frozenset_parents (S : DAGState) (x v : nat) :
  in_range S → x ∈ frozenset (parents S v) ↔ edge S x v.
Proof. intros HS. unfold frozenset. by rewrite elem_of_list_to_set, elem_of_parents. Qed.

Section basic_propose_returns.
Context {F : Type} `{!Floating F} `{!SaneWeights F}.

Lemma basic_propose_returns (h : store) (state : obj) (S : DAGState)
    (score_fn : nat * list nat → F) (scores : list (ParentSetDistribution F))
    (r0 r1 : nat) :
  h !! state = Some S →
  in_range S → acyclic S → fan_in_respected S (fan_in_ S) →
  get_parent_set_distributions (shape S) (fan_in_ S) score_fn None = inr scores →
  (basic_move.moves S).1 ++ (basic_move.moves S).2 ≠ [] →
  ∃ h' res, basic_move.propose state (basic_move.moves S) scores r0 r1 h
            = (h', inr res).
Proof.
  intros Hstate HS Hcyc Hfan Hscores Hne.
  set (arcs := basic_move.moves S) in *.
  set (a := length arcs.1). set (d := length arcs.2).
  assert (Had : 0 < a + d).
  { unfold a, d. destruct arcs.1, arcs.2; simpl in *; [done|lia..]. }
  set (p := (λ c, fdiv (of_nat c) (of_nat (a + d))) <$> [a; d]).
  assert (Hp : ∀ i x, p !! i = Some x → fpos x = true →
                 i = 0 ∧ 0 < a ∨ i = 1 ∧ 0 < d).
  { intros [|[|i]] x; simpl; [| |done].
    - intros [= <-]. rewrite ratio_pos by done. intros ?%bool_decide_eq_true. by left.
    - intros [= <-]. rewrite ratio_pos by done. intros ?%bool_decide_eq_true. by right. }
  assert (Hmove : ∃ move, choice_p p r0 = inr move).
  { destruct (decide (0 < a)).
    - apply (choice_p_returns p (fdiv (of_nat a) (of_nat (a + d)))); [left|].
      rewrite ratio_pos by done. by apply bool_decide_eq_true.
    - apply (choice_p_returns p (fdiv (of_nat d) (of_nat (a + d)))); [right; left|].
      rewrite ratio_pos by done. apply bool_decide_eq_true. lia. }
  destruct Hmove as [move Hmove].
  destruct (choice_p_positive _ _ _ Hmove) as (w & Hw & Hwpos).
  specialize (Hp move w Hw Hwpos). clear w Hw Hwpos.
  unfold basic_move.propose.
  rewrite mbind_new_copy, (list_lookup_total_correct _ _ _ Hstate). unfold copy.
  fold a d p. rewrite (mbind_lift _ move) by done.
  assert (Hbranch : ∃ u v S',
    in_range S' ∧ shape S' = shape S ∧ v < shape S ∧
    (∀ x, edge S' x v → x ≠ v) ∧
    size (frozenset (parents S' v)) ≤ fan_in_ S ∧
    basic_move._n_adds S' (fan_in_ S) + basic_move._n_deletes S' ≠ 0 ∧
    (if decide (move = 0) then
       exec k <- lift (choice a r1);
       exec uv <- lift (index arcs.1 k);
       exec _ <- mutate (length h) (λ S, add_edge S uv.1 uv.2);
       mret uv
     else
       exec k <- lift (choice d r1);
       exec uv <- lift (index arcs.2 k);
       exec _ <- mutate (length h) (λ S, remove_edge S uv.1 uv.2);
       mret uv) (h ++ [S]) = (h ++ [S'], inr (u, v))).
  { destruct Hp as [[-> Ha]|[-> Hd]].
    - rewrite decide_True by done. destruct (lookup_lt_is_Some_2 arcs.1 (r1 mod a)) as [[u v] Huv].
      { apply Nat.mod_upper_bound. lia. }
      pose proof Huv as Hin%list_elem_of_lookup_2.
      apply elem_of_nonzero in Hin as (Hu & Hv & Hin).
      apply (add_matrix_nonzero S _ u v HS Hcyc) in Hin as (Huv' & Hnedge & Hnr & Hlt).
      set (S' := add_edge S u v).
      assert (HS' : in_range S').
      { intros x y [Hxy|[= -> ->]]%edge_add_edge; [by apply HS|done]. }
      exists u, v, S'. split; [done|]. split; [done|]. split; [done|]. split; [|split; [|split]].
      + intros x [Hx'|[= ->]]%edge_add_edge; [|done].
        intros ->. by apply (Hcyc v), tc_once.
      + assert (Hsub : frozenset (parents S' v) ⊆ {[u]} ∪ frozenset (parents S v)).
        { intros x Hx'%(elem_of_frozenset_parents S' x v HS')%edge_add_edge.
          apply elem_of_union. destruct Hx' as [Hx'|[= ->]].
          - right. by apply elem_of_frozenset_parents.
          - left. by apply elem_of_singleton. }
        apply subseteq_size in Hsub.
        pose proof (size_union_alt {[u]} (frozenset (parents S v))) as Hun.
        pose proof (subseteq_size (frozenset (parents S v) ∖ {[u]})
                      (frozenset (parents S v))) as Hdiff.
        rewrite size_singleton in Hun. rewrite (length_parents_size S v) in Hlt.
        assert (size (frozenset (parents S v) ∖ {[u]}) ≤ size (frozenset (parents S v))).
        { apply Hdiff. apply subseteq_difference_l. done. }
        lia.
      + assert (Hin : (u, v) ∈ nonzero (shape S') (adj_matrix S')).
        { apply elem_of_delete_arcs; [done|]. apply edge_add_edge. by right. }
        unfold basic_move._n_deletes.
        destruct (nonzero (shape S') (adj_matrix S')); [by apply elem_of_nil in Hin|].
        simpl. lia.
      + rewrite (mbind_lift _ (r1 mod a)) by (unfold choice; rewrite decide_False; [done|lia]).
        rewrite (mbind_lift _ (u, v)) by by apply index_inr.
        rewrite mbind_mutate, store_read_new, store_write_new. done.
    - rewrite decide_False by done.
      destruct (lookup_lt_is_Some_2 arcs.2 (r1 mod d)) as [[u v] Huv].
      { apply Nat.mod_upper_bound. lia. }
      pose proof Huv as Hin%list_elem_of_lookup_2.
      apply (elem_of_delete_arcs S u v HS) in Hin.
      destruct (HS u v Hin) as [Hu Hv].
      set (S' := remove_edge S u v).
      assert (Hsubg : ∀ x y, edge S' x y → edge S x y).
      { by intros x y [? _]%edge_remove_edge. }
      assert (HS' : in_range S') by (intros x y Hxy%Hsubg; by apply HS).
      assert (Hc' : acyclic S') by by apply (acyclic_subgraph S).
      assert (Hneq : u ≠ v) by (intros ->; by apply (Hcyc v), tc_once).
      assert (Hsz : size (frozenset (parents S' v)) < size (frozenset (parents S v))).
      { apply subset_size. split.
        - intros x Hx'%(elem_of_frozenset_parents S' x v HS').
          apply elem_of_frozenset_parents; auto.
        - intros Hsub. assert (Hu' : u ∈ frozenset (parents S' v)).
          { apply Hsub. by apply elem_of_frozenset_parents. }
          apply (elem_of_frozenset_parents S' u v HS'), edge_remove_edge in Hu'.
          by destruct Hu' as [_ Hu']. }
      pose proof (Hfan v Hv) as Hfv. rewrite (length_parents_size S v) in Hfv.
      exists u, v, S'. split; [done|]. split; [done|]. split; [done|]. split; [|split; [|split]].
      + intros x Hx'%Hsubg. intros ->. by apply (Hcyc v), tc_once.
      + lia.
      + assert (Hin' : (u, v) ∈ nonzero (shape S') (basic_move.add_matrix S' (fan_in_ S))).
        { apply elem_of_nonzero. split; [done|]. split; [done|].
          apply (add_matrix_nonzero S' _ u v HS' Hc').
          split; [done|]. split; [|split].
          - intros [_ Hx']%edge_remove_edge. done.
          - intros Hr. apply (Hcyc u). eapply tc_l; [done|].
            by eapply tc_mono.
          - rewrite (length_parents_size S' v). lia. }
        unfold basic_move._n_adds.
        destruct (nonzero (shape S') _); [by apply elem_of_nil in Hin'|].
        simpl. lia.
      + rewrite (mbind_lift _ (r1 mod d)) by (unfold choice; rewrite decide_False; [done|lia]).
        rewrite (mbind_lift _ (u, v)) by by apply index_inr.
        rewrite mbind_mutate, store_read_new, store_write_new. done. }
  destruct Hbranch as (u & v & S' & HS' & Hshape & Hv & Hnoself & Hsz & Hq & Hrun).
  unfold mbind at 1. rewrite Hrun. simpl snd.
  destruct (enumeration_lookup _ _ _ _ v Hscores Hv) as (sv & Hsv & Hkv).
  destruct (getitem_returns sv (frozenset (parents S v))) as [z_old Hzo].
  { apply Hkv, parents_is_candidate; auto. }
  destruct (getitem_returns sv (frozenset (parents S' v))) as [z_new Hzn].
  { apply Hkv. split; [|split; [done|done]].
    intros x Hx'%(elem_of_frozenset_parents S' x v HS'). split; [|by apply Hnoself].
    destruct (HS' x v Hx'). by rewrite <-Hshape. }
  rewrite (mbind_lift _ sv) by by apply index_inr.
  rewrite mbind_query, (store_read_old h state S S' Hstate).
  rewrite (mbind_lift _ z_old) by done.
  rewrite mbind_query, store_read_new.
  rewrite (mbind_lift _ z_new) by done.
  rewrite mbind_query, (store_read_old h state S S' Hstate).
  rewrite mbind_query, store_read_new.
  unfold basic_move.int_div. rewrite decide_False by done.
  unfold lift, mbind. simpl. eauto.
Qed.

End basic_propose_returns.

(** The rational arithmetic of the examples is sane. *)
Lemma rat_sum_pos (l : list Q) :
  l ≠ [] → (∀ x, x ∈ l → (0 < x)%Q) → (0 < foldr Qplus 0%Q l)%Q.
Proof.
  induction l as [|x [|y l] IH]; intros Hne Hpos; [done| |].
  - simpl. rewrite Qplus_0_r. apply Hpos. left.
  - change (foldr Qplus 0%Q (x :: y :: l)) with (x + foldr Qplus 0%Q (y :: l))%Q.
    apply Qlt_le_trans with (x + 0)%Q.
    + rewrite Qplus_0_r. apply Hpos. left.
    + apply Qplus_le_r, Qlt_le_weak, IH; [done|].
      intros z Hz. apply Hpos. by right.
Qed.

Lemma rat_fpos (x : Q) : fpos x = true ↔ (0 < x)%Q.
Proof.
  simpl. rewrite bool_decide_eq_true. unfold Qlt. simpl. lia.
Qed.

Global Instance rat_sane : SaneWeights Q.
Proof.
  split.
  - intros a n Hn. apply eq_true_iff_eq.
    rewrite rat_fpos, bool_decide_eq_true. simpl.
    destruct n as [|n]; [lia|]. unfold Qdiv, Qinv, Qlt, inject_Z. simpl. lia.
  - intros v vs. unfold exp_weights.
    set (c := maximum v vs).
    set (prob := (λ x, fexp (fsub x c)) <$> v :: vs).
    assert (Hprob : ∀ x, x ∈ prob → (0 < x)%Q).
    { intros x (y & -> & _)%list_elem_of_fmap. simpl. by apply Qpower_0_lt. }
    assert (Hz : (0 < fsum prob)%Q) by by apply rat_sum_pos.
    exists (fdiv (fexp (fsub v c)) (fsum prob)). split.
    + apply list_elem_of_fmap. eexists. split; [done|]. left.
    + apply rat_fpos. simpl fdiv. apply Qlt_shift_div_l; [done|].
      rewrite Qmult_0_l. apply Hprob. left.
Qed.

(** ** Edits of a DAG state *)

Lemma parents_ext (S S' : DAGState) (v : nat) :
  shape S' = shape S → (∀ x, edge S' x v ↔ edge S x v) →
  parents S' v = parents S v.
Proof.
  intros Hshape Hedge. unfold parents, nodes_iter. rewrite Hshape.
  apply filter_ext_elem. intros x _. rewrite !edgeb_true. apply Hedge.
Qed.

Lemma length_parents_set (S : DAGState) (v : nat) (ps : pset) :
  in_range S → (∀ x, edge S x v ↔ x ∈ ps) → length (parents S v) = size ps.
Proof.
  intros HS Hps. rewrite length_parents_size.
  by rewrite (parents_after_reversal S ps v HS Hps).
Qed.

Lemma is_dag_ext (S S' : DAGState) :
  shape S' = shape S → (∀ x y, edge S' x y ↔ edge S x y) →
  is_dag S = true → is_dag S' = true.
Proof.
  intros Hshape Hedge [HS Hcyc]%is_dag_spec. apply is_dag_spec. split.
  - intros u v Huv%Hedge. rewrite Hshape. by apply HS.
  - apply (acyclic_subgraph S); [|done]. intros u v. apply Hedge.
Qed.

(** Adding an edge that the acyclicity and fan-in tests allow. *)
Lemma add_edge_valid (S S' : DAGState) (u v fan_in : nat) :
  in_range S → acyclic S → shape S' = shape S →
  (∀ x y, edge S' x y ↔ edge S x y ∨ (x, y) = (u, v)) →
  u < shape S → v < shape S → u ≠ v → ¬ edge S u v → ¬ tc (edge S) v u →
  in_range S' ∧ acyclic S' ∧
  length (parents S' v) = Datatypes.S (length (parents S v)) ∧
  (∀ w, w ≠ v → parents S' w = parents S w).
Proof.
  intros HS Hcyc Hshape Hedge Hu Hv Hne Hnedge Hnr.
  assert (HS' : in_range S').
  { intros x y [Hxy|[= -> ->]]%Hedge; rewrite Hshape; [by apply HS|done]. }
  split; [done|]. split; [|split].
  - apply (acyclic_add_parents S S' {[u]} v); [|done|].
    + intros x y. rewrite Hedge, elem_of_singleton. split.
      * intros [?|[= -> ->]]; [by left|by right].
      * intros [?|[-> ->]]; [by left|by right].
    + intros p ->%elem_of_singleton. done.
  - rewrite (length_parents_set S' v ({[u]} ∪ frozenset (parents S v)) HS').
    + rewrite size_union, size_singleton, <-length_parents_size; [done|].
      apply disjoint_singleton_l.
      by intros Hin%elem_of_frozenset_parents.
    + intros x. rewrite Hedge, elem_of_union, elem_of_singleton,
        (elem_of_frozenset_parents S x v HS).
      split; [intros [?|[= ->]]; auto|intros [->|?]; auto].
  - intros w Hw. apply parents_ext; [done|]. intros x. rewrite Hedge.
    split; [intros [?|[= _ ->]]; done|auto].
Qed.

(** Removing an edge. *)
Lemma remove_edge_valid (S S' : DAGState) (u v : nat) :
  in_range S → acyclic S → shape S' = shape S →
  (∀ x y, edge S' x y ↔ edge S x y ∧ (x, y) ≠ (u, v)) →
  edge S u v →
  in_range S' ∧ acyclic S' ∧
  Datatypes.S (length (parents S' v)) = length (parents S v) ∧
  (∀ w, w ≠ v → parents S' w = parents S w).
Proof.
  intros HS Hcyc Hshape Hedge Huv.
  assert (HS' : in_range S').
  { intros x y [Hxy _]%Hedge. rewrite Hshape. by apply HS. }
  split; [done|]. split; [|split].
  - apply (acyclic_subgraph S); [|done]. by intros x y [? _]%Hedge.
  - rewrite (length_parents_set S' v (frozenset (parents S v) ∖ {[u]}) HS').
    + rewrite (length_parents_size S v).
      assert ({[u]} ⊆ frozenset (parents S v)) as Hsub.
      { apply singleton_subseteq_l. by apply elem_of_frozenset_parents. }
      pose proof (size_union_alt {[u]} (frozenset (parents S v))) as Hun.
      rewrite size_singleton in Hun.
      replace ({[u]} ∪ frozenset (parents S v)) with (frozenset (parents S v)) in Hun
        by (apply set_eq; intros x; rewrite elem_of_union; split; [auto|];
            intros [Hx|Hx]; [by apply Hsub|done]).
      lia.
    + intros x. rewrite Hedge, elem_of_difference, elem_of_singleton,
        (elem_of_frozenset_parents S x v HS).
      split; [intros [? Hn]; split; [done|]; by intros ->|].
      intros [? Hn]. split; [done|]. by intros [= ->].
  - intros w Hw. apply parents_ext; [done|]. intros x. rewrite Hedge.
    split; [tauto|]. intros Hx. split; [done|]. by intros [= _ ->].
Qed.

Lemma fan_in_respected_edit (S S' : DAGState) (v fan_in : nat) :
  shape S' = shape S → fan_in_respected S fan_in →
  length (parents S' v) ≤ fan_in →
  (∀ w, w ≠ v → parents S' w = parents S w) →
  fan_in_respected S' fan_in.
Proof.
  intros Hshape Hfan Hv Hother w Hw. rewrite Hshape in Hw.
  destruct (decide (w = v)) as [->|Hne]; [done|].
  rewrite Hother by done. by apply Hfan.
Qed.

(** The state one edit away from a DAG is a DAG. *)
Lemma basic_edit_is_dag (S S' : DAGState) (u v : nat) :
  in_range S → acyclic S → shape S' = shape S →
  ((u, v) ∈ (basic_move.moves S).1 ∧ ((u, v) ∉ adj S) ∧
     adj S' = {[(u, v)]} ∪ adj S
   ∨ (u, v) ∈ (basic_move.moves S).2 ∧ (u, v) ∈ adj S ∧
     adj S' = adj S ∖ {[(u, v)]}) →
  in_range S' ∧ acyclic S'.
Proof.
  intros HS Hcyc Hshape [(Hin & Hnedge & Hadj)|(Hin & Huv & Hadj)].
  - apply elem_of_nonzero in Hin as (Hu & Hv & Hadd).
    apply (add_matrix_nonzero S _ u v HS Hcyc) in Hadd as (Hne & _ & Hnr & Hlt).
    destruct (add_edge_valid S S' u v (fan_in_ S) HS Hcyc Hshape)
      as (HS' & Hc' & _); try done.
    intros x y. unfold edge. rewrite Hadj, elem_of_union, elem_of_singleton. tauto.
  - destruct (remove_edge_valid S S' u v HS Hcyc Hshape) as (HS' & Hc' & _);
      try done.
    intros x y. unfold edge. rewrite Hadj, elem_of_difference, elem_of_singleton.
    tauto.
Qed.

(** What [_n_adds] and [_n_deletes] count in a DAG state: the pairs that can
    be added under the given fan-in, and the edges, each once. *)
Lemma n_adds_n_deletes_spec (S : DAGState) (fan_in : nat) :
  in_range S → acyclic S →
  ∃ adds dels : list (nat * nat),
    NoDup adds ∧
    (∀ x y, (x, y) ∈ adds ↔
       x < shape S ∧ y < shape S ∧ x ≠ y ∧ ¬ edge S x y ∧
       ¬ tc (edge S) y x ∧ length (parents S y) < fan_in) ∧
    NoDup dels ∧ (∀ x y, (x, y) ∈ dels ↔ edge S x y) ∧
    basic_move._n_adds S fan_in = length adds ∧
    basic_move._n_deletes S = length dels.
Proof.
  intros HS Hcyc.
  exists (nonzero (shape S) (basic_move.add_matrix S fan_in)),
         (nonzero (shape S) (adj_matrix S)).
  split; [apply NoDup_nonzero|]. split.
  { intros x y. rewrite elem_of_nonzero, (add_matrix_nonzero S _ x y HS Hcyc).
    tauto. }
  split; [apply NoDup_nonzero|]. split; [|done].
  intros x y. by apply elem_of_delete_arcs.
Qed.

(** ** The claims on the two moves *)

Section move_claims.
Context {F : Type} `{!Floating F}.

(** C2.  Let [propose] run on the neighbourhood [moves] of the DAG state [S]
    held by the object [state].  If it returns, the object it returns is a
    new one; the store is otherwise unchanged, so [state] still holds [S].
    The new state [S'] differs from [S] by exactly one edge [(u, v)]: an
    addable edge, absent from [S], that was added, or a deletable edge,
    present in [S], that was removed.  The score delta is [z_new - z_old],
    the table entries of the parent sets of [v] in [S'] and in [S], and the
    log acceptance ratio is the score delta plus the logarithm of the
    neighbourhood size of [S] over [q_inv], the number of additions and
    deletions enumerated afresh in [S'] under the fan-in of [S]: [S'] is a
    DAG, [_n_adds] is the length of a list without repetition of exactly the
    pairs [(x, y)] of distinct nodes of [S'] such that [x → y] is no edge of
    [S'], [y] is no ancestor of [x] in [S'] and [y] has fewer parents in
    [S'] than the fan-in of [S], and [_n_deletes] is the length of a list
    without repetition of exactly the edges of [S'].  And it does return
    when the neighbourhood is not empty, the state respects its fan-in, the
    tables are those the enumeration builds for this fan-in and the
    arithmetic is sane. *)
Theorem basic_propose_one_edge (h : store) (state : obj) (S : DAGState)
    (score_fn : nat * list nat → F) (scores : list (ParentSetDistribution F))
    (r0 r1 : nat)
    (Hstate : h !! state = Some S)
    (Hdag : is_dag S = true) :
  (∀ h' new_state acceptance z_ratio,
     basic_move.propose state (basic_move.moves S) scores r0 r1 h
       = (h', inr (new_state, acceptance, z_ratio)) →
     ∃ (S' : DAGState) (u v : nat) (sv : ParentSetDistribution F) (z_old z_new : F)
       (adds dels : list (nat * nat)),
       h' = h ++ [S'] ∧ new_state = length h ∧ h' !! state = Some S ∧
       shape S' = shape S ∧
       ((u, v) ∈ (basic_move.moves S).1 ∧ ((u, v) ∉ adj S) ∧
          adj S' = {[(u, v)]} ∪ adj S
        ∨ (u, v) ∈ (basic_move.moves S).2 ∧ (u, v) ∈ adj S ∧
          adj S' = adj S ∖ {[(u, v)]}) ∧
       scores !! v = Some sv ∧
       getitem sv (frozenset (parents S v)) = inr z_old ∧
       getitem sv (frozenset (parents S' v)) = inr z_new ∧
       z_ratio = fsub z_new z_old ∧
       acceptance =
         fadd z_ratio
           (flog (fdiv (of_nat (length (basic_move.moves S).1
                                + length (basic_move.moves S).2))
                       (of_nat (basic_move._n_adds S' (fan_in_ S)
                                + basic_move._n_deletes S')))) ∧
       is_dag S' = true ∧
       NoDup adds ∧
       (∀ x y, (x, y) ∈ adds ↔
          x < shape S' ∧ y < shape S' ∧ x ≠ y ∧ ¬ edge S' x y ∧
          ¬ tc (edge S') y x ∧ length (parents S' y) < fan_in_ S) ∧
       NoDup dels ∧ (∀ x y, (x, y) ∈ dels ↔ edge S' x y) ∧
       basic_move._n_adds S' (fan_in_ S) = length adds ∧
       basic_move._n_deletes S' = length dels) ∧
  (SaneWeights F →
   fan_in_respected S (fan_in_ S) →
   get_parent_set_distributions (shape S) (fan_in_ S) score_fn None = inr scores →
   (basic_move.moves S).1 ++ (basic_move.moves S).2 ≠ [] →
   ∃ h' res, basic_move.propose state (basic_move.moves S) scores r0 r1 h
             = (h', inr res)).
Proof.
  split.
  - intros h' new_state acceptance z_ratio Hrun.
    destruct (basic_propose_run h h' state new_state S scores r0 r1 _ _
                Hstate Hdag Hrun)
      as (S' & u & v & sv & z_old & z_new & Hh' & Hnew & Hkeep & Hshape & Hedit
          & Hsv & Hold & Hznew & Hratio & Hacc).
    apply is_dag_spec in Hdag as [HS Hcyc].
    destruct (basic_edit_is_dag S S' u v HS Hcyc Hshape Hedit) as [HS' Hc'].
    destruct (n_adds_n_deletes_spec S' (fan_in_ S) HS' Hc')
      as (adds & dels & Hnd_a & Hadds & Hnd_d & Hdels & Hna & Hnd).
    exists S', u, v, sv, z_old, z_new, adds, dels.
    repeat (split; [done|]).
    split; [by apply is_dag_spec|]. done.
  - intros Hsane Hfan Hscores Hne. apply is_dag_spec in Hdag as [HS Hcyc].
    by apply (basic_propose_returns h state S score_fn).
Qed.

(** C4.  Let [propose] run on the edges [moves] of an acyclic state [S],
    with tables whose keys are in range as the enumeration builds them.  If
    it returns, the state [S'] of the new object it returns is again
    acyclic, the chosen edge [(i, j)] of [S] is not an edge of [S'], and [j]
    is one of the parents of [i] in [S'].  And it does return when [S] has an
    edge and respects its fan-in, the tables are those the enumeration
    builds for this fan-in and the arithmetic is sane. *)
Theorem rev_propose_acyclic (h : store) (state : obj) (S : DAGState)
    (score_fn : nat * list nat → F) (scores : list (ParentSetDistribution F))
    (r0 r1 r2 : nat)
    (Hstate : h !! state = Some S)
    (Hdag : is_dag S = true)
    (Hkeys : keys_in_range (shape S) scores) :
  (∀ h' new_state acceptance score_diff,
     rev_move.propose state (rev_move.moves S) scores r0 r1 r2 h
       = (h', inr (new_state, acceptance, score_diff)) →
     ∃ (S' : DAGState) (i j : nat),
       rev_move.moves S !! (r0 mod length (rev_move.moves S)) = Some (i, j) ∧
       edge S i j ∧
       h' = h ++ [S'] ∧ new_state = length h ∧
       is_dag S' = true ∧ ¬ edge S' i j ∧ j ∈ parents S' i) ∧
  (SaneWeights F →
   fan_in_respected S (fan_in_ S) →
   get_parent_set_distributions (shape S) (fan_in_ S) score_fn None = inr scores →
   adj S ≠ ∅ →
   ∃ h' res, rev_move.propose state (rev_move.moves S) scores r0 r1 r2 h
             = (h', inr res)).
Proof.
  split.
  - intros h' new_state acceptance score_diff Hrun.
    by apply (rev_propose_acyclic_run h h' state new_state S scores r0 r1 r2
                acceptance score_diff).
  - intros Hsane Hfan Hscores Hne. apply is_dag_spec in Hdag as [HS Hcyc].
    by apply (rev_propose_returns h state S score_fn).
Qed.

(** C1.  In the same setting, if [propose] returns, the log acceptance ratio
    it returns is
    [(z_star_i + z_j - z_star_j - z_i) + log(n_edges(S) / n_edges(S'))],
    where [(i, j)] is the chosen edge, [z_i] is [log_z] of [i]'s table over
    the sets disjoint from the descendants of [i] in [S], [z_star_j] is
    [log_z] of [j]'s table over the sets that contain [i] and are disjoint
    from the descendants of [j] in [S], [z_star_i] is reported by [sample]
    on [i]'s table over the sets that contain [j] and are disjoint from the
    descendants of [i] in the orphaned copy, and [z_j] by [sample] on [j]'s
    table over the sets disjoint from the descendants of [j] once [i] has
    its new parents.  And it does return under the conditions of C4. *)
Theorem rev_propose_acceptance_ratio (h : store) (state : obj) (S : DAGState)
    (score_fn : nat * list nat → F) (scores : list (ParentSetDistribution F))
    (r0 r1 r2 : nat)
    (Hstate : h !! state = Some S)
    (Hdag : is_dag S = true)
    (Hkeys : keys_in_range (shape S) scores) :
  (∀ h' new_state acceptance score_diff,
     rev_move.propose state (rev_move.moves S) scores r0 r1 r2 h
       = (h', inr (new_state, acceptance, score_diff)) →
     ∃ (i j : nat) (si sj : ParentSetDistribution F)
       (z_i z_star_j z_star_i z_j : F) (ps_i ps_j : pset) (S' : DAGState),
       let S1 := orphan S [i; j] in
       let S2 := add_edges S1 (rev_move.product ps_i i) in
       rev_move.moves S !! (r0 mod size (adj S)) = Some (i, j) ∧
       scores !! i = Some si ∧ scores !! j = Some sj ∧
       log_z si (λ ps, rev_move.isdisjoint ps (frozenset (descendants S i)))
         = inr z_i ∧
       log_z sj (λ ps, rev_move.member i ps
                       && rev_move.isdisjoint ps (frozenset (descendants S j)))
         = inr z_star_j ∧
       sample si (λ ps, rev_move.member j ps
                        && rev_move.isdisjoint ps (frozenset (descendants S1 i))) r1
         = inr (ps_i, z_star_i) ∧
       sample sj (λ ps, rev_move.isdisjoint ps (frozenset (descendants S2 j))) r2
         = inr (ps_j, z_j) ∧
       h' !! new_state = Some S' ∧
       S' = add_edges S2 (rev_move.product ps_j j) ∧
       0 < size (adj S) ∧ 0 < size (adj S') ∧
       acceptance =
         fadd (fsub (fsub (fadd z_star_i z_j) z_star_j) z_i)
              (flog (fdiv (of_nat (size (adj S))) (of_nat (size (adj S')))))) ∧
  (SaneWeights F →
   fan_in_respected S (fan_in_ S) →
   get_parent_set_distributions (shape S) (fan_in_ S) score_fn None = inr scores →
   adj S ≠ ∅ →
   ∃ h' res, rev_move.propose state (rev_move.moves S) scores r0 r1 r2 h
             = (h', inr res)).
Proof.
  split.
  - intros h' new_state acceptance score_diff Hrun.
    by apply (rev_propose_ratio_run h h' state new_state S scores r0 r1 r2
                acceptance score_diff).
  - intros Hsane Hfan Hscores Hne. apply is_dag_spec in Hdag as [HS Hcyc].
    by apply (rev_propose_returns h state S score_fn).
Qed.

End move_claims.

Lemma dag_example_fan_in : fan_in_respected dag_example (fan_in_ dag_example).
Proof.
  intros v Hv. simpl in Hv.
  destruct v as [|[|[|v]]]; [vm_compute; lia..|lia].
Qed.

Lemma scores_example_enumeration :
  get_parent_set_distributions (shape dag_example) (fan_in_ dag_example)
    score_example None = inr scores_example.
Proof. reflexivity. Qed.

Lemma basic_propose_one_edge_witness :
  (∃ h' res, basic_move.propose 0 (basic_move.moves dag_example) scores_example
               1 1 [dag_example] = (h', inr res)) ∧
  ∃ (S' : DAGState) (u v : nat) (adds dels : list (nat * nat)),
    [dag_example; mkDAG 3 {[ (0, 1) ]} 2] = [dag_example] ++ [S'] ∧
    ((u, v) ∈ (basic_move.moves dag_example).1 ∧ ((u, v) ∉ adj dag_example) ∧
       adj S' = {[(u, v)]} ∪ adj dag_example
     ∨ (u, v) ∈ (basic_move.moves dag_example).2 ∧ (u, v) ∈ adj dag_example ∧
       adj S' = adj dag_example ∖ {[(u, v)]}) ∧
    NoDup adds ∧ NoDup dels ∧ (∀ x y, (x, y) ∈ dels ↔ edge S' x y) ∧
    basic_move._n_adds S' (fan_in_ dag_example) = length adds ∧
    basic_move._n_deletes S' = length dels.
Proof.
  destruct (basic_propose_one_edge [dag_example] 0 dag_example score_example
              scores_example 1 1 eq_refl eq_refl) as [Hpost Hreturns].
  split.
  - apply Hreturns;
      [apply rat_sane|apply dag_example_fan_in|apply scores_example_enumeration|].
    vm_compute. discriminate.
  - assert (Hrun : basic_move.propose 0 (basic_move.moves dag_example)
                     scores_example 1 1 [dag_example]
                   = ([dag_example; mkDAG 3 {[ (0, 1) ]} 2], inr (1, (-1)%Q, (-1)%Q))).
    { vm_compute. reflexivity. }
    destruct (Hpost _ _ _ _ Hrun)
      as (S' & u & v & sv & z_old & z_new & adds & dels & H1 & _ & _ & _ & H2
          & _ & _ & _ & _ & _ & _ & H3 & _ & H4 & H5 & H6 & H7).
    by exists S', u, v, adds, dels.
Defined.

Lemma rev_propose_acyclic_witness :
  (∃ h' res, rev_move.propose 0 (rev_move.moves dag_example) scores_example
               0 0 0 [dag_example] = (h', inr res)) ∧
  ∃ (S' : DAGState) (i j : nat),
    rev_move.moves dag_example !! (0 mod length (rev_move.moves dag_example))
      = Some (i, j) ∧
    edge dag_example i j ∧
    [dag_example; mkDAG 3 {[ (1, 0); (1, 2) ]} 2] = [dag_example] ++ [S'] ∧
    1 = length [dag_example] ∧
    is_dag S' = true ∧ ¬ edge S' i j ∧ j ∈ parents S' i.
Proof.
  destruct (rev_propose_acyclic [dag_example] 0 dag_example score_example
              scores_example 0 0 0 eq_refl eq_refl scores_example_keys)
    as [Hpost Hreturns].
  split.
  - apply Hreturns;
      [apply rat_sane|apply dag_example_fan_in|apply scores_example_enumeration|].
    vm_compute. discriminate.
  - exact (Hpost _ _ _ _ rev_propose_example).
Defined.

Lemma rev_propose_acceptance_ratio_witness :
  ∃ (i j : nat) (z_i z_star_j z_star_i z_j : Q) (S' : DAGState),
    rev_move.moves dag_example !! (0 mod size (adj dag_example)) = Some (i, j) ∧
    1%Q = (z_star_i + z_j - z_star_j - z_i
           + inject_Z (Z.log2 (Qfloor (inject_Z (Z.of_nat (size (adj dag_example)))
                                       / inject_Z (Z.of_nat (size (adj S')))))))%Q.
Proof.
  destruct (rev_propose_acceptance_ratio [dag_example] 0 dag_example score_example
              scores_example 0 0 0 eq_refl eq_refl scores_example_keys)
    as [Hpost _].
  destruct (Hpost _ _ _ _ rev_propose_example)
    as (i & j & si & sj & z_i & z_star_j & z_star_i & z_j & ps_i & ps_j & S' &
        Harc & _ & _ & _ & _ & _ & _ & _ & _ & _ & _ & Hacc).
  by exists i, j, z_i, z_star_j, z_star_i, z_j, S'.
Defined.

(** * Further properties

    Properties of the code beyond those the specification states. *)

(** ** Tables and their lookups *)

Section table_facts.
Context {F : Type} `{!Floating F}.
Implicit Types (d : ParentSetDistribution F) (condition : pset → bool).

Lemma od_get_not_elem (t : odict F) (k : pset) :
  k ∉ t.*1 → od_get t k = inl KeyError.
Proof.
  induction t as [|[k' v'] t IH]; simpl; [done|].
  intros Hk. apply not_elem_of_cons in Hk as [Hne Hk].
  case_decide; [congruence|auto].
Qed.

Lemma od_get_od_set (t : odict F) (k k' : pset) (v : F) :
  od_get (od_set k v t) k' = if decide (k = k') then inr v else od_get t k'.
Proof.
  induction t as [|[k0 v0] t IH]; simpl.
  - repeat case_decide; done.
  - destruct (decide (k0 = k)) as [->|Hne]; simpl.
    + repeat case_decide; try done.
    + rewrite IH. repeat case_decide; try done; congruence.
Qed.

Lemma od_set_keys (t : odict F) (k k' : pset) (v : F) :
  k' ∈ (od_set k v t).*1 ↔ k' = k ∨ k' ∈ t.*1.
Proof.
  induction t as [|[k0 v0] t IH]; simpl.
  - rewrite list_elem_of_singleton, elem_of_nil. tauto.
  - case_decide; subst; simpl; rewrite ?elem_of_cons, ?IH; tauto.
Qed.

Lemma od_set_NoDup (t : odict F) (k : pset) (v : F) :
  NoDup t.*1 → NoDup (od_set k v t).*1.
Proof.
  induction t as [|[k0 v0] t IH]; simpl.
  - intros _. apply NoDup_singleton.
  - intros [Hk0 Hnd]%NoDup_cons. case_decide; subst; simpl.
    + by apply NoDup_cons.
    + apply NoDup_cons. split; [|auto].
      rewrite od_set_keys. intros [->|?]; done.
Qed.

Lemma od_of_pairs_snoc (kvs : list (pset * F)) (k : pset) (v : F) :
  od_of_pairs (kvs ++ [(k, v)]) = od_set k v (od_of_pairs kvs).
Proof. unfold od_of_pairs. by rewrite foldl_app. Qed.

Lemma od_of_pairs_keys_NoDup (kvs : list (pset * F)) : NoDup (od_of_pairs kvs).*1.
Proof.
  induction kvs as [|[k v] kvs IH] using rev_ind; [apply NoDup_nil_2|].
  rewrite od_of_pairs_snoc. by apply od_set_NoDup.
Qed.

Lemma od_of_pairs_keys (kvs : list (pset * F)) (k : pset) :
  k ∈ (od_of_pairs kvs).*1 ↔ k ∈ kvs.*1.
Proof.
  induction kvs as [|[k0 v0] kvs IH] using rev_ind; [done|].
  rewrite od_of_pairs_snoc, od_set_keys, fmap_app, elem_of_app, IH. simpl.
  rewrite list_elem_of_singleton. tauto.
Qed.

(** The value of a key is the one of its last pair. *)
Lemma od_of_pairs_last (kvs : list (pset * F)) (i : nat) (k : pset) (v : F) :
  kvs !! i = Some (k, v) →
  (∀ j kv, i < j → kvs !! j = Some kv → kv.1 ≠ k) →
  od_get (od_of_pairs kvs) k = inr v.
Proof.
  revert i. induction kvs as [|[k0 v0] kvs IH] using rev_ind; intros i Hi Hlast.
  - done.
  - rewrite od_of_pairs_snoc, od_get_od_set.
    destruct (decide (i < length kvs)) as [Hlt|Hge].
    + rewrite lookup_app_l in Hi by done.
      assert (k0 ≠ k) as Hne.
      { apply (Hlast (length kvs) (k0, v0)); [done|].
        rewrite lookup_app_r, Nat.sub_diag by done. done. }
      case_decide; [done|].
      apply (IH i); [done|]. intros j kv Hj Hkv.
      apply (Hlast j kv); [done|].
      apply lookup_lt_Some in Hkv as Hjl. by rewrite lookup_app_l.
    + apply lookup_lt_Some in Hi as Hil. rewrite length_app in Hil. simpl in Hil.
      assert (i = length kvs) as -> by lia.
      rewrite lookup_app_r, Nat.sub_diag in Hi by done. simpl in Hi.
      injection Hi as -> ->. by case_decide.
Qed.

Lemma ParentSetDistribution_init_inr (var : nat) (psets : list (list nat))
    (probabilities : list F) :
  psets ≠ [] →
  ParentSetDistribution_init var psets probabilities
  = inr (mkPSD var (od_of_pairs
                      (zip (list_to_set <$> psets : list pset) probabilities))).
Proof. by destruct psets. Qed.

End table_facts.

Section table_properties.
Context {F : Type} `{!Floating F}.
Implicit Types (d : ParentSetDistribution F) (condition : pset → bool).

(** X1.  [ParentSetDistribution.__getitem__] returns a score stored under
    the given set when the set is a key of the table, and raises [KeyError]
    when it is not; it raises nothing else. *)
Theorem getitem_raises_key_error_iff d (item : pset) :
  (item ∈ (table d).*1 → ∃ v, getitem d item = inr v ∧ (item, v) ∈ table d) ∧
  (item ∉ (table d).*1 → getitem d item = inl KeyError) ∧
  (∀ e, getitem d item = inl e → e = KeyError ∧ item ∉ (table d).*1).
Proof.
  unfold getitem. split; [|split].
  - intros Hin. destruct (od_get_is_inr _ _ Hin) as [v Hv].
    exists v. split; [done|]. by apply od_get_elem.
  - apply od_get_not_elem.
  - intros e He.
    destruct (decide (item ∈ (table d).*1)) as [Hin|Hout].
    + destruct (od_get_is_inr _ _ Hin) as [v Hv]. congruence.
    + rewrite od_get_not_elem in He by done. by injection He as <-.
Qed.

(** X2.  [ParentSetDistribution.__init__] builds an [OrderedDict]: the keys
    of the table are pairwise distinct, they are the frozensets of the
    parent sets that have a probability at their position (the zip stops
    at the shorter sequence), and a set given several times, as a tuple in
    any order, is looked up with the probability of its last position. *)
Theorem init_keeps_last_probability (var : nat) (parent_sets : list (list nat))
    (probabilities : list F) d
    (Hinit : ParentSetDistribution_init var parent_sets probabilities = inr d) :
  var_name d = var ∧
  NoDup (table d).*1 ∧
  (∀ k, k ∈ (table d).*1 ↔
        ∃ i ps, i < length probabilities ∧ parent_sets !! i = Some ps ∧
                k = list_to_set ps) ∧
  (∀ i ps p,
     parent_sets !! i = Some ps → probabilities !! i = Some p →
     (∀ j ps', i < j → j < length probabilities → parent_sets !! j = Some ps' →
               list_to_set ps' ≠@{pset} list_to_set ps) →
     getitem d (list_to_set ps) = inr p).
Proof.
  assert (d = mkPSD var (od_of_pairs
            (zip (list_to_set <$> parent_sets : list pset) probabilities))) as ->.
  { unfold ParentSetDistribution_init in Hinit.
    destruct parent_sets; [discriminate|]. by injection Hinit as <-. }
  clear Hinit. rename parent_sets into pss. simpl var_name. simpl table.
  split; [done|]. split; [apply od_of_pairs_keys_NoDup|]. split.
  - intros k. rewrite od_of_pairs_keys, list_elem_of_fmap. split.
    + intros ([k' v] & -> & Hin). apply list_elem_of_lookup in Hin as [i Hi].
      apply lookup_zip_with_Some in Hi as (x & y & [= <- <-] & Hx & Hy).
      apply list_lookup_fmap_Some in Hx as (ps & -> & Hps).
      exists i, ps. split; [by eapply lookup_lt_Some|done].
    + intros (i & ps & Hi & Hps & ->).
      destruct (lookup_lt_is_Some_2 probabilities i Hi) as [p Hp].
      exists (list_to_set ps, p). split; [done|].
      apply list_elem_of_lookup. exists i.
      apply lookup_zip_with_Some. exists (list_to_set ps), p.
      split; [done|]. split; [|done]. by rewrite list_lookup_fmap, Hps.
  - intros i ps p Hps Hp Hlast. unfold getitem. simpl.
    apply (od_of_pairs_last _ i).
    + apply lookup_zip_with_Some. exists (list_to_set ps), p.
      split; [done|]. split; [|done]. by rewrite list_lookup_fmap, Hps.
    + intros j [k' v'] Hij Hj. simpl.
      apply lookup_zip_with_Some in Hj as (x & y & [= <- <-] & Hx & Hy).
      apply list_lookup_fmap_Some in Hx as (ps' & -> & Hps').
      apply (Hlast j ps'); [done| |done]. by eapply lookup_lt_Some.
Qed.

(** X3.  What [ParentSetDistribution.sample] returns under a condition is a
    key of the table that satisfies the condition, so it can be looked up,
    and the normaliser returned with it is the value of [log_z] under the
    same condition, whatever the draw. *)
Theorem sample_returns_admissible_key d condition (r : nat) (ps : pset) (z : F)
    (Hsample : sample d condition r = inr (ps, z)) :
  ps ∈ (table d).*1 ∧ condition ps = true ∧
  (∃ v, getitem d ps = inr v) ∧
  log_z d condition = inr z ∧
  (∀ r' ps' z', sample d condition r' = inr (ps', z') → z' = z).
Proof.
  destruct (sample_condition _ _ _ _ _ Hsample) as [Hin Hc].
  split; [done|]. split; [done|]. split; [by apply getitem_returns|].
  pose proof (sample_log_z _ _ _ _ _ Hsample) as Hz. split; [done|].
  intros r' ps' z' H'. apply sample_log_z in H'. congruence.
Qed.

(** X4.  [ParentSetDistribution.log_z] under a condition returns exactly
    when some key of the table satisfies the condition; the only exception
    it raises is [ValueError], and [sample] returns only in the same case. *)
Theorem log_z_returns_iff d condition :
  ((∃ z, log_z d condition = inr z) ↔
   ∃ k, k ∈ (table d).*1 ∧ condition k = true) ∧
  (∀ e, log_z d condition = inl e → e = ValueError) ∧
  (∀ r res, sample d condition r = inr res →
     ∃ k, k ∈ (table d).*1 ∧ condition k = true).
Proof.
  split; [split|split].
  - intros [z Hz]. unfold log_z in Hz.
    destruct (conditioned d condition) as [|[k v] kvs] eqn:Hsel; [discriminate|].
    assert ((k, v) ∈ conditioned d condition) as Hin by (rewrite Hsel; left).
    apply conditioned_elem in Hin as [Hin Hc].
    exists k. split; [|done]. apply list_elem_of_fmap. by exists (k, v).
  - intros (k & Hin & Hc). by apply (log_z_returns d condition k).
  - intros e He. unfold log_z in He.
    destruct ((conditioned d condition).*2) as [|v [|v' l]]; try discriminate.
    by injection He as <-.
  - intros r [ps z] Hs. apply sample_condition in Hs as [Hin Hc]. eauto.
Qed.

End table_properties.

(** ** The enumeration, filtered and looked up *)

Section enumeration_properties.
Context {F : Type} `{!Floating F}.

Lemma collect_inr_fmap {A B : Type} (f : A → result B) (g : A → B) (l : list A)
    (ys : list B) :
  collect f l = inr ys → (∀ x y, x ∈ l → f x = inr y → y = g x) → ys = g <$> l.
Proof.
  revert ys. induction l as [|x l IH]; intros ys; simpl.
  - by intros [= <-].
  - intros (y & Hy & (ys' & Hys' & [= <-])%bind_inr)%bind_inr Hg.
    csimpl. f_equal.
    + apply Hg; [left|done].
    + apply IH; [done|]. intros x' y' Hx'. apply Hg. by right.
Qed.

(** The tables of a call that returns, variable by variable. *)
Lemma enumeration_tables (n fan_in : nat) (score_fn : nat * list nat → F)
    condition (scores : list (ParentSetDistribution F)) :
  get_parent_set_distributions n fan_in score_fn condition = inr scores →
  scores = (λ v, mkPSD v ((λ s, (list_to_set s, score_fn (v, s)))
                            <$> var_psets n fan_in condition v)) <$> seq 0 n.
Proof.
  intros Hget. apply (collect_inr_fmap _ _ _ _ Hget).
  intros v d _ Hd.
  assert (Hne : var_psets n fan_in condition v ≠ []).
  { intros Hnil. rewrite parent_set_distribution_unfold, Hnil in Hd. done. }
  rewrite (parent_set_distribution_inr n fan_in score_fn condition v Hne) in Hd.
  by injection Hd as <-.
Qed.

Lemma var_psets_filter (n fan_in : nat) (condition : nat → list nat → bool) (v : nat) :
  var_psets n fan_in (Some condition) v
  = filter (λ s, condition v s = true) (var_psets n fan_in None v).
Proof.
  unfold var_psets. rewrite list_filter_filter.
  apply filter_ext_elem. intros s _. simpl. tauto.
Qed.

Lemma filter_fmap_elem {A B : Type} (f : A → B) (P : B → Prop) (Q : A → Prop)
    `{!∀ y, Decision (P y), !∀ x, Decision (Q x)} (l : list A) :
  (∀ x, x ∈ l → P (f x) ↔ Q x) → filter P (f <$> l) = f <$> filter Q l.
Proof.
  induction l as [|x l IH]; intros HPQ; [done|].
  csimpl. rewrite !filter_cons.
  assert (P (f x) ↔ Q x) as Hx by (apply HPQ; left).
  rewrite IH by (intros y Hy; apply HPQ; by right).
  destruct (decide (P (f x))), (decide (Q x)); try tauto; done.
Qed.

(** X7.  A feasibility predicate only removes entries: when
    [get_parent_set_distributions] returns under a predicate, it also
    returns without one, and the table of each variable is the table built
    without the predicate restricted to the sets the predicate accepts,
    with the same scores in the same order. *)
Theorem filtered_enumeration_restricts (n fan_in : nat)
    (score_fn : nat * list nat → F) (condition : nat → list nat → bool)
    (dists : list (ParentSetDistribution F))
    (Hret : get_parent_set_distributions n fan_in score_fn (Some condition)
            = inr dists) :
  ∃ full,
    get_parent_set_distributions n fan_in score_fn None = inr full ∧
    length dists = n ∧ length full = n ∧
    ∀ v, v < n → ∃ d d0,
      dists !! v = Some d ∧ full !! v = Some d0 ∧
      table d = filter (λ kv, condition v (sorted_tuple n kv.1) = true) (table d0).
Proof.
  apply enumeration_tables in Hret as ->.
  set (g := λ v, mkPSD v ((λ s, (list_to_set s, score_fn (v, s)))
                            <$> var_psets n fan_in None v)).
  exists (g <$> seq 0 n). split; [|split; [|split]].
  - apply collect_inr. intros u _. apply parent_set_distribution_inr.
    eapply var_psets_nonempty, empty_set_is_candidate.
  - by rewrite length_fmap, length_seq.
  - by rewrite length_fmap, length_seq.
  - intros v Hv. eexists _, (g v). split; [|split].
    + by rewrite list_lookup_fmap, lookup_seq_lt.
    + by rewrite list_lookup_fmap, lookup_seq_lt.
    + unfold g. simpl. rewrite var_psets_filter. symmetry.
      apply filter_fmap_elem. intros s (Hs & _)%elem_of_var_psets. simpl.
      by rewrite sorted_tuple_list_to_set.
Qed.

Lemma parents_sublist (S : DAGState) (v : nat) :
  parents S v `sublist_of` seq 0 (shape S).
Proof. apply sublist_filter. Qed.

(** X8.  The tables built without a feasibility predicate, looked up with
    the current parents of a node of a DAG state over the same variables:
    the lookup returns [score_fn] of the node and the tuple of its parents
    in increasing order when the node has at most [fan_in] parents, and
    raises [KeyError] when it has more. *)
Theorem lookup_of_current_parents (fan_in : nat) (score_fn : nat * list nat → F)
    (scores : list (ParentSetDistribution F)) (S : DAGState) (v : nat)
    (Henum : get_parent_set_distributions (shape S) fan_in score_fn None
             = inr scores)
    (Hdag : is_dag S = true) (Hv : v < shape S) :
  ∃ d, scores !! v = Some d ∧
    (length (parents S v) ≤ fan_in →
       getitem d (frozenset (parents S v)) = inr (score_fn (v, parents S v))) ∧
    (fan_in < length (parents S v) →
       getitem d (frozenset (parents S v)) = inl KeyError).
Proof.
  apply is_dag_spec in Hdag as [Hrange Hcyc].
  apply enumeration_tables in Henum as ->.
  eexists. split; [by rewrite list_lookup_fmap, lookup_seq_lt|].
  unfold getitem. simpl table. split.
  - intros Hlen. apply od_get_NoDup.
    + rewrite <-list_fmap_compose. apply var_psets_keys_NoDup.
    + apply list_elem_of_fmap. exists (parents S v). split; [done|].
      apply elem_of_var_psets. split; [apply parents_sublist|].
      split; [done|]. split; [|done].
      intros Hin%elem_of_parents; [|done]. by apply (Hcyc v), tc_once.
  - intros Hlen. apply od_get_not_elem.
    rewrite <-list_fmap_compose.
    intros (_ & Hsz & _)%(var_psets_keys (shape S) fan_in None v).
    rewrite <-length_parents_size in Hsz. lia.
Qed.

End enumeration_properties.

Section basic_move_properties.
Context {F : Type} `{!Floating F}.

(** X9.  [rev_move.moves] lists the edges of the state, each exactly once,
    so its length is the number of edges; it is the deletable list of
    [basic_move.moves], and the flag [DAGProposal.sample] derives from it
    is [True] exactly when the state has an edge. *)
Theorem rev_moves_lists_each_edge_once (S : DAGState) (Hrange : in_range S) :
  NoDup (rev_move.moves S) ∧
  (∀ i j, (i, j) ∈ rev_move.moves S ↔ edge S i j) ∧
  length (rev_move.moves S) = size (adj S) ∧
  rev_move.moves S = (basic_move.moves S).2 ∧
  (DAGProposal.has_move (DAGProposal.moves_of rev_move S) = true ↔ adj S ≠ ∅).
Proof.
  split; [apply NoDup_nonzero|]. split; [intros i j; by apply elem_of_delete_arcs|].
  split; [by apply length_rev_moves|]. split; [done|].
  unfold DAGProposal.has_move. simpl. rewrite bool_decide_eq_true.
  rewrite length_rev_moves by done.
  split; intros Hne Hempty; apply Hne.
  - by rewrite Hempty, size_empty.
  - by apply size_empty_iff, leibniz_equiv in Hempty.
Qed.

(** X10.  The two lists of [basic_move.moves] are inverse to each other:
    adding an addable edge gives a DAG in which that edge is deletable and
    whose deletion restores the edges; deleting a deletable edge of a state
    within its fan-in gives a DAG in which that edge is addable under the
    same fan-in and whose addition restores the edges.  So the neighbourhood
    of a proposed state is never empty. *)
Theorem basic_moves_reversible (S : DAGState) (Hdag : is_dag S = true) :
  (∀ u v, (u, v) ∈ (basic_move.moves S).1 →
     let S' := add_edge S u v in
     is_dag S' = true ∧ (u, v) ∈ (basic_move.moves S').2 ∧
     adj (remove_edge S' u v) = adj S ∧
     length (parents S' v) ≤ fan_in_ S) ∧
  (∀ u v, (u, v) ∈ (basic_move.moves S).2 →
     length (parents S v) ≤ fan_in_ S →
     let S' := remove_edge S u v in
     is_dag S' = true ∧ (u, v) ∈ (basic_move.moves S').1 ∧
     adj (add_edge S' u v) = adj S).
Proof.
  apply is_dag_spec in Hdag as [HS Hcyc]. split.
  - intros u v (Hu & Hv & Hadd)%elem_of_nonzero S'.
    apply (add_matrix_nonzero S _ u v HS Hcyc) in Hadd as (Hne & Hnedge & Hnr & Hlt).
    destruct (add_edge_valid S S' u v (fan_in_ S) HS Hcyc eq_refl) as (HS' & Hc' & Hlen & _);
      try done.
    { intros x y. apply edge_add_edge. }
    split; [by apply is_dag_spec|]. split; [|split].
    + apply (elem_of_delete_arcs S' u v HS'), edge_add_edge. by right.
    + unfold S', remove_edge, add_edge. simpl. unfold edge in Hnedge.
      apply set_eq. intros e. rewrite elem_of_difference, elem_of_union,
        elem_of_singleton.
      destruct (decide (e = (u, v))) as [->|]; tauto.
    + lia.
  - intros u v Huv%(elem_of_delete_arcs S u v HS) Hlen S'.
    destruct (HS u v Huv) as [Hu Hv].
    destruct (remove_edge_valid S S' u v HS Hcyc eq_refl) as (HS' & Hc' & Hlen' & _);
      try done.
    { intros x y. apply edge_remove_edge. }
    split; [by apply is_dag_spec|]. split.
    + apply elem_of_nonzero. split; [done|]. split; [done|].
      apply (add_matrix_nonzero S' _ u v HS' Hc'). split; [|split; [|split]].
      * intros ->. by apply (Hcyc v), tc_once.
      * by intros [_ Hx]%edge_remove_edge.
      * intros Hr. apply (Hcyc u). eapply tc_l; [done|].
        eapply tc_mono; [|done]. by intros a b [? _]%edge_remove_edge.
      * simpl. lia.
    + unfold S', remove_edge, add_edge. simpl. unfold edge in Huv.
      apply set_eq. intros e. rewrite elem_of_union, elem_of_difference,
        elem_of_singleton.
      destruct (decide (e = (u, v))) as [->|]; tauto.
Qed.

End basic_move_properties.

(** ** The states the proposers return *)

Section propose_properties.
Context {F : Type} `{!Floating F}.

(** The edit [basic_move.propose] makes to the copy. *)
Lemma basic_branch_run (h h1 : store) (S : DAGState) (move r1 : nat)
    (uv : nat * nat) :
  in_range S → acyclic S →
  (if decide (move = 0) then
     exec k <- lift (choice (length (basic_move.moves S).1) r1);
     exec uv <- lift (index (basic_move.moves S).1 k);
     exec _ <- mutate (length h) (λ S, add_edge S uv.1 uv.2);
     mret uv
   else
     exec k <- lift (choice (length (basic_move.moves S).2) r1);
     exec uv <- lift (index (basic_move.moves S).2 k);
     exec _ <- mutate (length h) (λ S, remove_edge S uv.1 uv.2);
     mret uv) (h ++ [S]) = (h1, inr uv) →
  ∃ S', h1 = h ++ [S'] ∧ shape S' = shape S ∧
    ((uv.1, uv.2) ∈ (basic_move.moves S).1 ∧ ((uv.1, uv.2) ∉ adj S) ∧
       adj S' = {[(uv.1, uv.2)]} ∪ adj S
     ∨ (uv.1, uv.2) ∈ (basic_move.moves S).2 ∧ (uv.1, uv.2) ∈ adj S ∧
       adj S' = adj S ∖ {[(uv.1, uv.2)]}).
Proof.
  intros HS Hcyc Hbr. destruct (decide (move = 0)).
  - run_step Hbr as k Hk. run_step Hbr as uv' Huv. run_step Hbr as u Hu.
    apply mret_inr in Hbr as [-> ->].
    rewrite store_read_new, store_write_new.
    eexists. split; [done|]. split; [done|]. left.
    apply index_inr, list_elem_of_lookup_2 in Huv. destruct uv' as [u' v']; simpl.
    split; [done|]. split; [|done].
    apply elem_of_nonzero in Huv as (_ & _ & Huv).
    apply (add_matrix_nonzero S _ u' v' HS Hcyc) in Huv. tauto.
  - run_step Hbr as k Hk. run_step Hbr as uv' Huv. run_step Hbr as u Hu.
    apply mret_inr in Hbr as [-> ->].
    rewrite store_read_new, store_write_new.
    eexists. split; [done|]. split; [done|]. right.
    apply index_inr, list_elem_of_lookup_2 in Huv. destruct uv' as [u' v']; simpl.
    split; [done|]. split; [|done].
    by apply (elem_of_delete_arcs S u' v' HS) in Huv.
Qed.

(** A state one edit away from a DAG within its fan-in is a DAG within the
    same fan-in, and the inverse edit is among its moves. *)
Lemma basic_edit_valid (S S' : DAGState) (u v : nat) :
  in_range S → acyclic S → fan_in_respected S (fan_in_ S) →
  shape S' = shape S →
  ((u, v) ∈ (basic_move.moves S).1 ∧ ((u, v) ∉ adj S) ∧
     adj S' = {[(u, v)]} ∪ adj S
   ∨ (u, v) ∈ (basic_move.moves S).2 ∧ (u, v) ∈ adj S ∧
     adj S' = adj S ∖ {[(u, v)]}) →
  is_dag S' = true ∧ fan_in_respected S' (fan_in_ S) ∧
  basic_move._n_adds S' (fan_in_ S) + basic_move._n_deletes S' ≠ 0.
Proof.
  intros HS Hcyc Hfan Hshape [(Hin & Hnedge & Hadj)|(Hin & Huv & Hadj)].
  - apply elem_of_nonzero in Hin as (Hu & Hv & Hadd).
    apply (add_matrix_nonzero S _ u v HS Hcyc) in Hadd as (Hne & _ & Hnr & Hlt).
    destruct (add_edge_valid S S' u v (fan_in_ S) HS Hcyc Hshape)
      as (HS' & Hc' & Hlen & Hother); try done.
    { intros x y. unfold edge. rewrite Hadj, elem_of_union, elem_of_singleton. tauto. }
    split; [by apply is_dag_spec|]. split.
    + apply (fan_in_respected_edit S S' v); [done|done|lia|done].
    + assert ((u, v) ∈ nonzero (shape S') (adj_matrix S')) as Hdel.
      { apply elem_of_delete_arcs; [done|]. unfold edge. rewrite Hadj.
        apply elem_of_union. left. by apply elem_of_singleton. }
      unfold basic_move._n_deletes.
      destruct (nonzero (shape S') (adj_matrix S')); [by apply elem_of_nil in Hdel|].
      simpl. lia.
  - destruct (HS u v Huv) as [Hu Hv].
    destruct (remove_edge_valid S S' u v HS Hcyc Hshape)
      as (HS' & Hc' & Hlen & Hother); try done.
    { intros x y. unfold edge. rewrite Hadj, elem_of_difference, elem_of_singleton.
      tauto. }
    pose proof (Hfan v Hv) as Hfv.
    split; [by apply is_dag_spec|]. split.
    + apply (fan_in_respected_edit S S' v); [done|done|lia|done].
    + assert ((u, v) ∈ nonzero (shape S') (basic_move.add_matrix S' (fan_in_ S)))
        as Hadd.
      { apply elem_of_nonzero. rewrite Hshape. split; [done|]. split; [done|].
        apply (add_matrix_nonzero S' _ u v HS' Hc'). split; [|split; [|split]].
        - intros ->. by apply (Hcyc v), tc_once.
        - unfold edge. rewrite Hadj, elem_of_difference, elem_of_singleton. tauto.
        - intros Hr. apply (Hcyc u). eapply tc_l; [done|].
          eapply tc_mono; [|done]. intros a b. unfold edge.
          rewrite Hadj, elem_of_difference. tauto.
        - lia. }
      unfold basic_move._n_adds.
      destruct (nonzero (shape S') _); [by apply elem_of_nil in Hadd|].
      simpl. lia.
Qed.

(** The state [basic_move.propose] returns, as a DAG within the fan-in. *)
Lemma basic_propose_result (h h' : store) (state new_state : obj)
    (S : DAGState) (scores : list (ParentSetDistribution F)) (r0 r1 : nat)
    (acceptance z_ratio : F) :
  h !! state = Some S → is_dag S = true → fan_in_respected S (fan_in_ S) →
  basic_move.propose state (basic_move.moves S) scores r0 r1 h
    = (h', inr (new_state, acceptance, z_ratio)) →
  ∃ S', h' = h ++ [S'] ∧ new_state = length h ∧
        shape S' = shape S ∧ is_dag S' = true ∧
        fan_in_respected S' (fan_in_ S) ∧
        basic_move._n_adds S' (fan_in_ S) + basic_move._n_deletes S' ≠ 0.
Proof.
  intros Hstate Hdag Hfan Hrun.
  destruct (basic_propose_run _ _ _ _ _ _ _ _ _ _ Hstate Hdag Hrun)
    as (S' & u & v & sv & z_old & z_new & -> & -> & _ & Hshape & Hedit & _).
  apply is_dag_spec in Hdag as [HS Hcyc].
  exists S'. split; [done|]. split; [done|]. split; [done|].
  by apply (basic_edit_valid S S' u v).
Qed.

(** The state [rev_move.propose] returns and the scores it looks up. *)
Lemma rev_propose_result (h h' : store) (state new_state : obj) (S : DAGState)
    (scores : list (ParentSetDistribution F)) (r0 r1 r2 : nat)
    (acceptance score_diff : F) :
  h !! state = Some S → is_dag S = true → keys_in_range (shape S) scores →
  rev_move.propose state (rev_move.moves S) scores r0 r1 r2 h
    = (h', inr (new_state, acceptance, score_diff)) →
  ∃ (S' : DAGState) (i j : nat) (si sj : ParentSetDistribution F)
    (old_i old_j new_i new_j : F),
    h' = h ++ [S'] ∧ new_state = length h ∧
    shape S' = shape S ∧ is_dag S' = true ∧
    edge S i j ∧ i ≠ j ∧ scores !! i = Some si ∧ scores !! j = Some sj ∧
    frozenset (parents S' i) ∈ (table si).*1 ∧
    frozenset (parents S' j) ∈ (table sj).*1 ∧
    edge S' j i ∧ ¬ edge S' i j ∧
    (∀ w, w ≠ i → w ≠ j → parents S' w = parents S w) ∧
    getitem si (frozenset (parents S i)) = inr old_i ∧
    getitem sj (frozenset (parents S j)) = inr old_j ∧
    getitem si (frozenset (parents S' i)) = inr new_i ∧
    getitem sj (frozenset (parents S' j)) = inr new_j ∧
    score_diff = fsub (fadd new_i new_j) (fadd old_i old_j).
Proof.
  intros Hstate Hdag Hkeys Hrun.
  destruct (rev_propose_run _ _ _ _ _ _ _ _ _ _ _ _ Hstate Hrun)
    as (i & j & si & sj & old_i & old_j & z_i & z_star_j & ps_i & z_star_i
        & ps_j & z_j & new_i & new_j & Harc & Hsi & Hsj & Hoi & Hoj & _ & _
        & Hdraw_i & Hdraw_j & Hni & Hnj & -> & -> & _ & _ & Hdiff).
  apply is_dag_spec in Hdag as [HS Hcyc].
  assert (Hij : edge S i j).
  { apply list_elem_of_lookup_2 in Harc. by apply (elem_of_delete_arcs S i j HS). }
  assert (Hne : i ≠ j) by (intros ->; by apply (Hcyc j), tc_once).
  destruct (rev_propose_graph S scores i j si sj ps_i ps_j z_star_i z_j r1 r2
              HS Hcyc Hkeys Hij Hsi Hsj Hdraw_i Hdraw_j) as (HS3 & Hc3 & Hnij & Hji).
  set (S1 := orphan S [i; j]) in *.
  set (S2 := add_edges S1 (rev_move.product ps_i i)) in *.
  set (S3 := add_edges S2 (rev_move.product ps_j j)) in *.
  assert (Hedge : ∀ x w, edge S3 x w ↔
            (edge S x w ∧ w ≠ i ∧ w ≠ j) ∨ (w = i ∧ x ∈ ps_i) ∨ (w = j ∧ x ∈ ps_j)).
  { intros x w. unfold S3, S2, S1.
    rewrite !edge_add_parents, edge_orphan, !elem_of_cons, elem_of_nil. tauto. }
  assert (Hshape : shape S3 = shape S).
  { unfold S3, S2. by rewrite !shape_add_edges. }
  assert (Hpi : frozenset (parents S3 i) = ps_i).
  { apply parents_after_reversal; [done|]. intros x. rewrite Hedge.
    split; [intros [(_ & ? & _)|[[_ ?]|[? _]]]; done|auto]. }
  assert (Hpj : frozenset (parents S3 j) = ps_j).
  { apply parents_after_reversal; [done|]. intros x. rewrite Hedge.
    split; [intros [(_ & _ & ?)|[[? _]|[_ ?]]]; done|auto]. }
  apply sample_condition in Hdraw_i as [Hki _], Hdraw_j as [Hkj _].
  exists S3, i, j, si, sj, old_i, old_j, new_i, new_j.
  split; [done|].
  split; [done|]. split; [done|]. split; [by apply is_dag_spec|].
  split; [done|]. split; [done|]. split; [done|]. split; [done|].
  split; [by rewrite Hpi|]. split; [by rewrite Hpj|].
  split; [done|]. split; [done|]. split; [|done].
  intros w Hwi Hwj. apply parents_ext; [done|]. intros x. rewrite Hedge.
  split; [intros [(? & _)|[[? _]|[? _]]]; done|auto].
Qed.

(** The fan-in after the two parent sets are replaced. *)
Lemma rev_result_fan_in (S S' : DAGState) (i j : nat)
    (si sj : ParentSetDistribution F) (fan_in : nat) :
  shape S' = shape S →
  frozenset (parents S' i) ∈ (table si).*1 →
  frozenset (parents S' j) ∈ (table sj).*1 →
  (∀ w, w ≠ i → w ≠ j → parents S' w = parents S w) →
  fan_in_respected S fan_in →
  (∀ ps, ps ∈ (table si).*1 → size ps ≤ fan_in) →
  (∀ ps, ps ∈ (table sj).*1 → size ps ≤ fan_in) →
  fan_in_respected S' fan_in.
Proof.
  intros Hshape Hki Hkj Hother Hfan Hbi Hbj w Hw. rewrite Hshape in Hw.
  destruct (decide (w = i)) as [->|Hwi];
    [rewrite length_parents_size; by apply Hbi|].
  destruct (decide (w = j)) as [->|Hwj];
    [rewrite length_parents_size; by apply Hbj|].
  rewrite Hother by done. by apply Hfan.
Qed.

(** X11.  [basic_move.propose] maps valid states to valid states: run with
    the moves of a DAG state that respects its fan-in, the state it returns
    is a new object holding a DAG over the same nodes that respects the
    same fan-in, and the neighbourhood of that state, which divides the
    proposal ratio, is not empty. *)
Theorem basic_propose_keeps_dag_and_fan_in (h h' : store) (state new_state : obj)
    (S : DAGState) (scores : list (ParentSetDistribution F)) (r0 r1 : nat)
    (acceptance z_ratio : F)
    (Hstate : h !! state = Some S)
    (Hdag : is_dag S = true)
    (Hfan : fan_in_respected S (fan_in_ S))
    (Hrun : basic_move.propose state (basic_move.moves S) scores r0 r1 h
            = (h', inr (new_state, acceptance, z_ratio))) :
  ∃ S', h' !! new_state = Some S' ∧ length h ≤ new_state ∧
        shape S' = shape S ∧ is_dag S' = true ∧
        fan_in_respected S' (fan_in_ S) ∧
        basic_move._n_adds S' (fan_in_ S) + basic_move._n_deletes S' ≠ 0.
Proof.
  destruct (basic_propose_result _ _ _ _ _ _ _ _ _ _ Hstate Hdag Hfan Hrun)
    as (S' & -> & -> & Hrest).
  exists S'. split; [by rewrite lookup_app_r, Nat.sub_diag by done|done].
Qed.

(** X12.  [rev_move.propose] replaces the parent sets of the two ends of
    the chosen edge [i → j] and nothing else: in the state it returns the
    parents of [i] and of [j] are keys of their tables, [j] is a parent of
    [i] and [i] no parent of [j], every other node keeps its parents, and
    the state respects any fan-in that the input state and the keys of the
    two tables respect. *)
Theorem rev_propose_replaces_parent_sets (h h' : store) (state new_state : obj)
    (S : DAGState) (scores : list (ParentSetDistribution F)) (r0 r1 r2 : nat)
    (acceptance score_diff : F)
    (Hstate : h !! state = Some S)
    (Hdag : is_dag S = true)
    (Hkeys : keys_in_range (shape S) scores)
    (Hrun : rev_move.propose state (rev_move.moves S) scores r0 r1 r2 h
            = (h', inr (new_state, acceptance, score_diff))) :
  ∃ (S' : DAGState) (i j : nat) (si sj : ParentSetDistribution F),
    h' !! new_state = Some S' ∧ shape S' = shape S ∧
    edge S i j ∧ scores !! i = Some si ∧ scores !! j = Some sj ∧
    frozenset (parents S' i) ∈ (table si).*1 ∧
    frozenset (parents S' j) ∈ (table sj).*1 ∧
    j ∈ parents S' i ∧ (i ∉ parents S' j) ∧
    (∀ w, w ≠ i → w ≠ j → parents S' w = parents S w) ∧
    (∀ fan_in,
       fan_in_respected S fan_in →
       (∀ ps, ps ∈ (table si).*1 → size ps ≤ fan_in) →
       (∀ ps, ps ∈ (table sj).*1 → size ps ≤ fan_in) →
       fan_in_respected S' fan_in).
Proof.
  destruct (rev_propose_result _ _ _ _ _ _ _ _ _ _ _ Hstate Hdag Hkeys Hrun)
    as (S' & i & j & si & sj & old_i & old_j & new_i & new_j & -> & -> & Hshape
        & Hdag' & Hij & Hne & Hsi & Hsj & Hki & Hkj & Hji & Hnij & Hother & _).
  apply is_dag_spec in Hdag' as [HS' _].
  exists S', i, j, si, sj.
  split; [by rewrite lookup_app_r, Nat.sub_diag by done|].
  repeat (split; [done|]).
  split; [by apply elem_of_parents|]. split; [by rewrite elem_of_parents|].
  split; [done|].
  intros fan_in Hfan Hbi Hbj.
  by apply (rev_result_fan_in S S' i j si sj).
Qed.

(** X13.  The score difference [rev_move.propose] returns is the sum of
    the scores its tables hold for the new parent sets of [i] and [j] minus
    the sum of the scores they hold for the parent sets of [i] and [j] in
    the input state. *)
Theorem rev_propose_score_diff (h h' : store) (state new_state : obj)
    (S : DAGState) (scores : list (ParentSetDistribution F)) (r0 r1 r2 : nat)
    (acceptance score_diff : F)
    (Hstate : h !! state = Some S)
    (Hdag : is_dag S = true)
    (Hkeys : keys_in_range (shape S) scores)
    (Hrun : rev_move.propose state (rev_move.moves S) scores r0 r1 r2 h
            = (h', inr (new_state, acceptance, score_diff))) :
  ∃ (S' : DAGState) (i j : nat) (si sj : ParentSetDistribution F)
    (old_i old_j new_i new_j : F),
    h' !! new_state = Some S' ∧ edge S i j ∧
    scores !! i = Some si ∧ scores !! j = Some sj ∧
    getitem si (frozenset (parents S i)) = inr old_i ∧
    getitem sj (frozenset (parents S j)) = inr old_j ∧
    getitem si (frozenset (parents S' i)) = inr new_i ∧
    getitem sj (frozenset (parents S' j)) = inr new_j ∧
    score_diff = fsub (fadd new_i new_j) (fadd old_i old_j).
Proof.
  destruct (rev_propose_result _ _ _ _ _ _ _ _ _ _ _ Hstate Hdag Hkeys Hrun)
    as (S' & i & j & si & sj & old_i & old_j & new_i & new_j & -> & -> & _
        & _ & Hij & _ & Hsi & Hsj & _ & _ & _ & _ & _ & Hoi & Hoj & Hni & Hnj
        & Hdiff).
  exists S', i, j, si, sj, old_i, old_j, new_i, new_j.
  split; [by rewrite lookup_app_r, Nat.sub_diag by done|done].
Qed.

End propose_properties.

(** ** Exceptions of the proposers *)

Lemma mbind_inl {A B : Type} (m : M A) (k : A → M B) (h h' : store) (e : exn) :
  mbind m k h = (h', inl e) →
  m h = (h', inl e) ∨ ∃ x h1, m h = (h1, inr x) ∧ k x h1 = (h', inl e).
Proof.
  unfold mbind. destruct (m h) as [h1 [e'|x]]; [intros [= -> ->]; by left|].
  intros Hk. right. eauto.
Qed.

Lemma lift_inl {A : Type} (r : result A) (h h' : store) (e : exn) :
  lift r h = (h', inl e) → r = inl e ∧ h' = h.
Proof. by intros [= -> ->]. Qed.

Lemma index_inl {A : Type} (l : list A) (i : nat) (e : exn) :
  index l i = inl e → e = IndexError ∧ length l ≤ i.
Proof.
  unfold index. destruct (l !! i) eqn:Hi; [done|]. intros [= <-].
  split; [done|]. by apply lookup_ge_None.
Qed.

Lemma choice_inl (n r : nat) (e : exn) : choice n r = inl e → e = ValueError ∧ n = 0.
Proof. unfold choice. case_decide; [|done]. by intros [= <-]. Qed.

Section exception_facts.
Context {F : Type} `{!Floating F}.

Lemma choice_p_inl (w : list F) (r : nat) (e : exn) :
  choice_p w r = inl e → e = ValueError.
Proof. unfold choice_p. destruct (support w); [|done]. by intros [= <-]. Qed.

Lemma getitem_inl (d : ParentSetDistribution F) (k : pset) (e : exn) :
  getitem d k = inl e → e = KeyError.
Proof.
  unfold getitem. induction (table d) as [|[k' v] t IH]; simpl.
  - by intros [= <-].
  - case_decide; [done|auto].
Qed.

Lemma log_z_inl (d : ParentSetDistribution F) (condition : pset → bool) (e : exn) :
  log_z d condition = inl e → e = ValueError.
Proof.
  unfold log_z. destruct ((conditioned d condition).*2) as [|v [|v' l]]; try done.
  by intros [= <-].
Qed.

Lemma sample_inl (d : ParentSetDistribution F) (condition : pset → bool)
    (r : nat) (e : exn) :
  sample d condition r = inl e → e = ValueError.
Proof.
  unfold sample. destruct (conditioned d condition) as [|[k v] [|kv l]]; try done.
  - by intros [= <-].
  - lazy beta iota zeta. generalize (kv :: l). intros l'.
    destruct (choice_p _ r) as [e'|i] eqn:Hc; simpl; [|done].
    intros [= <-]. by apply choice_p_inl in Hc.
Qed.

Lemma int_div_inl (a b : nat) (e : exn) :
  basic_move.int_div (F:=F) a b = inl e → e = ZeroDivisionError ∧ b = 0.
Proof. unfold basic_move.int_div. case_decide; [|done]. by intros [= <-]. Qed.

End exception_facts.

(** One step of a run that raises: the step raises, or it returns and the
    rest raises. *)
Tactic Notation "raise_step" hyp(H) "as" simple_intropattern(x) ident(E) :=
  let h1 := fresh "h" in
  apply mbind_inl in H as [H | (x & h1 & E & H)];
  [ try discriminate H
  | lazymatch type of E with
    | lift _ _ = _ => apply lift_inr in E as [E ->]
    | query _ _ _ = _ => apply query_inr in E as [E ->]
    | mutate _ _ _ = _ => apply mutate_inr in E as ->
    | new_copy _ _ = _ => apply new_copy_inr in E as [E ->]
    | _ => idtac
    end ].

(** The exception of a step that leaves the store alone. *)
Ltac raised H :=
  apply lift_inl in H as [H ->];
  first [ apply choice_p_inl in H | apply choice_inl in H as [H _]
        | apply index_inl in H as [H _] | apply getitem_inl in H
        | apply log_z_inl in H | apply sample_inl in H ];
  subst; auto.

Section propose_exceptions.
Context {F : Type} `{!Floating F}.

(** X14.  On an empty neighbourhood both proposers raise [ValueError]:
    [basic_move.propose] after it has copied the state (the copy stays
    behind as a new object), [rev_move.propose] before anything else. *)
Theorem propose_on_empty_neighbourhood_raises (state : obj)
    (scores : list (ParentSetDistribution F)) (r0 r1 r2 : nat) (h : store) :
  basic_move.propose state ([], []) scores r0 r1 h
    = (h ++ [h !!! state], inl ValueError) ∧
  rev_move.propose state [] scores r0 r1 r2 h = (h, inl ValueError).
Proof.
  split; [|done].
  unfold basic_move.propose. rewrite mbind_new_copy. unfold copy.
  cbn [fst snd length].
  destruct (choice_p ((λ c, fdiv (of_nat c) (of_nat (0 + 0))) <$> [0; 0]) r0)
    as [e|move] eqn:Hmove.
  - apply choice_p_inl in Hmove as ->. done.
  - rewrite (mbind_lift _ move) by done.
    destruct (decide (move = 0)); done.
Qed.

(** X15.  Run with the moves of a DAG state that respects its fan-in,
    [basic_move.propose] never divides by zero: the exceptions it can raise
    are [ValueError] (no move to draw), [IndexError] (no table for the
    node) and [KeyError] (a parent set missing from the table), and the
    objects of the store it was given are left as they are. *)
Theorem basic_propose_raises_only (h h' : store) (state : obj) (S : DAGState)
    (scores : list (ParentSetDistribution F)) (r0 r1 : nat) (e : exn)
    (Hstate : h !! state = Some S)
    (Hdag : is_dag S = true)
    (Hfan : fan_in_respected S (fan_in_ S))
    (Hrun : basic_move.propose state (basic_move.moves S) scores r0 r1 h
            = (h', inl e)) :
  (e = ValueError ∨ e = IndexError ∨ e = KeyError) ∧ take (length h) h' = h.
Proof.
  split.
  - unfold basic_move.propose in Hrun.
    apply is_dag_spec in Hdag as [HS Hcyc].
    raise_step Hrun as new Hnew. subst new.
    rewrite (list_lookup_total_correct _ _ _ Hstate) in Hrun. unfold copy in Hrun.
    raise_step Hrun as move Hmove; [by raised Hrun|].
    apply mbind_inl in Hrun as [Hrun|(uv & h1 & Hbr & Hrun)].
    { destruct (decide (move = 0)).
      - raise_step Hrun as k Hk; [by raised Hrun|].
        raise_step Hrun as uv Huv; [by raised Hrun|].
        raise_step Hrun as u Hu. discriminate Hrun.
      - raise_step Hrun as k Hk; [by raised Hrun|].
        raise_step Hrun as uv Huv; [by raised Hrun|].
        raise_step Hrun as u Hu. discriminate Hrun. }
    apply (basic_branch_run h h1 S move r1 uv HS Hcyc) in Hbr
      as (S' & -> & Hshape & Hedit).
    destruct (basic_edit_valid S S' uv.1 uv.2 HS Hcyc Hfan Hshape Hedit)
      as (_ & _ & Hq).
    raise_step Hrun as sv Hsv; [by raised Hrun|].
    raise_step Hrun as ps_old Hold. raise_step Hrun as z_old Hzold; [by raised Hrun|].
    raise_step Hrun as ps_new Hnew. raise_step Hrun as z_new Hznew; [by raised Hrun|].
    raise_step Hrun as fan_in Hfi. raise_step Hrun as q_inv Hqi.
    rewrite store_read_new in Hqi. rewrite (store_read_old h state S S' Hstate) in Hfi.
    subst fan_in q_inv.
    raise_step Hrun as q Hdiv; [|discriminate Hrun].
    apply lift_inl in Hrun as [Hrun _]. by apply int_div_inl in Hrun as [_ ?].
  - destruct (basic_propose_keeps (length h) state (basic_move.moves S) scores r0 r1 h)
      as [Hkeep _]; [done|].
    rewrite Hrun in Hkeep. simpl in Hkeep. by rewrite Hkeep, firstn_all.
Qed.

(** X16.  Run with the moves of a DAG state and tables whose keys are sets
    of other nodes of the graph, [rev_move.propose] never divides by zero:
    whenever it reaches the division [n / len(...)], the state it has built
    holds the reversed edge, so the divisor is not zero.  An exception it
    raises is therefore no [ZeroDivisionError], and the objects of the store
    it was given are left as they are.  (The exceptions that remain are
    those of the draws and of the lookups, and the [TypeError] of [sample]
    on a table of Python floats.) *)
Theorem rev_propose_never_divides_by_zero (h h' : store) (state : obj)
    (S : DAGState)
    (scores : list (ParentSetDistribution F)) (r0 r1 r2 : nat) (e : exn)
    (Hstate : h !! state = Some S)
    (Hdag : is_dag S = true)
    (Hkeys : keys_in_range (shape S) scores)
    (Hrun : rev_move.propose state (rev_move.moves S) scores r0 r1 r2 h
            = (h', inl e)) :
  e ≠ ZeroDivisionError ∧ take (length h) h' = h.
Proof.
  split.
  - enough (e = ValueError ∨ e = IndexError ∨ e = KeyError)
      as [-> | [-> | ->]] by done.
    unfold rev_move.propose in Hrun.
    apply is_dag_spec in Hdag as [HS Hcyc].
    raise_step Hrun as k Hk; [by raised Hrun|].
    raise_step Hrun as ij Hij; [by raised Hrun|].
    raise_step Hrun as dsc_i Hdi. raise_step Hrun as dsc_j Hdj.
    raise_step Hrun as si Hsi; [by raised Hrun|].
    raise_step Hrun as ps_old_i Hpoi.
    raise_step Hrun as old_i Hoi; [by raised Hrun|].
    raise_step Hrun as sj Hsj; [by raised Hrun|].
    raise_step Hrun as ps_old_j Hpoj.
    raise_step Hrun as old_j Hoj; [by raised Hrun|].
    raise_step Hrun as z_i Hzi; [by raised Hrun|].
    raise_step Hrun as z_star_j Hzsj; [by raised Hrun|].
    raise_step Hrun as new Hnew. raise_step Hrun as u1 Hu1.
    rewrite (list_lookup_total_correct _ _ _ Hstate) in *. unfold copy in Hrun.
    subst new. rewrite store_read_new, store_write_new in Hrun.
    raise_step Hrun as dsc_i' Hdi'.
    raise_step Hrun as si_draw Hdraw_i; [by raised Hrun|].
    raise_step Hrun as u2 Hu2. rewrite store_read_new, store_write_new in Hrun.
    raise_step Hrun as dsc_j' Hdj'.
    raise_step Hrun as sj_draw Hdraw_j; [by raised Hrun|].
    raise_step Hrun as u3 Hu3. rewrite store_read_new, store_write_new in Hrun.
    raise_step Hrun as ps_new_i Hpni.
    raise_step Hrun as new_i Hni; [by raised Hrun|].
    raise_step Hrun as ps_new_j Hpnj.
    raise_step Hrun as new_j Hnj; [by raised Hrun|].
    raise_step Hrun as n_new Hn.
    raise_step Hrun as q Hq; [|discriminate Hrun].
    apply lift_inl in Hrun as [Hrun _]. apply int_div_inl in Hrun as [_ Hzero].
    rewrite store_read_new in *. subst.
    destruct ij as [i j], si_draw as [ps_i z_star_i], sj_draw as [ps_j z_j];
      simpl in *.
    apply index_inr in Hij, Hsi, Hsj.
    assert (Hedge : edge S i j).
    { apply list_elem_of_lookup_2 in Hij. by apply (elem_of_delete_arcs S i j HS). }
    destruct (rev_propose_graph S scores i j si sj ps_i ps_j z_star_i z_j r1 r2
                HS Hcyc Hkeys Hedge Hsi Hsj Hdraw_i Hdraw_j) as (HS3 & _ & _ & Hji).
    apply (elem_of_delete_arcs _ j i HS3) in Hji.
    apply length_zero_iff_nil in Hzero. rewrite Hzero in Hji.
    by apply elem_of_nil in Hji.
  - destruct (rev_propose_keeps (length h) state (rev_move.moves S) scores r0 r1 r2 h)
      as [Hkeep _]; [done|].
    rewrite Hrun in Hkeep. simpl in Hkeep. by rewrite Hkeep, firstn_all.
Qed.

End propose_exceptions.

(** ** The proposal distribution *)

Section proposal_properties.
Context {F : Type} `{!Floating F}.

Lemma fan_in_violated_spec (self : DAGProposal.t (F:=F)) (S : DAGState) :
  DAGProposal.fan_in_violated self S = false ↔
  fan_in_respected S (DAGProposal.fan_in self).
Proof.
  unfold DAGProposal.fan_in_violated, fan_in_respected, nodes_iter. split.
  - intros Hex v Hv. destruct (decide (length (parents S v) ≤ DAGProposal.fan_in self))
      as [|Hgt]; [done|].
    assert (existsb (λ v, bool_decide (DAGProposal.fan_in self < length (parents S v)))
              (seq 0 (shape S)) = true) as Htrue; [|congruence].
    apply existsb_exists. exists v. split.
    + apply in_seq. lia.
    + apply bool_decide_eq_true. lia.
  - intros Hfan. apply not_true_is_false.
    intros (v & Hv%in_seq & Hlt%bool_decide_eq_true)%existsb_exists.
    specialize (Hfan v). lia.
Qed.

Lemma length_renormalize (move_prob : list F) (flags : list bool) :
  length (DAGProposal.renormalize move_prob flags)
  = length move_prob `min` length flags.
Proof. unfold DAGProposal.renormalize. by rewrite length_fmap, length_zip_with. Qed.

(** The move the generator picks has a [True] flag. *)
Lemma choice_p_flagged (move_prob : list F) (flags : list bool) (r m : nat) :
  choice_p (DAGProposal.renormalize move_prob flags) r = inr m →
  m < length move_prob ∧ flags !! m = Some true.
Proof.
  intros Hdraw.
  pose proof (choice_p_lt _ _ _ Hdraw) as Hlt. rewrite length_renormalize in Hlt.
  split; [lia|].
  apply choice_p_positive in Hdraw as (x & Hx & Hpos).
  unfold DAGProposal.renormalize in Hx.
  apply list_lookup_fmap_Some in Hx as (y & -> & Hy).
  apply lookup_zip_with_Some in Hy as (p & b & -> & Hp & Hb).
  destruct b; [done|]. by rewrite fpos_masked in Hpos.
Qed.

(** The tables of an initialised proposal. *)
Lemma initialize_tables (moves : list GraphMove) (move_prob : list F)
    (fan_in variables : nat) (score : nat * list nat → F)
    (cfg : DAGProposal_config F) (self : DAGProposal.t (F:=F)) :
  DAGProposal_init moves move_prob fan_in = inr cfg →
  initialize cfg variables score = inr self →
  DAGProposal.moves self = moves ∧ DAGProposal.move_prob self = move_prob ∧
  DAGProposal.fan_in self = fan_in ∧ length move_prob = length moves ∧
  get_parent_set_distributions variables fan_in score None
    = inr (DAGProposal.ps_scores_ self).
Proof.
  unfold DAGProposal_init, initialize. case_decide as Hlen; [done|].
  intros [= <-]. simpl.
  intros (scores & Hscores & [= <-])%bind_inr. simpl.
  split; [done|]. split; [done|]. split; [done|]. split; [|done].
  destruct (decide (length move_prob = length moves)); [done|]. by destruct Hlen.
Qed.

Lemma enumeration_key_size (n fan_in : nat) (score_fn : nat * list nat → F)
    (scores : list (ParentSetDistribution F)) (v : nat)
    (d : ParentSetDistribution F) (ps : pset) :
  get_parent_set_distributions n fan_in score_fn None = inr scores →
  scores !! v = Some d → ps ∈ (table d).*1 → size ps ≤ fan_in.
Proof.
  intros Hget Hd Hps.
  assert (v < n) as Hv.
  { apply enumeration_tables in Hget. subst scores.
    apply lookup_lt_Some in Hd. by rewrite length_fmap, length_seq in Hd. }
  destruct (enumeration_lookup _ _ _ _ v Hget Hv) as (d' & Hd' & Hkeys).
  assert (d' = d) as -> by congruence.
  by apply Hkeys in Hps as (_ & Hsz & _).
Qed.

(** A run of [DAGProposal.sample] that returns: the move drawn, the state
    the move was run on and the state it produced. *)
Lemma sample_run (self : DAGProposal.t (F:=F)) (h h' : store) (state new_state : obj)
    (S : DAGState) (r r0 r1 r2 : nat) (acceptance score_diff : F) :
  h !! state = Some S →
  DAGProposal.sample self state r r0 r1 r2 h
    = (h', inr (new_state, acceptance, score_diff)) →
  let S0 := set_fan_in S (DAGProposal.fan_in self) in
  let h1 := <[state := S0]> h in
  ∃ m mv h2,
    DAGProposal.fan_in_violated self S = false ∧
    choice_p (DAGProposal.renormalize (DAGProposal.move_prob self)
                (DAGProposal.has_move <$>
                   ((λ m, DAGProposal.moves_of m S0) <$> DAGProposal.moves self))) r
      = inr m ∧
    DAGProposal.moves self !! m = Some mv ∧
    DAGProposal.propose_of mv state (DAGProposal.moves_of mv S0)
      (DAGProposal.ps_scores_ self) r0 r1 r2 h1
      = (h2, inr (new_state, acceptance, score_diff)) ∧
    h' = <[new_state := set_fan_in (h2 !!! new_state) (DAGProposal.fan_in self)]> h2.
Proof.
  intros Hstate Hrun S0 h1. unfold DAGProposal.sample in Hrun.
  run_step Hrun as violated Hviol.
  rewrite (list_lookup_total_correct _ _ _ Hstate) in Hviol. subst violated.
  destruct (DAGProposal.fan_in_violated self S) eqn:Hv; [discriminate Hrun|].
  run_step Hrun as u Hu. run_step Hrun as arcs Harcs.
  rewrite (list_lookup_total_correct _ _ _ Hstate) in *.
  pose proof (lookup_lt_Some _ _ _ Hstate) as Hlt.
  rewrite list_lookup_total_insert_eq in Harcs by done. subst arcs.
  fold S0 h1 in Hrun |- *.
  run_step Hrun as m Hm. run_step Hrun as mv Hmv. run_step Hrun as a Ha.
  apply index_inr in Hmv, Ha.
  rewrite list_lookup_fmap, Hmv in Ha. injection Ha as <-.
  apply mbind_inr in Hrun as ([[new acc] diff] & h2 & Hprop & Hrun).
  run_step Hrun as u' Hu'. apply mret_inr in Hrun as [[= -> -> ->] ->].
  simpl. exists m, mv, h2. done.
Qed.

(** X17.  [DAGProposal.sample] checks the fan-in before anything else:
    the check fails exactly when some node of the state has more than
    [fan_in] parents, and then the call raises [ValueError] and leaves the
    store, the input state included, as it is. *)
Theorem sample_rejects_fan_in_violation (self : DAGProposal.t (F:=F)) (h : store)
    (state : obj) (S : DAGState) (r r0 r1 r2 : nat)
    (Hstate : h !! state = Some S) :
  (DAGProposal.fan_in_violated self S = true ↔
   ∃ v, v < shape S ∧ DAGProposal.fan_in self < length (parents S v)) ∧
  (DAGProposal.fan_in_violated self S = true →
   DAGProposal.sample self state r r0 r1 r2 h = (h, inl ValueError)).
Proof.
  split.
  - unfold DAGProposal.fan_in_violated, nodes_iter.
    rewrite existsb_exists. split.
    + intros (v & Hv%in_seq & Hlt%bool_decide_eq_true). exists v. split; [lia|done].
    + intros (v & Hv & Hlt). exists v. split; [apply in_seq; lia|].
      by apply bool_decide_eq_true.
  - intros Hviol. unfold DAGProposal.sample.
    rewrite mbind_query, (list_lookup_total_correct _ _ _ Hstate), Hviol. done.
Qed.

(** X18.  The draw of the move in [DAGProposal.sample] never picks a move
    whose flag is [False]: whatever the probabilities, the index drawn from
    the renormalised vector designates a probability given at construction
    and a flag that is [True]. *)
Theorem move_draw_skips_unflagged (move_prob : list F) (flags : list bool)
    (r m : nat)
    (Hdraw : choice_p (DAGProposal.renormalize move_prob flags) r = inr m) :
  m < length move_prob ∧ flags !! m = Some true.
Proof. by apply choice_p_flagged in Hdraw. Qed.

(** X19.  A proposal configured with [rev_move] only, run on a state
    without edges, raises [ValueError] for want of a move; the fan-in has
    then already been stamped on the input state. *)
Theorem rev_only_proposal_raises_without_edges (self : DAGProposal.t (F:=F))
    (h : store) (state : obj) (S : DAGState) (r r0 r1 r2 : nat)
    (Hstate : h !! state = Some S)
    (Hmoves : ∀ m, m ∈ DAGProposal.moves self → m = rev_move)
    (Hedges : adj S = ∅) :
  DAGProposal.sample self state r r0 r1 r2 h
  = (<[state := set_fan_in S (DAGProposal.fan_in self)]> h, inl ValueError).
Proof.
  assert (∀ f, nonzero (shape S) (adj_matrix (set_fan_in S f)) = []) as Hnone.
  { intros f. apply elem_of_nil_inv. intros [u v] (_ & _ & Huv)%elem_of_nonzero.
    apply adj_matrix_nonzero in Huv. unfold edge in Huv. simpl in Huv.
    rewrite Hedges in Huv. by apply not_elem_of_empty in Huv. }
  assert (DAGProposal.fan_in_violated self S = false) as Hviol.
  { apply fan_in_violated_spec. intros v _.
    assert (parents S v = []) as ->; [|simpl; lia].
    apply elem_of_nil_inv. intros u [Hu _]%list_elem_of_filter.
    apply edgeb_true in Hu. unfold edge in Hu. rewrite Hedges in Hu.
    by apply not_elem_of_empty in Hu. }
  unfold DAGProposal.sample.
  rewrite mbind_query, (list_lookup_total_correct _ _ _ Hstate), Hviol.
  rewrite mbind_mutate, (list_lookup_total_correct _ _ _ Hstate), mbind_query.
  pose proof (lookup_lt_Some _ _ _ Hstate) as Hlt.
  rewrite list_lookup_total_insert_eq by done.
  unfold mbind at 1, lift at 1, choice_p. rewrite support_nil; [done|].
  intros x Hx. eapply renormalize_masked; [|done].
  intros b (a & -> & (m & -> & Hm)%list_elem_of_fmap)%list_elem_of_fmap.
  rewrite (Hmoves m Hm). unfold DAGProposal.has_move. simpl.
  unfold rev_move.moves. simpl. by rewrite (Hnone (DAGProposal.fan_in self)).
Qed.

(** X20.  [DAGProposal.initialize] on a proposal built by
    [DAGProposal.__init__] always returns: the proposal keeps the moves,
    the probabilities (one for each move) and the fan-in it was built with,
    and it holds one table for each variable, whose keys are sets of at
    most [fan_in] other variables. *)
Theorem initialize_builds_one_table_per_variable (moves : list GraphMove)
    (move_prob : list F) (fan_in variables : nat) (score : nat * list nat → F)
    (cfg : DAGProposal_config F)
    (Hinit : DAGProposal_init moves move_prob fan_in = inr cfg) :
  length move_prob = length moves ∧
  ∃ self, initialize cfg variables score = inr self ∧
    DAGProposal.moves self = moves ∧ DAGProposal.move_prob self = move_prob ∧
    DAGProposal.fan_in self = fan_in ∧
    length (DAGProposal.ps_scores_ self) = variables ∧
    keys_in_range variables (DAGProposal.ps_scores_ self) ∧
    ∀ v d ps, DAGProposal.ps_scores_ self !! v = Some d → ps ∈ (table d).*1 →
              size ps ≤ fan_in.
Proof.
  set (g := λ v, mkPSD v ((λ s, (list_to_set s, score (v, s)))
                            <$> var_psets variables fan_in None v)).
  assert (Hall : get_parent_set_distributions variables fan_in score None
                 = inr (g <$> seq 0 variables)).
  { apply collect_inr. intros u _. apply parent_set_distribution_inr.
    eapply var_psets_nonempty, empty_set_is_candidate. }
  assert (initialize cfg variables score
          = inr (DAGProposal.mk moves move_prob fan_in (g <$> seq 0 variables)))
    as Hfit.
  { unfold DAGProposal_init in Hinit. case_decide; [done|]. injection Hinit as <-.
    unfold initialize. simpl. by rewrite Hall. }
  destruct (initialize_tables _ _ _ _ _ _ _ Hinit Hfit) as (_ & _ & _ & Hlen & _).
  split; [done|]. eexists. split; [exact Hfit|]. simpl.
  split; [done|]. split; [done|]. split; [done|].
  split; [by rewrite length_fmap, length_seq|].
  split; [by eapply keys_in_range_enumeration|].
  intros v d ps. by apply (enumeration_key_size _ _ _ _ _ _ _ Hall).
Qed.

(** X21.  [DAGProposal.sample] maps valid states to valid states: for an
    initialised proposal and a DAG state over the variables of its tables,
    the state a call returns is a new object holding a DAG over the same
    nodes, stamped with the fan-in of the proposal and within it, so that
    it passes the check of the next call; the input state keeps its graph
    and carries the same stamp. *)
Theorem sample_output_is_valid_input (moves : list GraphMove)
    (move_prob : list F) (fan_in : nat) (score : nat * list nat → F)
    (cfg : DAGProposal_config F) (self : DAGProposal.t (F:=F))
    (h h' : store) (state new_state : obj) (S : DAGState)
    (r r0 r1 r2 : nat) (acceptance score_diff : F)
    (Hinit : DAGProposal_init moves move_prob fan_in = inr cfg)
    (Hfit : initialize cfg (shape S) score = inr self)
    (Hstate : h !! state = Some S)
    (Hdag : is_dag S = true)
    (Hrun : DAGProposal.sample self state r r0 r1 r2 h
            = (h', inr (new_state, acceptance, score_diff))) :
  ∃ S', h' !! new_state = Some S' ∧ new_state ≠ state ∧
        shape S' = shape S ∧ is_dag S' = true ∧ fan_in_ S' = fan_in ∧
        DAGProposal.fan_in_violated self S' = false ∧
        h' !! state = Some (set_fan_in S fan_in).
Proof.
  destruct (initialize_tables _ _ _ _ _ _ _ Hinit Hfit)
    as (Hmoves & Hprob & Hfan & Hlen & Hscores).
  destruct (sample_run _ _ _ _ _ _ _ _ _ _ _ _ Hstate Hrun)
    as (m & mv & h2 & Hviol & Hdraw & Hmv & Hprop & ->).
  rewrite Hfan in *.
  set (S0 := set_fan_in S fan_in) in *. set (h1 := <[state := S0]> h) in *.
  pose proof (lookup_lt_Some _ _ _ Hstate) as Hlt.
  assert (Hstate1 : h1 !! state = Some S0) by by apply list_lookup_insert_eq.
  assert (Hlen1 : length h1 = length h) by apply length_insert.
  assert (Hdag0 : is_dag S0 = true) by done.
  assert (Hfan0 : fan_in_respected S0 (fan_in_ S0)).
  { apply fan_in_violated_spec in Hviol. by rewrite Hfan in Hviol. }
  assert (Hres : ∃ S', h2 = h1 ++ [S'] ∧ new_state = length h1 ∧
            shape S' = shape S ∧ is_dag S' = true ∧ fan_in_respected S' fan_in).
  { destruct mv; simpl in Hprop.
    - destruct (basic_propose_result _ _ _ _ _ _ _ _ _ _ Hstate1 Hdag0 Hfan0 Hprop)
        as (S' & -> & -> & Hshape & Hdag' & Hfan' & _).
      by exists S'.
    - assert (Hkeys : keys_in_range (shape S0) (DAGProposal.ps_scores_ self))
        by by eapply keys_in_range_enumeration.
      destruct (rev_propose_result _ _ _ _ _ _ _ _ _ _ _ Hstate1 Hdag0 Hkeys Hprop)
        as (S' & i & j & si & sj & old_i & old_j & new_i & new_j & -> & -> & Hshape
            & Hdag' & _ & _ & Hsi & Hsj & Hki & Hkj & _ & _ & Hother & _).
      exists S'. split; [done|]. split; [done|]. split; [done|]. split; [done|].
      apply (rev_result_fan_in S0 S' i j si sj); try done.
      + intros ps. by apply (enumeration_key_size _ _ _ _ _ _ _ Hscores Hsi).
      + intros ps. by apply (enumeration_key_size _ _ _ _ _ _ _ Hscores Hsj). }
  destruct Hres as (S' & -> & -> & Hshape & Hdag' & Hfan').
  rewrite store_read_new, store_write_new.
  exists (set_fan_in S' fan_in).
  split; [by rewrite lookup_app_r, Nat.sub_diag by done|].
  split; [lia|]. split; [done|]. split; [done|]. split; [done|].
  split; [apply fan_in_violated_spec; by rewrite Hfan|].
  by rewrite lookup_app_l by lia.
Qed.

End proposal_properties.

(** ** Exceptions of an initialised proposal *)

Section enumerated_exceptions.
Context {F : Type} `{!Floating F}.

Lemma enumeration_length (n fan_in : nat) (score_fn : nat * list nat → F)
    condition (scores : list (ParentSetDistribution F)) :
  get_parent_set_distributions n fan_in score_fn condition = inr scores →
  length scores = n.
Proof.
  intros ->%enumeration_tables. by rewrite length_fmap, length_seq.
Qed.

(** With the tables of the enumeration, every lookup of
    [basic_move.propose] succeeds. *)
Lemma basic_propose_raises_enumerated (h h' : store) (state : obj) (S : DAGState)
    (score_fn : nat * list nat → F) (scores : list (ParentSetDistribution F))
    (r0 r1 : nat) (e : exn) :
  h !! state = Some S →
  in_range S → acyclic S → fan_in_respected S (fan_in_ S) →
  get_parent_set_distributions (shape S) (fan_in_ S) score_fn None = inr scores →
  basic_move.propose state (basic_move.moves S) scores r0 r1 h = (h', inl e) →
  e = ValueError.
Proof.
  intros Hstate HS Hcyc Hfan Hscores Hrun. unfold basic_move.propose in Hrun.
  raise_step Hrun as new Hnew. subst new.
  rewrite (list_lookup_total_correct _ _ _ Hstate) in Hrun. unfold copy in Hrun.
  raise_step Hrun as move Hmove; [by raised Hrun|].
  apply mbind_inl in Hrun as [Hrun|(uv & h1 & Hbr & Hrun)].
  { destruct (decide (move = 0)).
    - raise_step Hrun as k Hk; [by raised Hrun|].
      raise_step Hrun as uv Huv.
      + apply lift_inl in Hrun as [Hrun _]. apply index_inl in Hrun as [_ Hrun].
        unfold choice in Hk. case_decide as Hn; [done|]. injection Hk as <-.
        pose proof (Nat.mod_upper_bound r1 _ Hn) as Hub. by apply Nat.lt_nge in Hub.
      + raise_step Hrun as u Hu. discriminate Hrun.
    - raise_step Hrun as k Hk; [by raised Hrun|].
      raise_step Hrun as uv Huv.
      + apply lift_inl in Hrun as [Hrun _]. apply index_inl in Hrun as [_ Hrun].
        unfold choice in Hk. case_decide as Hn; [done|]. injection Hk as <-.
        pose proof (Nat.mod_upper_bound r1 _ Hn) as Hub. by apply Nat.lt_nge in Hub.
      + raise_step Hrun as u Hu. discriminate Hrun. }
  apply (basic_branch_run h h1 S move r1 uv HS Hcyc) in Hbr
    as (S' & -> & Hshape & Hedit).
  destruct (basic_edit_valid S S' uv.1 uv.2 HS Hcyc Hfan Hshape Hedit)
    as ([HS' Hc']%is_dag_spec & Hfan' & Hq).
  assert (Hv : uv.2 < shape S).
  { destruct Hedit as [(Hin & _)|(Hin & _)];
      by apply elem_of_nonzero in Hin as (_ & ? & _). }
  destruct (enumeration_lookup _ _ _ _ uv.2 Hscores Hv) as (sv0 & Hsv0 & Hkv).
  raise_step Hrun as sv Hsv.
  { apply lift_inl in Hrun as [Hrun _]. unfold index in Hrun.
    by rewrite Hsv0 in Hrun. }
  apply index_inr in Hsv. assert (sv = sv0) as -> by congruence.
  raise_step Hrun as ps_old Hold. rewrite (store_read_old h state S S' Hstate) in Hold.
  subst ps_old.
  raise_step Hrun as z_old Hzold.
  { apply lift_inl in Hrun as [Hrun _].
    destruct (getitem_returns sv0 (frozenset (parents S uv.2))) as [z Hz];
      [|congruence].
    apply Hkv, parents_is_candidate; auto. }
  raise_step Hrun as ps_new Hnew. rewrite store_read_new in Hnew. subst ps_new.
  raise_step Hrun as z_new Hznew.
  { apply lift_inl in Hrun as [Hrun _].
    destruct (getitem_returns sv0 (frozenset (parents S' uv.2))) as [z Hz];
      [|congruence].
    apply Hkv. rewrite <-Hshape. apply parents_is_candidate; auto.
    apply Hfan'. by rewrite Hshape. }
  raise_step Hrun as fan_in Hfi. raise_step Hrun as q_inv Hqi.
  rewrite store_read_new in Hqi. rewrite (store_read_old h state S S' Hstate) in Hfi.
  subst fan_in q_inv.
  raise_step Hrun as q Hdiv; [|discriminate Hrun].
  apply lift_inl in Hrun as [Hrun _]. by apply int_div_inl in Hrun as [_ ?].
Qed.

(** With the tables of the enumeration, every lookup of
    [rev_move.propose] succeeds and the two normalisers over the input
    state exist. *)
Lemma rev_propose_raises_enumerated (h h' : store) (state : obj) (S : DAGState)
    (score_fn : nat * list nat → F) (scores : list (ParentSetDistribution F))
    (r0 r1 r2 : nat) (e : exn) :
  h !! state = Some S →
  in_range S → acyclic S → fan_in_respected S (fan_in_ S) →
  get_parent_set_distributions (shape S) (fan_in_ S) score_fn None = inr scores →
  rev_move.propose state (rev_move.moves S) scores r0 r1 r2 h = (h', inl e) →
  e = ValueError.
Proof.
  intros Hstate HS Hcyc Hfan Hscores Hrun.
  pose proof (keys_in_range_enumeration _ _ _ _ _ Hscores) as Hkeys.
  unfold rev_move.propose in Hrun.
  raise_step Hrun as k Hk; [by raised Hrun|].
  unfold choice in Hk. case_decide as Hn; [done|]. injection Hk as <-.
  raise_step Hrun as ij Hij.
  { apply lift_inl in Hrun as [Hrun _]. apply index_inl in Hrun as [_ Hrun].
    pose proof (Nat.mod_upper_bound r0 _ Hn) as Hub. by apply Nat.lt_nge in Hub. }
  destruct ij as [i j]. cbn [fst snd] in Hrun.
  apply index_inr in Hij.
  assert (Hedge : edge S i j).
  { apply list_elem_of_lookup_2 in Hij. by apply (elem_of_delete_arcs S i j HS). }
  destruct (HS i j Hedge) as [Hi Hj].
  assert (Hneq : i ≠ j) by (intros ->; by apply (Hcyc j), tc_once).
  assert (Hpos : 0 < fan_in_ S).
  { pose proof (Hfan j Hj) as Hl.
    assert (Hin : i ∈ parents S j) by by apply elem_of_parents.
    destruct (parents S j); [by apply elem_of_nil in Hin|]. simpl in Hl. lia. }
  destruct (enumeration_lookup _ _ _ _ i Hscores Hi) as (si0 & Hsi0 & Hki).
  destruct (enumeration_lookup _ _ _ _ j Hscores Hj) as (sj0 & Hsj0 & Hkj).
  raise_step Hrun as dsc_i Hdi. raise_step Hrun as dsc_j Hdj.
  rewrite (list_lookup_total_correct _ _ _ Hstate) in Hdi, Hdj. subst dsc_i dsc_j.
  raise_step Hrun as si Hsi.
  { apply lift_inl in Hrun as [Hrun _]. unfold index in Hrun.
    by rewrite Hsi0 in Hrun. }
  apply index_inr in Hsi. assert (si = si0) as -> by congruence.
  raise_step Hrun as ps_old_i Hpoi.
  rewrite (list_lookup_total_correct _ _ _ Hstate) in Hpoi. subst ps_old_i.
  raise_step Hrun as old_i Hoi.
  { apply lift_inl in Hrun as [Hrun _].
    destruct (getitem_returns si0 (frozenset (parents S i))) as [z Hz];
      [|congruence].
    apply Hki, parents_is_candidate; auto. }
  raise_step Hrun as sj Hsj.
  { apply lift_inl in Hrun as [Hrun _]. unfold index in Hrun.
    by rewrite Hsj0 in Hrun. }
  apply index_inr in Hsj. assert (sj = sj0) as -> by congruence.
  raise_step Hrun as ps_old_j Hpoj.
  rewrite (list_lookup_total_correct _ _ _ Hstate) in Hpoj. subst ps_old_j.
  raise_step Hrun as old_j Hoj.
  { apply lift_inl in Hrun as [Hrun _].
    destruct (getitem_returns sj0 (frozenset (parents S j))) as [z Hz];
      [|congruence].
    apply Hkj, parents_is_candidate; auto. }
  raise_step Hrun as z_i Hzi; [by raised Hrun|].
  raise_step Hrun as z_star_j Hzsj; [by raised Hrun|].
  raise_step Hrun as new Hnew. raise_step Hrun as u1 Hu1.
  rewrite (list_lookup_total_correct _ _ _ Hstate) in *. unfold copy in Hrun.
  subst new. rewrite store_read_new, store_write_new in Hrun.
  raise_step Hrun as dsc_i' Hdi'. rewrite store_read_new in Hdi'. subst dsc_i'.
  raise_step Hrun as si_draw Hdraw_i; [by raised Hrun|].
  destruct si_draw as [ps_i z_star_i]. cbn [fst snd] in Hrun.
  raise_step Hrun as u2 Hu2. rewrite store_read_new, store_write_new in Hrun.
  raise_step Hrun as dsc_j' Hdj'. rewrite store_read_new in Hdj'. subst dsc_j'.
  raise_step Hrun as sj_draw Hdraw_j; [by raised Hrun|].
  destruct sj_draw as [ps_j z_j]. cbn [fst snd] in Hrun.
  raise_step Hrun as u3 Hu3. rewrite store_read_new, store_write_new in Hrun.
  set (S1 := orphan S [i; j]) in *.
  set (S2 := add_edges S1 (rev_move.product ps_i i)) in *.
  set (S3 := add_edges S2 (rev_move.product ps_j j)) in *.
  destruct (rev_propose_graph S scores i j si0 sj0 ps_i ps_j z_star_i z_j r1 r2
              HS Hcyc Hkeys Hedge Hsi Hsj Hdraw_i Hdraw_j) as (HS3 & _ & _ & Hji).
  fold S1 S2 S3 in HS3, Hji.
  assert (Hpi : frozenset (parents S3 i) = ps_i).
  { apply (parents_after_reversal S3 ps_i i HS3). intros x.
    unfold S3, S2. rewrite !edge_add_parents. unfold S1. rewrite edge_orphan.
    split; [|tauto]. intros [[[_ Hx]|[_ Hx]]|[Hx _]]; [|done|done].
    destruct Hx. left. }
  assert (Hpj : frozenset (parents S3 j) = ps_j).
  { apply (parents_after_reversal S3 ps_j j HS3). intros x.
    unfold S3, S2. rewrite !edge_add_parents. unfold S1. rewrite edge_orphan.
    split; [|tauto]. intros [[[_ Hx]|[Hx _]]|[_ Hx]]; [|done|done].
    destruct Hx. right. left. }
  raise_step Hrun as ps_new_i Hpni. rewrite store_read_new, Hpi in Hpni.
  subst ps_new_i.
  raise_step Hrun as new_i Hni.
  { apply lift_inl in Hrun as [Hrun _].
    destruct (getitem_returns si0 ps_i) as [z Hz]; [|congruence].
    by apply sample_condition in Hdraw_i as [? _]. }
  raise_step Hrun as ps_new_j Hpnj. rewrite store_read_new, Hpj in Hpnj.
  subst ps_new_j.
  raise_step Hrun as new_j Hnj.
  { apply lift_inl in Hrun as [Hrun _].
    destruct (getitem_returns sj0 ps_j) as [z Hz]; [|congruence].
    by apply sample_condition in Hdraw_j as [? _]. }
  raise_step Hrun as n_new Hnn. rewrite store_read_new in Hnn. subst n_new.
  raise_step Hrun as q Hq; [|discriminate Hrun].
  apply lift_inl in Hrun as [Hrun _]. apply int_div_inl in Hrun as [_ Hzero].
  apply (elem_of_delete_arcs _ j i HS3) in Hji.
  apply length_zero_iff_nil in Hzero. rewrite Hzero in Hji.
  by apply elem_of_nil in Hji.
Qed.

(** X23.  Once a proposal over [basic_move] and [rev_move] is initialised,
    the lookups of [DAGProposal.sample] on a DAG state over the variables of
    its tables never fail: the tables hold every parent set the moves look
    up and there is one table per node, so an exception it raises is no
    [KeyError] and no [IndexError], and no [ZeroDivisionError] either.  (The
    exceptions that remain are the [ValueError] of the fan-in check and of
    the draws, and the [TypeError] of [sample] on a table of Python
    floats.) *)
Theorem sample_lookups_never_fail (moves : list GraphMove)
    (move_prob : list F) (fan_in : nat) (score : nat * list nat → F)
    (cfg : DAGProposal_config F) (self : DAGProposal.t (F:=F))
    (h h' : store) (state : obj) (S : DAGState) (r r0 r1 r2 : nat) (e : exn)
    (Hinit : DAGProposal_init moves move_prob fan_in = inr cfg)
    (Hfit : initialize cfg (shape S) score = inr self)
    (Hstate : h !! state = Some S)
    (Hdag : is_dag S = true)
    (Hrun : DAGProposal.sample self state r r0 r1 r2 h = (h', inl e)) :
  e ≠ KeyError ∧ e ≠ IndexError ∧ e ≠ ZeroDivisionError.
Proof.
  enough (e = ValueError) as -> by done.
  destruct (initialize_tables _ _ _ _ _ _ _ Hinit Hfit)
    as (Hmoves & Hprob & Hfi & Hlen & Hscores).
  apply is_dag_spec in Hdag as [HS Hcyc].
  unfold DAGProposal.sample in Hrun.
  raise_step Hrun as violated Hviol.
  rewrite (list_lookup_total_correct _ _ _ Hstate) in Hviol. subst violated.
  destruct (DAGProposal.fan_in_violated self S) eqn:Hv.
  { by apply lift_inl in Hrun as [[= <-] _]. }
  apply fan_in_violated_spec in Hv. rewrite Hfi in *.
  raise_step Hrun as u Hu. raise_step Hrun as arcs Harcs.
  rewrite (list_lookup_total_correct _ _ _ Hstate) in *.
  pose proof (lookup_lt_Some _ _ _ Hstate) as Hlt.
  rewrite list_lookup_total_insert_eq in Harcs by done. subst arcs.
  set (S0 := set_fan_in S fan_in) in *. set (h1 := <[state := S0]> h) in *.
  assert (Hstate1 : h1 !! state = Some S0) by by apply list_lookup_insert_eq.
  raise_step Hrun as m Hm; [by raised Hrun|].
  pose proof (choice_p_lt _ _ _ Hm) as Hmlt.
  rewrite length_renormalize, !length_fmap, Hprob, Hmoves in Hmlt.
  destruct (lookup_lt_is_Some_2 moves m) as [mv0 Hmv0]; [lia|].
  rewrite Hmoves in Hrun.
  raise_step Hrun as mv Hmv.
  { apply lift_inl in Hrun as [Hrun _]. unfold index in Hrun.
    by rewrite Hmv0 in Hrun. }
  apply index_inr in Hmv. assert (mv = mv0) as -> by congruence.
  raise_step Hrun as a Ha.
  { apply lift_inl in Hrun as [Hrun _]. unfold index in Hrun.
    by rewrite list_lookup_fmap, Hmv0 in Hrun. }
  apply index_inr in Ha. rewrite list_lookup_fmap, Hmv0 in Ha. injection Ha as <-.
  apply mbind_inl in Hrun as [Hrun|(res & h2 & Hprop & Hrun)].
  - destruct mv0; simpl in Hrun.
    + by apply (basic_propose_raises_enumerated h1 h' state S0 score
                  (DAGProposal.ps_scores_ self) r0 r1 e).
    + by apply (rev_propose_raises_enumerated h1 h' state S0 score
                  (DAGProposal.ps_scores_ self) r0 r1 r2 e).
  - raise_step Hrun as u' Hu'. discriminate Hrun.
Qed.

End enumerated_exceptions.

(** ** Views and sizes of the tables *)

Section view_properties.
Context {F : Type} `{!Floating F}.
Implicit Types (d : ParentSetDistribution F) (condition : pset → bool).

(** X24.  The views [parent_sets] and [log_proba] of a distribution built
    by the constructor list distinct sets and, position by position, the
    probability each set is looked up with; handing the two views back to
    the constructor rebuilds the distribution. *)
Theorem views_rebuild_distribution (var : nat) (psets : list (list nat))
    (probabilities : list F) d
    (Hinit : ParentSetDistribution_init var psets probabilities = inr d)
    (Hne : table d ≠ []) :
  NoDup (parent_sets d) ∧
  length (parent_sets d) = length (log_proba d) ∧
  (∀ i k, parent_sets d !! i = Some k →
     ∃ v, log_proba d !! i = Some v ∧ getitem d k = inr v) ∧
  ParentSetDistribution_init var (elements <$> parent_sets d) (log_proba d)
  = inr d.
Proof.
  assert (d = mkPSD var (od_of_pairs
            (zip (list_to_set <$> psets : list pset) probabilities))) as Hd.
  { unfold ParentSetDistribution_init in Hinit.
    destruct psets; [discriminate|]. by injection Hinit as <-. }
  assert (NoDup (table d).*1) as Hnd.
  { rewrite Hd. apply od_of_pairs_keys_NoDup. }
  assert (var_name d = var) as Hvar by by rewrite Hd.
  clear Hinit Hd. unfold parent_sets, log_proba.
  split; [done|]. split; [by rewrite !length_fmap|]. split.
  - intros i k Hk. apply list_lookup_fmap_Some in Hk as ([k' v] & -> & Hkv).
    exists v. split; [by rewrite list_lookup_fmap, Hkv|].
    apply od_get_NoDup; [done|]. by eapply list_elem_of_lookup_2.
  - destruct d as [var' tbl]. simpl in *. subst var'.
    rewrite ParentSetDistribution_init_inr
      by (destruct tbl; [done|discriminate]).
    do 2 f_equal.
    assert ((list_to_set <$> (elements <$> tbl.*1) : list pset) = tbl.*1) as ->.
    { generalize (tbl.*1). intros ks. induction ks as [|k ks IH]; [done|].
      csimpl. by rewrite IH, list_to_set_elements_L. }
    rewrite zip_fst_snd. by apply od_of_pairs_NoDup.
Qed.

End view_properties.

(** ** The size of the tables *)

Lemma length_combinations (l : list nat) (r : nat) :
  length (combinations l r) = binomial (length l) r.
Proof.
  revert r. induction l as [|x l IH]; intros [|r]; simpl; try done.
  by rewrite length_app, length_fmap, !IH.
Qed.

Lemma filter_combinations (v : nat) (l : list nat) (r : nat) :
  filter (λ s, v ∉ s) (combinations l r)
  = combinations (filter (λ x, x ≠ v) l) r.
Proof.
  revert r. induction l as [|x l IH]; intros [|r].
  - simpl. rewrite filter_cons_True; [done|]. apply not_elem_of_nil.
  - done.
  - simpl. rewrite filter_cons_True; [|apply not_elem_of_nil].
    by destruct (filter _ (x :: l)).
  - simpl combinations at 1. rewrite filter_app, IH, (filter_cons _ x l).
    assert (filter (λ s, v ∉ s) ((x ::.) <$> combinations l r)
            = if decide (x ≠ v)
              then (x ::.) <$> filter (λ s, v ∉ s) (combinations l r) else [])
      as ->.
    { generalize (combinations l r). intros c.
      induction c as [|s c IHc]; [by case_decide|].
      csimpl. rewrite !filter_cons.
      destruct (decide (x ≠ v)) as [Hne|Heq].
      - rewrite IHc. destruct (decide (v ∉ s)) as [Hs|Hs].
        + rewrite decide_True; [done|]. rewrite not_elem_of_cons. split; [done|done].
        + rewrite decide_False; [done|]. rewrite not_elem_of_cons. tauto.
      - apply dec_stable in Heq. subst x.
        rewrite decide_False; [done|]. rewrite not_elem_of_cons. tauto. }
    case_decide.
    + simpl. by rewrite IH.
    + done.
Qed.

Lemma filter_all {A : Type} (P : A → Prop) `{!∀ x, Decision (P x)} (l : list A) :
  (∀ x, x ∈ l → P x) → filter P l = l.
Proof.
  induction l as [|x l IH]; intros HP; [done|].
  rewrite filter_cons_True by (apply HP; left).
  rewrite IH; [done|]. intros y Hy. apply HP. by right.
Qed.

Lemma length_filter_seq_ne (n v : nat) :
  v < n → length (filter (λ x, x ≠ v) (seq 0 n)) = n - 1.
Proof.
  intros Hv.
  assert (seq 0 n = seq 0 v ++ v :: seq (S v) (n - S v)) as ->.
  { replace n with (v + S (n - S v)) at 1 by lia. by rewrite seq_app. }
  rewrite filter_app, filter_cons_False by (intros H; by apply H).
  rewrite !filter_all.
  - rewrite length_app, !length_seq. lia.
  - intros x Hx%elem_of_seq. lia.
  - intros x Hx%elem_of_seq. lia.
Qed.

Lemma length_var_psets (n fan_in v : nat) :
  v < n →
  length (var_psets n fan_in None v)
  = sum_list (binomial (n - 1) <$> seq 0 (S fan_in)).
Proof.
  intros Hv. unfold var_psets, power_set.
  rewrite (filter_ext_elem _ (λ s, v ∉ s)) by (intros s _; simpl; tauto).
  generalize (seq 0 (S fan_in)). intros rs.
  induction rs as [|r rs IH]; [done|].
  csimpl. rewrite filter_app, length_app, IH, filter_combinations,
    length_combinations, length_filter_seq_ne by done. done.
Qed.

Section size_properties.
Context {F : Type} `{!Floating F}.

(** X26.  Enumerated without a feasibility predicate, the table of every
    variable has one entry for each subset of at most [fan_in] of the
    other variables: the sum of the binomial coefficients of [n - 1] over
    the sizes from 0 to [fan_in]. *)
Theorem enumeration_table_size (n fan_in : nat) (score_fn : nat * list nat → F)
    (scores : list (ParentSetDistribution F)) (v : nat)
    (d : ParentSetDistribution F)
    (Henum : get_parent_set_distributions n fan_in score_fn None = inr scores)
    (Hd : scores !! v = Some d) :
  length (table d) = sum_list (binomial (n - 1) <$> seq 0 (S fan_in)) ∧
  length (parent_sets d) = length (table d) ∧
  length (log_proba d) = length (table d).
Proof.
  apply enumeration_tables in Henum as ->.
  apply list_lookup_fmap_Some in Hd as (v' & -> & [-> Hv]%lookup_seq).
  simpl. unfold parent_sets, log_proba. simpl.
  rewrite !length_fmap. split; [|done]. by apply length_var_psets.
Qed.

End size_properties.

(** ** The normalisers of the reversal *)

(** Paths from [j] in a DAG with the edge [i → j] enter neither [i] nor [j]. *)
Lemma tc_orphan_target (S : DAGState) (i j x : nat) :
  acyclic S → edge S i j →
  tc (edge S) j x ↔ tc (edge (orphan S [i; j])) j x.
Proof.
  intros Hcyc Hij. split.
  - revert x. apply tc_ind_r.
    + intros x Hjx. apply tc_once, edge_orphan. split; [done|].
      rewrite !elem_of_cons, elem_of_nil. intros [->|[->|[]]].
      * apply (Hcyc i). eapply tc_l; [done|by apply tc_once].
      * by apply (Hcyc j), tc_once.
    + intros y z Hjy Hyz IH. eapply tc_r; [done|]. apply edge_orphan. split; [done|].
      rewrite !elem_of_cons, elem_of_nil. intros [->|[->|[]]].
      * apply (Hcyc i). eapply tc_l; [done|]. by eapply tc_r.
      * apply (Hcyc j). by eapply tc_r.
  - apply tc_mono. by intros a b [? _]%edge_orphan.
Qed.

(** Paths from [i] in a DAG do not enter [i]. *)
Lemma tc_without_incoming (S S' : DAGState) (i x : nat) :
  acyclic S → (∀ u v, edge S' u v ↔ edge S u v ∧ v ≠ i) →
  tc (edge S) i x ↔ tc (edge S') i x.
Proof.
  intros Hcyc Hedge. split.
  - revert x. apply tc_ind_r.
    + intros x Hix. apply tc_once, Hedge. split; [done|].
      intros ->. by apply (Hcyc i), tc_once.
    + intros y z Hiy Hyz IH. eapply tc_r; [done|]. apply Hedge. split; [done|].
      intros ->. apply (Hcyc i). by eapply tc_r.
  - apply tc_mono. by intros a b [? _]%Hedge.
Qed.

Lemma frozenset_descendants_ext (S S' : DAGState) (i : nat) :
  in_range S → in_range S' →
  (∀ x, tc (edge S) i x ↔ tc (edge S') i x) →
  frozenset (descendants S i) = frozenset (descendants S' i).
Proof.
  intros HS HS' Htc. apply set_eq. intros x. unfold frozenset.
  by rewrite !elem_of_list_to_set, !elem_of_descendants, Htc.
Qed.

Section reversal_symmetry.
Context {F : Type} `{!Floating F}.

(** X27.  The two normalisers [rev_move.propose] computes on the input state
    are those of the reverse move.  For an edge [i → j] of a DAG state, the
    descendants of [j] are its descendants once [i] and [j] are orphaned,
    and the descendants of [i] are its descendants once [i] alone has lost
    its parents (the orphaned state with the parents of [j] put back); so
    [z_star_j] and [z_i] are the values [log_z] has on those two states,
    where the reverse move, which orphans the same state, would compute
    them. *)
Theorem rev_normalisers_are_those_of_the_reverse_move (S S' : DAGState)
    (i j : nat) (si sj : ParentSetDistribution F)
    (Hdag : is_dag S = true)
    (Hedge : edge S i j)
    (Hshape : shape S' = shape S)
    (Hfan : fan_in_ S' = fan_in_ S)
    (Hother : ∀ u v, v ≠ i → v ≠ j → edge S' u v ↔ edge S u v) :
  let S1 := orphan S [i; j] in
  let S2 := add_edges S1 (rev_move.product (frozenset (parents S j)) j) in
  orphan S' [j; i] = S1 ∧
  frozenset (descendants S j) = frozenset (descendants S1 j) ∧
  frozenset (descendants S i) = frozenset (descendants S2 i) ∧
  log_z sj (λ ps, rev_move.member i ps
                  && rev_move.isdisjoint ps (frozenset (descendants S j)))
  = log_z sj (λ ps, rev_move.member i ps
                    && rev_move.isdisjoint ps (frozenset (descendants S1 j))) ∧
  log_z si (λ ps, rev_move.isdisjoint ps (frozenset (descendants S i)))
  = log_z si (λ ps, rev_move.isdisjoint ps (frozenset (descendants S2 i))).
Proof.
  intros S1 S2. apply is_dag_spec in Hdag as [HS Hcyc].
  destruct (HS i j Hedge) as [Hi Hj].
  assert (Hne : i ≠ j) by (intros ->; by apply (Hcyc j), tc_once).
  assert (HS1 : in_range S1) by by apply in_range_orphan.
  assert (HS2 : in_range S2).
  { apply in_range_add_parents; [done|done|].
    intros p Hp%elem_of_frozenset_parents; [|done]. by destruct (HS p j Hp). }
  assert (Hj_eq : frozenset (descendants S j) = frozenset (descendants S1 j)).
  { apply frozenset_descendants_ext; [done|done|].
    intros x. by apply tc_orphan_target. }
  assert (Hi_eq : frozenset (descendants S i) = frozenset (descendants S2 i)).
  { apply frozenset_descendants_ext; [done|done|].
    intros x. apply tc_without_incoming; [done|].
    intros u v. unfold S2, S1.
    rewrite edge_add_parents, edge_orphan, !elem_of_cons, elem_of_nil,
      (elem_of_frozenset_parents S u j HS).
    split.
    - intros [[Huv Hv]|[-> Hu]]; [|done]. split; [done|]. intros ->. apply Hv. by left.
    - intros [Huv Hv]. destruct (decide (v = j)) as [->|Hvj]; [by right|].
      left. split; [done|]. intros [->|[->|[]]]; done. }
  split; [|split; [done|split; [done|split]]].
  - unfold S1, orphan. rewrite Hshape, Hfan. f_equal.
    apply set_eq. intros [u v]. rewrite !elem_of_filter. simpl.
    rewrite !elem_of_cons, !elem_of_nil.
    destruct (decide (v = i)) as [->|Hvi]; [tauto|].
    destruct (decide (v = j)) as [->|Hvj]; [tauto|].
    pose proof (Hother u v Hvi Hvj) as Huv. unfold edge in Huv. tauto.
  - by rewrite Hj_eq.
  - by rewrite Hi_eq.
Qed.

End reversal_symmetry.

Lemma rev_normalisers_are_those_of_the_reverse_move_witness :
  orphan (mkDAG 3 {[ (1, 0); (1, 2) ]} 2) [1; 0] = orphan dag_example [0; 1] ∧
  frozenset (descendants dag_example 1)
  = frozenset (descendants (orphan dag_example [0; 1]) 1).
Proof.
  destruct (rev_normalisers_are_those_of_the_reverse_move (F:=Q) dag_example
              (mkDAG 3 {[ (1, 0); (1, 2) ]} 2) 0 1 psd_example psd_example
              eq_refl) as (H1 & H2 & _).
  - unfold edge. simpl. apply elem_of_union. left. by apply elem_of_singleton.
  - reflexivity.
  - reflexivity.
  - intros u v Hv0 Hv1. unfold edge. simpl.
    rewrite !elem_of_union, !elem_of_singleton.
    split; intros [[= -> ->]|[= -> ->]]; done || (by right).
  - done.
Defined.

(** ** The properties on the examples *)

Lemma init_keeps_last_probability_witness :
  ∃ d, ParentSetDistribution_init 0 [[1; 2]; [2; 1]; []] [1%Q; 2%Q; 3%Q] = inr d ∧
       getitem d (list_to_set [2; 1]) = inr 2%Q.
Proof.
  eexists. split; [reflexivity|].
  refine (proj2 (proj2 (proj2
            (init_keeps_last_probability 0 [[1; 2]; [2; 1]; []] [1%Q; 2%Q; 3%Q]
               _ eq_refl))) 1 [2; 1] 2%Q eq_refl eq_refl _).
  intros j ps' Hj Hlen Hps'. simpl in Hlen.
  destruct j as [|[|[|j]]]; try lia.
  injection Hps' as <-. intros Heq.
  assert (2 ∈ (list_to_set [2; 1] : pset)) as Hin
    by (apply elem_of_list_to_set; left).
  rewrite <-Heq in Hin. apply elem_of_list_to_set in Hin.
  by apply elem_of_nil in Hin.
Defined.

Lemma sample_returns_admissible_key_witness :
  sample psd_example (λ _, true) 0 = inr (∅, 4%Q) ∧
  ∅ ∈ (table psd_example).*1 ∧ log_z psd_example (λ _, true) = inr 4%Q.
Proof.
  assert (Hsample : sample psd_example (λ _, true) 0 = inr (∅, 4%Q))
    by (vm_compute; reflexivity).
  destruct (sample_returns_admissible_key psd_example (λ _, true) 0 ∅ 4%Q Hsample)
    as (H1 & _ & _ & H2 & _).
  done.
Defined.

Lemma filtered_enumeration_restricts_witness :
  ∃ full : list (ParentSetDistribution Q),
    get_parent_set_distributions 3 1 score_example None = inr full ∧
    length full = 3.
Proof.
  destruct (filtered_enumeration_restricts (F:=Q) 3 1 score_example
              (λ v s, bool_decide (length s ≤ 0))
              [mkPSD 0 [(∅, 0%Q)]; mkPSD 1 [(∅, 1%Q)]; mkPSD 2 [(∅, 2%Q)]])
    as (full & H1 & _ & H2 & _).
  - vm_compute. reflexivity.
  - by exists full.
Defined.

Lemma lookup_of_current_parents_witness :
  ∃ d, scores_example !! 2 = Some d ∧
       getitem d (frozenset (parents dag_example 2))
       = inr (score_example (2, parents dag_example 2)).
Proof.
  destruct (lookup_of_current_parents 2 score_example scores_example dag_example 2
              scores_example_enumeration eq_refl) as (d & Hd & Hin & _).
  - simpl. lia.
  - exists d. split; [done|]. apply Hin. vm_compute. lia.
Defined.

Lemma rev_moves_lists_each_edge_once_witness :
  in_range dag_example ∧
  length (rev_move.moves dag_example) = size (adj dag_example).
Proof.
  assert (Hrange : in_range dag_example)
    by exact (proj1 (proj1 (is_dag_spec dag_example) eq_refl)).
  split; [done|].
  exact (proj1 (proj2 (proj2 (rev_moves_lists_each_edge_once dag_example Hrange)))).
Defined.

Lemma basic_moves_reversible_witness :
  is_dag (add_edge dag_example 0 2) = true ∧
  (0, 2) ∈ (basic_move.moves (add_edge dag_example 0 2)).2.
Proof.
  destruct (basic_moves_reversible dag_example eq_refl) as [Hadd _].
  destruct (Hadd 0 2) as (H1 & H2 & _); [|done].
  assert ((basic_move.moves dag_example).1 = [(0, 2)]) as ->
    by (vm_compute; reflexivity).
  left.
Defined.

Lemma basic_propose_keeps_dag_and_fan_in_witness :
  ∃ S', [dag_example; mkDAG 3 {[ (0, 1) ]} 2] !! 1 = Some S' ∧
        is_dag S' = true ∧ fan_in_respected S' (fan_in_ dag_example).
Proof.
  assert (Hrun : basic_move.propose 0 (basic_move.moves dag_example)
                   scores_example 1 1 [dag_example]
                 = ([dag_example; mkDAG 3 {[ (0, 1) ]} 2], inr (1, (-1)%Q, (-1)%Q))).
  { vm_compute. reflexivity. }
  destruct (basic_propose_keeps_dag_and_fan_in [dag_example] _ 0 _ dag_example
              scores_example 1 1 _ _ eq_refl eq_refl dag_example_fan_in Hrun)
    as (S' & H1 & _ & _ & H2 & H3 & _).
  by exists S'.
Defined.

Lemma rev_propose_replaces_parent_sets_witness :
  ∃ (S' : DAGState) (i j : nat),
    [dag_example; mkDAG 3 {[ (1, 0); (1, 2) ]} 2] !! 1 = Some S' ∧
    edge dag_example i j ∧ j ∈ parents S' i ∧ (i ∉ parents S' j).
Proof.
  destruct (rev_propose_replaces_parent_sets [dag_example] _ 0 _ dag_example
              scores_example 0 0 0 _ _ eq_refl eq_refl scores_example_keys
              rev_propose_example)
    as (S' & i & j & si & sj & H1 & _ & H2 & _ & _ & _ & _ & H3 & H4 & _).
  by exists S', i, j.
Defined.

Lemma rev_propose_score_diff_witness :
  ∃ (S' : DAGState) (i j : nat) (old_i old_j new_i new_j : Q),
    [dag_example; mkDAG 3 {[ (1, 0); (1, 2) ]} 2] !! 1 = Some S' ∧
    edge dag_example i j ∧
    0%Q = (new_i + new_j - (old_i + old_j))%Q.
Proof.
  destruct (rev_propose_score_diff [dag_example] _ 0 _ dag_example
              scores_example 0 0 0 _ _ eq_refl eq_refl scores_example_keys
              rev_propose_example)
    as (S' & i & j & si & sj & old_i & old_j & new_i & new_j & H1 & H2 & _ & _
        & _ & _ & _ & _ & H3).
  by exists S', i, j, old_i, old_j, new_i, new_j.
Defined.

Lemma basic_propose_raises_only_witness :
  basic_move.propose 0 (basic_move.moves dag_example)
    ([] : list (ParentSetDistribution Q)) 0 0 [dag_example]
  = ([dag_example; mkDAG 3 {[ (0, 1); (1, 2); (0, 2) ]} 2], inl IndexError) ∧
  take 1 [dag_example; mkDAG 3 {[ (0, 1); (1, 2); (0, 2) ]} 2] = [dag_example].
Proof.
  assert (Hrun : basic_move.propose 0 (basic_move.moves dag_example)
                   ([] : list (ParentSetDistribution Q)) 0 0 [dag_example]
                 = ([dag_example; mkDAG 3 {[ (0, 1); (1, 2); (0, 2) ]} 2],
                    inl IndexError)).
  { vm_compute. reflexivity. }
  split; [done|].
  exact (proj2 (basic_propose_raises_only [dag_example] _ 0 dag_example [] 0 0 _
                  eq_refl eq_refl dag_example_fan_in Hrun)).
Defined.

Lemma rev_propose_never_divides_by_zero_witness :
  rev_move.propose 0 (rev_move.moves dag_example)
    ([] : list (ParentSetDistribution Q)) 0 0 0 [dag_example]
  = ([dag_example], inl IndexError) ∧
  take 1 [dag_example] = [dag_example].
Proof.
  assert (Hrun : rev_move.propose 0 (rev_move.moves dag_example)
                   ([] : list (ParentSetDistribution Q)) 0 0 0 [dag_example]
                 = ([dag_example], inl IndexError)).
  { vm_compute. reflexivity. }
  assert (Hkeys : keys_in_range (F:=Q) (shape dag_example) []).
  { intros v d ps Hd. by rewrite lookup_nil in Hd. }
  split; [done|].
  exact (proj2 (rev_propose_never_divides_by_zero [dag_example] _ 0 dag_example
                  [] 0 0 0 _
                  eq_refl eq_refl Hkeys Hrun)).
Defined.

Lemma sample_rejects_fan_in_violation_witness :
  DAGProposal.sample (DAGProposal.mk [basic_move] [1%Q] 0 scores_example)
    0 0 0 0 0 [dag_example]
  = ([dag_example], inl ValueError).
Proof.
  refine (proj2 (sample_rejects_fan_in_violation
                   (DAGProposal.mk [basic_move] [1%Q] 0 scores_example)
                   [dag_example] 0 dag_example 0 0 0 0 eq_refl) _).
  vm_compute. reflexivity.
Defined.

Lemma move_draw_skips_unflagged_witness :
  choice_p (DAGProposal.renormalize [1%Q; 1%Q] [false; true]) 0 = inr 1 ∧
  1 < length [1%Q; 1%Q] ∧ [false; true] !! 1 = Some true.
Proof.
  assert (Hdraw : choice_p (DAGProposal.renormalize [1%Q; 1%Q] [false; true]) 0
                  = inr 1) by (vm_compute; reflexivity).
  split; [done|].
  exact (move_draw_skips_unflagged [1%Q; 1%Q] [false; true] 0 1 Hdraw).
Defined.

Lemma rev_only_proposal_raises_without_edges_witness :
  DAGProposal.sample rev_only 0 0 0 0 0 [no_edges]
  = ([set_fan_in no_edges 2], inl ValueError).
Proof.
  refine (rev_only_proposal_raises_without_edges rev_only [no_edges] 0 no_edges
            0 0 0 0 eq_refl _ eq_refl).
  intros m Hm. simpl in Hm. by apply list_elem_of_singleton in Hm.
Defined.

Lemma initialize_builds_one_table_per_variable_witness :
  DAGProposal_init [basic_move; rev_move] [1%Q; 1%Q] 2 = inr config_example ∧
  ∃ self, initialize config_example 3 score_example = inr self ∧
          length (DAGProposal.ps_scores_ self) = 3.
Proof.
  split; [reflexivity|].
  destruct (initialize_builds_one_table_per_variable [basic_move; rev_move]
              [1%Q; 1%Q] 2 3 score_example config_example eq_refl)
    as (_ & self & H1 & _ & _ & _ & H2 & _).
  by exists self.
Defined.

Lemma sample_output_is_valid_input_witness :
  initialize config_example (shape dag_example) score_example
    = inr proposal_example ∧
  ∃ S', [set_fan_in dag_example 2; mkDAG 3 {[ (0, 1); (1, 2); (0, 2) ]} 2] !! 1
          = Some S' ∧
        is_dag S' = true ∧ fan_in_ S' = 2 ∧
        DAGProposal.fan_in_violated proposal_example S' = false.
Proof.
  assert (Hfit : initialize config_example (shape dag_example) score_example
                 = inr proposal_example) by reflexivity.
  assert (Hrun : DAGProposal.sample proposal_example 0 0 0 0 0 [dag_example]
                 = ([set_fan_in dag_example 2;
                     mkDAG 3 {[ (0, 1); (1, 2); (0, 2) ]} 2], inr (1, 1%Q, 1%Q))).
  { vm_compute. reflexivity. }
  split; [done|].
  destruct (sample_output_is_valid_input [basic_move; rev_move] [1%Q; 1%Q] 2
              score_example config_example proposal_example [dag_example] _ 0 _
              dag_example 0 0 0 0 _ _ eq_refl Hfit eq_refl eq_refl Hrun)
    as (S' & H1 & _ & _ & H2 & H3 & H4 & _).
  by exists S'.
Defined.

Lemma sample_lookups_never_fail_witness :
  initialize (mk_config [rev_move] [1%Q] 2) (shape no_edges) score_example
    = inr rev_only ∧
  DAGProposal.sample rev_only 0 0 0 0 0 [no_edges]
    = ([set_fan_in no_edges 2], inl ValueError) ∧
  ValueError ≠ KeyError.
Proof.
  assert (Hfit : initialize (mk_config [rev_move] [1%Q] 2) (shape no_edges)
                   score_example = inr rev_only) by reflexivity.
  assert (Hrun : DAGProposal.sample rev_only 0 0 0 0 0 [no_edges]
                 = ([set_fan_in no_edges 2], inl ValueError))
    by (vm_compute; reflexivity).
  split; [done|]. split; [done|].
  exact (proj1 (sample_lookups_never_fail [rev_move] [1%Q] 2 score_example
                  (mk_config [rev_move] [1%Q] 2) rev_only [no_edges] _ 0 no_edges
                  0 0 0 0 ValueError eq_refl Hfit eq_refl eq_refl Hrun)).
Defined.

Lemma views_rebuild_distribution_witness :
  ParentSetDistribution_init 0 (elements <$> parent_sets psd_example)
    (log_proba psd_example) = inr psd_example.
Proof.
  refine (proj2 (proj2 (proj2
            (views_rebuild_distribution 0 [[]; [1]; [2]] [1%Q; 2%Q; 4%Q]
               psd_example _ _)))).
  - vm_compute. reflexivity.
  - discriminate.
Defined.

Lemma enumeration_table_size_witness :
  length (table (default psd_example (scores_example !! 0))) = 4.
Proof.
  refine (proj1 (enumeration_table_size 3 2 score_example scores_example 0
                   (default psd_example (scores_example !! 0))
                   scores_example_enumeration _)).
  vm_compute. reflexivity.
Defined.
